(** * Global explanation engines of survInterpretability

    A shallow embedding of [src/Lucas/src/global_explaination.py]
    (partial dependence, permutation feature importance, accumulated local
    effects and the two unimplemented entry points) together with the
    properties stated about them.

    Conventions of the embedding.
    - A float64 is a value of [float]: a finite value is an exact rational
      (rounding and overflow are not modelled, and there is a single zero);
      the special values [PInf], [NInf] and [NaN] follow the IEEE rules.
    - Python objects that are shared and mutated (DataFrames and the ndarray
      buffers of their columns) live in a heap; a DataFrame holds, for each
      column label, the location of that column's buffer, so that
      [df[name].values] is a view on the frame.
    - A function of the module is a computation in the monad [M]: it threads
      the heap and the state of numpy's global random generator and either
      returns a value or raises a Python exception.
    - The collaborators imported from other modules ([performance.evaluate],
      [predict], [individual_conditional_expectation]) and
      [np.random.shuffle] are parameters of the development, and so is the
      order in which the sort of numpy, which is not stable, leaves rows with
      equal keys. *)

From Stdlib Require Import QArith Qcanon Qround ZArith Lia List.
From Stdlib Require Import Sorting.Permutation Sorting.Sorted Lra Psatz.
From stdpp Require Import gmap strings list fin_maps.

Local Open Scope string_scope.
Local Open Scope list_scope.

(** ** Floating-point values *)

Module Float.

Inductive float : Type :=
  | Finite (q : Qc)
  | PInf
  | NInf
  | NaN.

Definition zero : float := Finite 0%Qc.
Definition one : float := Finite 1%Qc.

Definition of_Z (z : Z) : float := Finite (Q2Qc (inject_Z z)).
Definition of_nat (n : nat) : float := of_Z (Z.of_nat n).

Definition is_nan (x : float) : bool :=
  match x with NaN => true | _ => false end.

Definition is_finite (x : float) : bool :=
  match x with Finite _ => true | _ => false end.

Definition Qc_ltb (a b : Qc) : bool :=
  match (a ?= b)%Qc with Lt => true | _ => false end.

Definition Qc_eqb (a b : Qc) : bool :=
  match (a ?= b)%Qc with Eq => true | _ => false end.

(** Sign of a float that is not NaN: [Lt] negative, [Eq] zero, [Gt] positive. *)
Definition sign (x : float) : comparison :=
  match x with
  | Finite q => (q ?= 0)%Qc
  | PInf => Gt
  | NInf => Lt
  | NaN => Eq
  end.

Definition neg (x : float) : float :=
  match x with
  | Finite q => Finite (- q)%Qc
  | PInf => NInf
  | NInf => PInf
  | NaN => NaN
  end.

Definition add (x y : float) : float :=
  match x, y with
  | NaN, _ | _, NaN => NaN
  | Finite a, Finite b => Finite (a + b)%Qc
  | PInf, NInf | NInf, PInf => NaN
  | PInf, _ | _, PInf => PInf
  | NInf, _ | _, NInf => NInf
  end.

Definition sub (x y : float) : float := add x (neg y).

(** The infinity whose sign is the product of two non-zero signs. *)
Definition inf_of_signs (s1 s2 : comparison) : float :=
  match s1, s2 with
  | Gt, Gt | Lt, Lt => PInf
  | Eq, _ | _, Eq => NaN
  | _, _ => NInf
  end.

Definition mul (x y : float) : float :=
  match x, y with
  | NaN, _ | _, NaN => NaN
  | Finite a, Finite b => Finite (a * b)%Qc
  | _, _ => inf_of_signs (sign x) (sign y)
  end.

(** IEEE division: a non-zero finite value divided by zero is an infinity,
    zero divided by zero and infinity divided by infinity are NaN. *)
Definition div (x y : float) : float :=
  match x, y with
  | NaN, _ | _, NaN => NaN
  | Finite a, Finite b =>
      if Qc_eqb b 0 then inf_of_signs (sign x) Gt
      else Finite (a / b)%Qc
  | Finite _, _ => zero
  | _, Finite _ =>
      match sign y with
      | Eq => x
      | s => inf_of_signs (sign x) s
      end
  | _, _ => NaN
  end.

Definition abs (x : float) : float :=
  match x with
  | Finite q => if Qc_ltb q 0 then Finite (- q)%Qc else x
  | NInf => PInf
  | _ => x
  end.

(** [x < y], [x <= y] and [x == y] as numpy evaluates them: every
    comparison with NaN is false. *)
Definition ltb (x y : float) : bool :=
  match x, y with
  | NaN, _ | _, NaN => false
  | Finite a, Finite b => Qc_ltb a b
  | NInf, NInf | PInf, _ => false
  | NInf, _ | _, PInf => true
  | _, NInf => false
  end.

Definition eqb (x y : float) : bool :=
  match x, y with
  | Finite a, Finite b => Qc_eqb a b
  | PInf, PInf | NInf, NInf => true
  | _, _ => false
  end.

Definition leb (x y : float) : bool := ltb x y || eqb x y.

(** The order numpy sorts by: the comparison above, with NaN after
    everything else. *)
Definition sort_ltb (x y : float) : bool :=
  match x, y with
  | NaN, _ => false
  | _, NaN => true
  | _, _ => ltb x y
  end.

Definition sum (l : list float) : float := fold_left add l zero.

End Float.

Export Float (float, Finite, PInf, NInf, NaN).

(** ** Exceptions, the heap and the monad of computations *)

(** The Python exceptions the module can raise.  [InvalidReference] is not a
    Python exception: it is the outcome of dereferencing a location that
    holds no object of the expected kind, which no reference obtained from
    the heap ever does. *)
Inductive exn : Type :=
  | ValueError (msg : string)
  | KeyError (key : string)
  | TypeError (msg : string)
  | IndexError (msg : string)
  | UnboundLocalError (name : string)
  | ZeroDivisionError
  | InvalidReference.

Inductive result (A : Type) : Type :=
  | Ok (a : A)
  | Raise (e : exn).

Arguments Ok {A} a.
Arguments Raise {A} e.

Definition is_ok {A} (r : result A) : bool :=
  match r with Ok _ => true | Raise _ => false end.

Definition loc := positive.

(** A heap object: the buffer of a one-dimensional float64 array, or a
    DataFrame given by its column labels, in order, each with the location
    of its buffer. *)
Inductive obj : Type :=
  | Ndarray (a : list float)
  | DataFrame (cols : list (string * loc)).

(** Columns of a frame, in order, each with its label. *)
Definition assoc_get {V} (t : list (string * V)) (name : string) : option V :=
  snd <$> List.find (fun c => String.eqb (fst c) name) t.

Definition assoc_has {V} (t : list (string * V)) (name : string) : bool :=
  existsb (fun c => String.eqb (fst c) name) t.

(** [t[name] = v]: replaces the column labelled [name], or appends a new
    column when the label is new. *)
Definition assoc_set {V} (t : list (string * V)) (name : string) (v : V)
  : list (string * V) :=
  if assoc_has t name
  then map (fun c => if String.eqb (fst c) name then (fst c, v) else c) t
  else t ++ [(name, v)].

(** The content of a DataFrame whose cells have type [C]. *)
Definition frame (C : Type) : Type := list (string * list C).

(** The content of a DataFrame of float64 columns. *)
Definition table : Type := frame float.

Definition columns {C} (t : frame C) : list string := map fst t.

(** Number of rows: the length of the columns (0 for a frame without
    columns). *)
Definition nrows {C} (t : frame C) : nat :=
  match t with
  | [] => 0
  | c :: _ => length (snd c)
  end.

Definition read_array (h : gmap loc obj) (l : loc) : option (list float) :=
  match h !! l with
  | Some (Ndarray a) => Some a
  | _ => None
  end.

Fixpoint read_cols (h : gmap loc obj) (cols : list (string * loc)) : option table :=
  match cols with
  | [] => Some []
  | c :: cs =>
      match read_array h (snd c), read_cols h cs with
      | Some a, Some t => Some ((fst c, a) :: t)
      | _, _ => None
      end
  end.

(** The content of the DataFrame at [l], read through its column buffers. *)
Definition read_frame (h : gmap loc obj) (l : loc) : option table :=
  match h !! l with
  | Some (DataFrame cols) => read_cols h cols
  | _ => None
  end.

Section Computations.

(** State of numpy's global random generator. *)
Variable RandomState : Type.

Record state : Type := State { heap : gmap loc obj; rng : RandomState }.

Definition M (A : Type) : Type := state -> result A * state.

Definition ret {A} (a : A) : M A := fun s => (Ok a, s).

Definition raise {A} (e : exn) : M A := fun s => (Raise e, s).

Definition bind {A B} (m : M A) (k : A -> M B) : M B :=
  fun s =>
    match m s with
    | (Ok a, s') => k a s'
    | (Raise e, s') => (Raise e, s')
    end.

Definition lift_option {A} (e : exn) (o : option A) : M A :=
  match o with Some a => ret a | None => raise e end.

Definition lift_result {A} (r : result A) : M A :=
  match r with Ok a => ret a | Raise e => raise e end.

(** A [for] loop that threads an accumulator. *)
Fixpoint for_each {A B} (l : list A) (body : B -> A -> M B) (acc : B) : M B :=
  match l with
  | [] => ret acc
  | x :: l' => bind (body acc x) (for_each l' body)
  end.

End Computations.

Arguments State {RandomState} heap rng.
Arguments heap {RandomState} s.
Arguments rng {RandomState} s.
Arguments ret {RandomState A} a.
Arguments raise {RandomState A} e.
Arguments bind {RandomState A B} m k.
Arguments lift_option {RandomState A} e o.
Arguments lift_result {RandomState A} r.
Arguments for_each {RandomState A B} l body acc.

Declare Scope comp_scope.
Delimit Scope comp_scope with comp.
Notation "'let!' x ':=' m 'in' k" := (bind m (fun x => k))
  (at level 10, x pattern, m at level 100, k at level 200) : comp_scope.
Notation "'do!' m 'in' k" := (bind m (fun _ => k))
  (at level 10, m at level 100, k at level 200) : comp_scope.

Local Open Scope comp_scope.

(** ** numpy on one-dimensional arrays *)

(** [np.zeros(n)] *)
Definition np_zeros (n : nat) : list float := repeat Float.zero n.

(** [a op b] on two arrays: elementwise on equal shapes, a one-element
    array is broadcast, any other pair of shapes is an error. *)
Definition np_broadcast (f : float -> float -> float) (a b : list float)
  : result (list float) :=
  if Nat.eqb (length a) (length b) then Ok (zip_with f a b)
  else match a, b with
       | [x], _ => Ok (map (f x) b)
       | _, [y] => Ok (map (fun x => f x y) a)
       | _, _ => Raise (ValueError "operands could not be broadcast together")
       end.

(** [a += b]: as above, but the result must have the shape of [a]. *)
Definition np_iadd (a b : list float) : result (list float) :=
  if Nat.eqb (length a) (length b) then Ok (zip_with Float.add a b)
  else match b with
       | [y] => Ok (map (fun x => Float.add x y) a)
       | _ => Raise (ValueError "non-broadcastable output operand")
       end.

(** [c * a] for a Python float [c]. *)
Definition np_scale (c : float) (a : list float) : list float :=
  map (Float.mul c) a.

(** [range(n)] *)
Definition py_range (n : Z) : list Z := map Z.of_nat (seq 0 (Z.to_nat n)).

(** [len(x)] where [x] may be [None]. *)
Definition py_len {A} (x : option (list A)) : result nat :=
  match x with
  | Some l => Ok (length l)
  | None => Raise (TypeError "object of type 'NoneType' has no len()")
  end.

(** ** Cells of a frame that mixes strings and numbers *)

(** A Python [str]: a literal text, or the text numpy writes for a float64:
    ['nan'] for NaN, ['inf'] or ['-inf'] for an infinity, and for a finite
    value digits that read back as the same float64. *)
Inductive pystr : Type :=
  | Lit (s : string)
  | Repr (x : float).

Inductive cell : Type :=
  | CStr (s : pystr)
  | CNum (x : float).

Definition is_numeric (c : cell) : bool :=
  match c with CNum _ => true | CStr _ => false end.

(** [pd.concat([a, b])] for two frames with the same column labels: the
    rows of [b] follow the rows of [a]. *)
Definition pd_concat {C} (a b : frame C) : frame C :=
  map (fun c => (fst c, snd c ++ default [] (assoc_get b (fst c)))) a.

(** [df[names]]: the columns [names], in that order. *)
Fixpoint df_select {C} (t : frame C) (names : list string) : result (frame C) :=
  match names with
  | [] => Ok []
  | n :: ns =>
      match assoc_get t n with
      | None => Raise (KeyError n)
      | Some c =>
          match df_select t ns with
          | Ok r => Ok ((n, c) :: r)
          | Raise e => Raise e
          end
      end
  end.

(** [df[name] = vals] on the content of a frame: the new column must have
    as many rows as the frame, unless the frame has no column yet. *)
Definition df_assign {C} (t : frame C) (name : string) (vals : list C)
  : result (frame C) :=
  match t with
  | [] => Ok [(name, vals)]
  | _ =>
      if Nat.eqb (length vals) (nrows t) then Ok (assoc_set t name vals)
      else Raise (ValueError "Length of values does not match length of index")
  end.

Definition rbind {A B} (r : result A) (k : A -> result B) : result B :=
  match r with Ok a => k a | Raise e => Raise e end.

(** [x / y] on two Python ints. *)
Definition py_truediv (x y : Z) : result float :=
  if Z.eqb y 0 then Raise ZeroDivisionError
  else Ok (Float.div (Float.of_Z x) (Float.of_Z y)).

(** [np.stack((a, b, c)).T] wrapped in [pd.DataFrame(..., columns=names)],
    where [a] holds strings: numpy stores the three arrays in one array of
    strings, so the floats of [b] and [c] are written out as text. *)
Definition stack_frame (names : string * string * string)
  (a : list string) (b c : list float) : result (frame cell) :=
  if Nat.eqb (length a) (length b) && Nat.eqb (length b) (length c)
  then Ok [ (names.1.1, map (fun s => CStr (Lit s)) a);
            (names.1.2, map (fun x => CStr (Repr x)) b);
            (names.2, map (fun x => CStr (Repr x)) c) ]
  else Raise (ValueError "all input arrays must have the same shape").

(** ** Sorting, quantiles and grouping *)

(** Stable insertion sort for a strict order given as a boolean test. *)
Fixpoint insert_sorted {A} (ltb : A -> A -> bool) (x : A) (l : list A) : list A :=
  match l with
  | [] => [x]
  | y :: l' => if ltb y x then y :: insert_sorted ltb x l' else x :: y :: l'
  end.

Definition isort {A} (ltb : A -> A -> bool) (l : list A) : list A :=
  fold_right (insert_sorted ltb) [] l.

(** Removes the repetitions of a sorted list. *)
Fixpoint dedup_sorted {A} (eqb : A -> A -> bool) (l : list A) : list A :=
  match l with
  | [] => []
  | x :: l' =>
      match l' with
      | [] => [x]
      | y :: _ => if eqb x y then dedup_sorted eqb l' else x :: dedup_sorted eqb l'
      end
  end.

(** [np.sort(a)]: increasing, NaN last. *)
Definition np_sort (a : list float) : list float := isort Float.sort_ltb a.

(** Equality of array elements for [np.unique]: all NaN count as one value. *)
Definition unique_eqb (x y : float) : bool :=
  Float.eqb x y || (Float.is_nan x && Float.is_nan y).

(** [np.unique(a)]: the sorted distinct values. *)
Definition np_unique (a : list float) : list float :=
  dedup_sorted unique_eqb (np_sort a).

(** [l[start::step]] for non-negative [start] and positive [step]. *)
Fixpoint every_nth {A} (step : nat) (skip : nat) (l : list A) : list A :=
  match l with
  | [] => []
  | x :: l' =>
      match skip with
      | O => x :: every_nth step (step - 1) l'
      | S k => every_nth step k l'
      end
  end.

Definition py_slice_from_step {A} (start step : nat) (l : list A) : list A :=
  every_nth step start l.

(** [np.repeat(a, n)]: each element [n] times, in order. *)
Definition np_repeat {A} (a : list A) (n : nat) : list A :=
  flat_map (fun x => repeat x n) a.

(** [np.arange(start, stop, step)] for a positive step:
    [ceil((stop - start) / step)] values [start + i * step]. *)
Definition np_arange (start stop step : Qc) : list float :=
  map (fun i : nat => Finite (start + Q2Qc (inject_Z (Z.of_nat i)) * step)%Qc)
      (seq 0 (Z.to_nat (Qceiling ((stop - start) / step)%Qc))).

(** [a[i]] *)
Definition np_getitem (a : list float) (i : nat) : result float :=
  match a !! i with
  | Some x => Ok x
  | None => Raise (IndexError "index out of bounds")
  end.

(** [a.argmin()]: the first index of the least element; a NaN counts as
    least. *)
Fixpoint argmin_from (best_i : nat) (best : float) (i : nat) (l : list float) : nat :=
  match l with
  | [] => best_i
  | x :: l' =>
      if negb (Float.is_nan best) && (Float.is_nan x || Float.ltb x best)
      then argmin_from i x (S i) l'
      else argmin_from best_i best (S i) l'
  end.

Definition np_argmin (a : list float) : result nat :=
  match a with
  | [] => Raise (ValueError "attempt to get argmin of an empty sequence")
  | x :: l => Ok (argmin_from 0 x 1 l)
  end.

(** numpy's linear interpolation between [a] and [b]. *)
Definition lerp (a b t : float) : float :=
  let diff_b_a := Float.sub b a in
  if Float.leb (Finite (Q2Qc (1 # 2))) t
  then Float.sub b (Float.mul diff_b_a (Float.sub Float.one t))
  else Float.add a (Float.mul diff_b_a t).

(** One quantile of a sorted non-empty array of [n] values without NaN, at
    the level [p] between 0 and 1: the value at the virtual index
    [p * (n - 1)], interpolated between its two neighbours. *)
Definition quantile_sorted (sorted : list float) (p : Qc) : float :=
  let n := length sorted in
  let virtual_index := (p * Q2Qc (inject_Z (Z.of_nat n - 1)))%Qc in
  if Float.Qc_ltb virtual_index (Q2Qc (inject_Z (Z.of_nat n - 1)))
  then
    let previous_index := Z.to_nat (Qfloor virtual_index) in
    let gamma := (virtual_index - Q2Qc (inject_Z (Qfloor virtual_index)))%Qc in
    lerp (default NaN (sorted !! previous_index))
         (default NaN (sorted !! S previous_index))
         (Finite gamma)
  else
    let last := default NaN (sorted !! (n - 1)) in
    lerp last last (Finite (virtual_index + 1)%Qc).

Definition valid_level (q : float) : option Qc :=
  match q with
  | Finite p => if Float.Qc_ltb p 0 || Float.Qc_ltb 1 p then None else Some p
  | _ => None
  end.

(** [np.quantile(a, q)] with the default (linear) method. *)
Definition np_quantile (a : list float) (q : list float) : result (list float) :=
  match mapM valid_level q with
  | None => Raise (ValueError "Quantiles must be in the range [0, 1]")
  | Some levels =>
      match a with
      | [] => Raise (IndexError "index -1 is out of bounds for axis 0 with size 0")
      | _ =>
          if existsb Float.is_nan a then Ok (map (fun _ => NaN) levels)
          else Ok (map (quantile_sorted (np_sort a)) levels)
      end
  end.

(** [a[idx]] on the rows of a column. *)
Definition gather {C} (col : list C) (idx : list nat) : list C :=
  omap (fun i => col !! i) idx.

(** The order in which [sort_values] puts two rows, each given by its key
    and its index: by increasing key, NaN last.  pandas sorts with the
    quicksort of numpy, which is not stable: the order of rows with equal
    keys is the choice of numpy, and [tie keys i j] stands for its choice,
    for the column [keys], to put the row [i] before the row [j]. *)
Definition row_before (tie : list float -> nat -> nat -> bool) (keys : list float)
  (a b : float * nat) : bool :=
  Float.sort_ltb (fst a) (fst b)
  || (negb (Float.sort_ltb (fst b) (fst a)) && tie keys (snd a) (snd b)).

(** The indices of the rows in sorted order. *)
Definition argsort (tie : list float -> nat -> nat -> bool) (keys : list float)
  : list nat :=
  map snd (isort (row_before tie keys) (zip keys (seq 0 (length keys)))).

(** [df.sort_values(by=[name])] on the content of a frame: rows in
    increasing order of the column [name], NaN last. *)
Definition sort_values (tie : list float -> nat -> nat -> bool)
  (t : table) (name : string) : result table :=
  match assoc_get t name with
  | None => Raise (KeyError name)
  | Some keys => Ok (map (fun c => (fst c, gather (snd c) (argsort tie keys))) t)
  end.

(** The choice that keeps rows with equal keys in their original order. *)
Definition stable : list float -> nat -> nat -> bool := fun _ _ _ => false.

(** Strict lexicographic order and equality on pairs of group keys. *)
Definition key_ltb (a b : float * float) : bool :=
  Float.ltb (fst a) (fst b) || (Float.eqb (fst a) (fst b) && Float.ltb (snd a) (snd b)).

Definition key_eqb (a b : float * float) : bool :=
  Float.eqb (fst a) (fst b) && Float.eqb (snd a) (snd b).

Definition key_present (k : float * float) : bool :=
  negb (Float.is_nan (fst k)) && negb (Float.is_nan (snd k)).

(** The keys of the groups: the distinct pairs without NaN, sorted. *)
Definition group_keys (keys : list (float * float)) : list (float * float) :=
  dedup_sorted key_eqb (isort key_ltb (filter (fun k => key_present k) keys)).

(** The values of a column in the rows whose key is [k]. *)
Definition group_values_of (keys : list (float * float)) (col : list float)
  (k : float * float) : list float :=
  map snd (filter (fun r : (float * float) * float => key_eqb (fst r) k) (zip keys col)).

(** The mean pandas computes for a group: missing values are skipped, and a
    group without any value has a missing mean. *)
Definition mean_skipna (l : list float) : float :=
  let present := filter (fun x => negb (Float.is_nan x)) l in
  match present with
  | [] => NaN
  | _ => Float.div (Float.sum present) (Float.of_nat (length present))
  end.

(** [df.groupby([k1, k2]).mean().reset_index()]: one row per group, the two
    key columns first, then the mean of every other column. *)
Definition groupby_mean (t : table) (k1 k2 : string) : result table :=
  match assoc_get t k1, assoc_get t k2 with
  | None, _ => Raise (KeyError k1)
  | _, None => Raise (KeyError k2)
  | Some c1, Some c2 =>
      let keys := zip c1 c2 in
      let groups := group_keys keys in
      Ok ((k1, map fst groups) :: (k2, map snd groups) ::
          map (fun c => (fst c, map (fun k => mean_skipna (group_values_of keys (snd c) k)) groups))
              (filter (fun c => negb (String.eqb (fst c) k1) && negb (String.eqb (fst c) k2)) t))
  end.

Section Engines.

(** State of numpy's global random generator, and [np.random.shuffle] as a
    function of it: the shuffled array and the next state. *)
Variable RandomState : Type.
Variable shuffle : RandomState -> list float -> list float * RandomState.

(** The fitted survival model wrapped by an explainer, and the survival
    labels handed to the performance evaluator. *)
Variable Model : Type.
Variable SurvLabels : Type.

(** The explainer object: its model, a reference to its dataset and its
    label array, one (time, event indicator) pair per row. *)
Record explainer : Type := Explainer {
  model : Model;
  data : loc;
  label : list (float * float)
}.

(** What a collaborator sees of an explainer: the dataset is read through
    the reference. *)
Record explainer_view : Type := ExplainerView {
  view_model : Model;
  view_data : table;
  view_label : list (float * float)
}.

(** [performance.evaluate(explainer, feats, labels, times=..., metric=...)["perf"].values] *)
Variable evaluate :
  explainer_view -> table -> SurvLabels -> option (list float) -> string -> list float.

(** [float(s)] on a text, when it denotes a number. *)
Variable parse_float : string -> option float.

Local Abbreviation M := (@M RandomState) (only parsing).

(** *** Heap primitives *)

Definition alloc (o : obj) : M loc :=
  fun s =>
    let l := fresh (dom (heap s)) in
    (Ok l, State (<[l := o]> (heap s)) (rng s)).

Definition store (l : loc) (o : obj) : M unit :=
  fun s => (Ok tt, State (<[l := o]> (heap s)) (rng s)).

Definition load_array (l : loc) : M (list float) :=
  fun s => lift_option InvalidReference (read_array (heap s) l) s.

Definition load_columns (l : loc) : M (list (string * loc)) :=
  fun s =>
    match heap s !! l with
    | Some (DataFrame cols) => (Ok cols, s)
    | _ => (Raise InvalidReference, s)
    end.

(** The content of the frame at [df]. *)
Definition df_read (df : loc) : M table :=
  fun s => lift_option InvalidReference (read_frame (heap s) df) s.

Fixpoint copy_columns (cols : list (string * loc)) : M (list (string * loc)) :=
  match cols with
  | [] => ret []
  | c :: cs =>
      let! a := load_array (snd c) in
      let! l := alloc (Ndarray a) in
      let! cs' := copy_columns cs in
      ret ((fst c, l) :: cs')
  end.

(** [df.copy(deep=True)]: a new frame over new buffers. *)
Definition df_copy_deep (df : loc) : M loc :=
  let! cols := load_columns df in
  let! cols' := copy_columns cols in
  alloc (DataFrame cols').

(** [df[name].values]: the buffer of the column, not a copy of it. *)
Definition df_getitem_values (df : loc) (name : string) : M loc :=
  let! cols := load_columns df in
  lift_option (KeyError name) (assoc_get cols name).

(** [df[name] = vals] for an array [vals]: the frame at [df] is updated in
    place and the column gets a buffer of its own. *)
Definition df_setitem (df : loc) (name : string) (vals : list float) : M unit :=
  let! cols := load_columns df in
  let! t := df_read df in
  let! _ := lift_result (df_assign t name vals) in
  let! b := alloc (Ndarray vals) in
  store df (DataFrame (assoc_set cols name b)).

(** [np.random.shuffle(a)]: the buffer at [a] is shuffled in place. *)
Definition np_random_shuffle (a : loc) : M unit :=
  let! v := load_array a in
  fun s =>
    let r := shuffle (rng s) v in
    (Ok tt, State (<[a := Ndarray r.1]> (heap s)) r.2).

Definition view_of (e : explainer) : M explainer_view :=
  let! d := df_read (data e) in
  ret (ExplainerView (model e) d (label e)).

(** *** pandas on frames of cells *)

(** [pd.to_numeric] on one cell of a column.  The parser of pandas reads
    the text of a finite float64 and of an infinity; it does not read
    ['nan'], on which the conversion raises. *)
Definition to_numeric_cell (c : cell) : result cell :=
  match c with
  | CNum x => Ok (CNum x)
  | CStr (Repr x) =>
      if Float.is_nan x then Raise (ValueError "Unable to parse string")
      else Ok (CNum x)
  | CStr (Lit s) =>
      match parse_float s with
      | Some x => Ok (CNum x)
      | None => Raise (ValueError "Unable to parse string")
      end
  end.

Fixpoint to_numeric (col : list cell) : result (list cell) :=
  match col with
  | [] => Ok []
  | c :: cs =>
      rbind (to_numeric_cell c) (fun c' =>
      rbind (to_numeric cs) (fun cs' => Ok (c' :: cs')))
  end.

(** [df[names] = df[names].apply(pd.to_numeric)] *)
Fixpoint to_numeric_columns (t : frame cell) (names : list string)
  : result (frame cell) :=
  match names with
  | [] => Ok t
  | n :: ns =>
      match assoc_get t n with
      | None => Raise (KeyError n)
      | Some col =>
          rbind (to_numeric col) (fun col' =>
          to_numeric_columns (assoc_set t n col') ns)
      end
  end.

(** [pd.DataFrame(columns=names)] *)
Definition empty_frame {C} (names : list string) : frame C :=
  map (fun n => (n, [])) names.

(** *** Permutation feature importance *)

Definition permutation_feature_importance
  (explainer : explainer) (feats : loc) (surv_labels : SurvLabels)
  (eval_times : option (list float)) (n_perm : Z) (loss type : string)
  : M (frame cell) :=
  let! feat_importance_df :=
    if String.eqb loss "brier_score" then
      let! ev := view_of explainer in
      let! feats_v := df_read feats in
      let bs_perf := evaluate ev feats_v surv_labels eval_times "brier_score" in
      let feats_name := columns feats_v in
      let feat_importance_df_cols := ("feat", "times", "perf") in
      let feat_importance_df := empty_frame ["feat"; "times"; "perf"] in
      let! n_eval_times := lift_result (py_len eval_times) in
      let! feat_importance_df :=
        for_each feats_name (fun feat_importance_df feat_name =>
          let! bs_perf_perm :=
            for_each (py_range n_perm) (fun bs_perf_perm k =>
              let! feats_copy := df_copy_deep feats in
              let! feat_perm := df_getitem_values feats_copy feat_name in
              do! np_random_shuffle feat_perm in
              let! feats_perm_df := df_copy_deep feats in
              let! feat_perm_v := load_array feat_perm in
              do! df_setitem feats_perm_df feat_name feat_perm_v in
              let! ev := view_of explainer in
              let! perm_v := df_read feats_perm_df in
              let tmp := evaluate ev perm_v surv_labels eval_times "brier_score" in
              let! w := lift_result (py_truediv 1 n_perm) in
              lift_result (np_iadd bs_perf_perm (np_scale w tmp)))
            (np_zeros n_eval_times) in
          if String.eqb type "ratio" then
            let! importance_ratio :=
              lift_result (np_broadcast Float.div bs_perf bs_perf_perm) in
            let! additional_ratio :=
              lift_result (stack_frame feat_importance_df_cols
                             (repeat feat_name n_eval_times)
                             (default [] eval_times) importance_ratio) in
            ret (pd_concat feat_importance_df additional_ratio)
          else ret feat_importance_df)
        feat_importance_df in
      ret (Some feat_importance_df)
    else ret None in
  match feat_importance_df with
  | None => raise (UnboundLocalError "feat_importance_df")
  | Some df => lift_result (to_numeric_columns df ["times"; "perf"])
  end.

(** *** Partial dependence *)

(** [individual_conditional_expectation(explainer, feature, n_sel_samples,
    n_grid_points, type)]: a frame with (at least) the columns [X], [times]
    and [pred], or the lookup failure of an unknown feature. *)
Variable individual_conditional_expectation :
  explainer_view -> string -> Z -> Z -> string -> result table.

Definition partial_dependence_plots
  (explainer : explainer) (selected_features : string)
  (n_sel_samples n_grid_points : Z) (type : string) : M table :=
  let! ev := view_of explainer in
  let! ICE_df :=
    lift_result (individual_conditional_expectation
                   ev selected_features n_sel_samples n_grid_points type) in
  let! grouped := lift_result (groupby_mean ICE_df "X" "times") in
  let! PDP_df := lift_result (df_select grouped ["X"; "times"; "pred"]) in
  ret PDP_df.

(** *** Accumulated local effects *)

(** [predict(explainer, data, times, type)]: a frame with (at least) the
    columns [pred] and [times]. *)
Variable predict : explainer_view -> table -> list float -> string -> table.

(** The order numpy gives to rows with equal keys when it sorts. *)
Variable tie : list float -> nat -> nat -> bool.

(** A new frame with the content [t]. *)
Fixpoint alloc_columns (t : table) : M (list (string * loc)) :=
  match t with
  | [] => ret []
  | c :: cs =>
      let! l := alloc (Ndarray (snd c)) in
      let! cs' := alloc_columns cs in
      ret ((fst c, l) :: cs')
  end.

Definition df_new (t : table) : M loc :=
  let! cols := alloc_columns t in
  alloc (DataFrame cols).

(** [df.sort_values(by=[name])]: the sorted rows in a new frame. *)
Definition df_sort_values (df : loc) (name : string) : M loc :=
  let! t := df_read df in
  let! sorted := lift_result (sort_values tie t name) in
  df_new sorted.

(** The quantile levels [np.arange(0., 1.01, 0.1)]. *)
Definition qt_list : list float :=
  np_arange 0 (Q2Qc (101 # 100)) (Q2Qc (1 # 10)).

(** [min(np.abs(grid_qt_values - var).argmin(), len(qt_list) - 2)] *)
Definition bin_index (grid_qt_values : list float) (var : float) : result nat :=
  rbind (np_argmin (map Float.abs (map (fun g => Float.sub g var) grid_qt_values)))
        (fun i => Ok (Nat.min i (length qt_list - 2))).

(** A list comprehension whose element expression may raise. *)
Fixpoint comprehension {A B} (f : A -> result B) (l : list A) : result (list B) :=
  match l with
  | [] => Ok []
  | x :: l' =>
      rbind (f x) (fun y => rbind (comprehension f l') (fun ys => Ok (y :: ys)))
  end.

(** [np.unique(explainer.label[:, 0])[10::100]] *)
Definition ale_eval_times (explainer : explainer) : list float :=
  py_slice_from_step 10 100 (np_unique (map fst (label explainer))).

Definition accumulated_local_effects_plots
  (explainer : explainer) (selected_features : string) (type : string) : M table :=
  let! data_copy := df_copy_deep (data explainer) in
  let! data := df_sort_values data_copy selected_features in
  let! var_values_view := df_getitem_values data selected_features in
  let! var_values := load_array var_values_view in
  let! grid_qt_values := lift_result (np_quantile var_values qt_list) in
  let! var_values_idx :=
    lift_result (comprehension (bin_index grid_qt_values) var_values) in
  let! var_lower :=
    lift_result (comprehension (fun i => np_getitem grid_qt_values i) var_values_idx) in
  let! var_upper :=
    lift_result (comprehension (fun i => np_getitem grid_qt_values (i + 1)) var_values_idx) in
  let! data_lower := df_copy_deep data in
  let! data_upper := df_copy_deep data in
  do! df_setitem data_lower selected_features var_lower in
  do! df_setitem data_upper selected_features var_upper in
  let eval_times := ale_eval_times explainer in
  let! preds :=
    if String.eqb type "survival" then
      let! ev := view_of explainer in
      let! lower_v := df_read data_lower in
      let lower_pred := predict ev lower_v eval_times "survival" in
      let! ev := view_of explainer in
      let! upper_v := df_read data_upper in
      let upper_pred := predict ev upper_v eval_times "survival" in
      ret (lower_pred, upper_pred)
    else if String.eqb type "chf" then
      let! ev := view_of explainer in
      let! lower_v := df_read data_lower in
      let lower_pred := predict ev lower_v eval_times "chf" in
      let! ev := view_of explainer in
      let! upper_v := df_read data_upper in
      let upper_pred := predict ev upper_v eval_times "chf" in
      ret (lower_pred, upper_pred)
    else raise (ValueError "Unsupported") in
  let lower_pred := fst preds in
  let upper_pred := snd preds in
  let n_times := length eval_times in
  let groups := np_repeat (map Float.of_nat var_values_idx) n_times in
  let! diff_pred := lift_result (df_select upper_pred ["pred"; "times"]) in
  let! upper_col := lift_option (KeyError "pred") (assoc_get diff_pred "pred") in
  let! lower_col := lift_option (KeyError "pred") (assoc_get lower_pred "pred") in
  let! diff := lift_result (np_broadcast Float.sub upper_col lower_col) in
  let! diff_pred := lift_result (df_assign diff_pred "pred" diff) in
  let! diff_pred := lift_result (df_assign diff_pred "groups" groups) in
  let! grouped := lift_result (groupby_mean diff_pred "groups" "times") in
  let! ALE_df := lift_result (df_select grouped ["groups"; "times"; "pred"]) in
  let group_values := np_repeat (removelast grid_qt_values) n_times in
  let! ALE_df := lift_result (df_assign ALE_df "group_values" group_values) in
  ret ALE_df.

(** *** Entry points that are not implemented *)

Definition feature_interaction {A} (explainer : explainer) : M A :=
  raise (ValueError "Not supported yet").

Definition functional_decomposition {A} (explainer : explainer) : M A :=
  raise (ValueError "Not supported yet").

End Engines.

Arguments Explainer {Model} model data label.
Arguments model {Model} e.
Arguments data {Model} e.
Arguments label {Model} e.
Arguments ExplainerView {Model} view_model view_data view_label.
Arguments view_model {Model} e.
Arguments view_data {Model} e.
Arguments view_label {Model} e.
Arguments alloc {RandomState} o.
Arguments store {RandomState} l o.
Arguments load_array {RandomState} l.
Arguments load_columns {RandomState} l.
Arguments df_read {RandomState} df.
Arguments copy_columns {RandomState} cols.
Arguments df_copy_deep {RandomState} df.
Arguments df_getitem_values {RandomState} df name.
Arguments df_setitem {RandomState} df name vals.
Arguments np_random_shuffle {RandomState} shuffle a.
Arguments view_of {RandomState Model} e.
Arguments alloc_columns {RandomState} t.
Arguments df_new {RandomState} t.
Arguments df_sort_values {RandomState} tie df name.
Arguments ale_eval_times {Model} explainer.
Arguments permutation_feature_importance {RandomState} shuffle {Model SurvLabels}
  evaluate parse_float explainer feats surv_labels eval_times n_perm loss type.
Arguments partial_dependence_plots {RandomState Model}
  individual_conditional_expectation explainer selected_features
  n_sel_samples n_grid_points type.
Arguments accumulated_local_effects_plots {RandomState Model}
  predict tie explainer selected_features type.
Arguments feature_interaction {RandomState Model A} explainer.
Arguments functional_decomposition {RandomState Model A} explainer.

(** ** A concrete setting

    Collaborators and inputs on which the engines can be run: a generator
    whose shuffle rotates the array, a loss and a prediction that are simple
    functions of the rows, a dataset of eleven observations of two features
    and 111 distinct event times. *)

Module Example.

Definition fz (z : Z) : float := Float.of_Z z.

Definition shuffle (g : nat) (l : list float) : list float * nat :=
  (drop (S g mod length l) l ++ take (S g mod length l) l, S g).

(** The sum of the cells of row [i]. *)
Definition row_sum (t : table) (i : nat) : float :=
  Float.sum (omap (fun c => snd c !! i) t).

(** The loss at time [t]: [t] plus the sum over the rows of the row number
    times the cell, over all columns, so that it depends on the row order of
    every column. *)
Definition evaluate (ev : explainer_view unit) (X : table) (y : unit)
  (ts : option (list float)) (metric : string) : list float :=
  map (fun t =>
         Float.add t
           (Float.sum (flat_map (fun c => zip_with Float.mul
                                             (map Float.of_nat (seq 1 (length (snd c))))
                                             (snd c)) X)))
      (default [] ts).

Definition parse_float (s : string) : option float := None.

(** One row per observation and time, observation by observation. *)
Definition predict (ev : explainer_view unit) (d : table) (ts : list float)
  (ty : string) : table :=
  [("times", flat_map (fun _ => ts) (seq 0 (nrows d)));
   ("pred", flat_map (fun i => map (fun t => Float.mul (row_sum d i)
                                       (if String.eqb ty "chf" then t
                                        else Float.add t Float.one)) ts)
                     (seq 0 (nrows d)))].

(** Two sampled observations on a grid of two values at two times. *)
Definition ice_X : list float := map fz [0; 0; 0; 0; 5; 5; 5; 5]%Z.
Definition ice_times : list float := map fz [1; 2; 1; 2; 1; 2; 1; 2]%Z.
Definition ice_pred : list float := map fz [8; 6; 4; 2; 7; 5; 3; 3]%Z.

Definition ice_frame : table :=
  [("X", ice_X); ("times", ice_times);
   ("id", map fz [0; 0; 1; 1; 0; 0; 1; 1]%Z); ("pred", ice_pred)].

Definition individual_conditional_expectation (ev : explainer_view unit)
  (feature : string) (n_sel_samples n_grid_points : Z) (ty : string) : result table :=
  match assoc_get (view_data ev) feature with
  | None => Raise (KeyError feature)
  | Some _ => Ok ice_frame
  end.

Definition h0 : gmap loc obj :=
  list_to_map
    [(1%positive, Ndarray (map fz [3; 0; 10; 7; 1; 9; 2; 8; 4; 6; 5]%Z));
     (2%positive, Ndarray (map fz [1; 1; 2; 2; 3; 3; 4; 4; 5; 5; 6]%Z));
     (3%positive, DataFrame [("x0", 1%positive); ("x1", 2%positive)]);
     (4%positive, Ndarray (map fz [1; 2; 3]%Z));
     (5%positive, Ndarray (map fz [5; 4; 7]%Z));
     (6%positive, DataFrame [("a", 4%positive); ("b", 5%positive)])].

(** The frame of features handed to the importance engine. *)
Definition feats : loc := 6%positive.

Definition feats_content : table :=
  [("a", map fz [1; 2; 3]%Z); ("b", map fz [5; 4; 7]%Z)].

Definition data_content : table :=
  [("x0", map fz [3; 0; 10; 7; 1; 9; 2; 8; 4; 6; 5]%Z);
   ("x1", map fz [1; 1; 2; 2; 3; 3; 4; 4; 5; 5; 6]%Z)].

Definition explainer0 : explainer unit :=
  Explainer tt 3%positive (map (fun i => (Float.of_nat i, Float.one)) (seq 0 111)).

Definition s0 : @state nat := State h0 0.

(** The values of the feature [x0] and their breakpoints. *)
Definition var_values : list float := map fz [0; 1; 2; 3; 4; 5; 6; 7; 8; 9; 10]%Z.

Definition grid : list float :=
  match np_quantile var_values qt_list with
  | Ok g => g
  | Raise _ => []
  end.

End Example.

(** * Properties *)

(** ** Running computations *)

Section Running.

Context {RandomState : Type}.

Local Abbreviation M := (@M RandomState) (only parsing).

Lemma run_bind {A B} (m : M A) (k : A -> M B) s a s' :
  m s = (Ok a, s') -> bind m k s = k a s'.
Proof. intros H. unfold bind. rewrite H. reflexivity. Qed.

Lemma run_bind_raise {A B} (m : M A) (k : A -> M B) s e s' :
  m s = (Raise e, s') -> bind m k s = (Raise e, s').
Proof. intros H. unfold bind. rewrite H. reflexivity. Qed.

Lemma run_lift_result_inv {A} (r : result A) (s s' : @state RandomState) a :
  lift_result r s = (Ok a, s') -> r = Ok a /\ s' = s.
Proof. destruct r; simpl; unfold ret, raise; intros H; inversion H; auto. Qed.

Lemma run_lift_result_state {A} (r : result A) (s : @state RandomState) :
  (lift_result r s).2 = s.
Proof. destruct r; reflexivity. Qed.

Lemma run_lift_option_state {A} e (o : option A) (s : @state RandomState) :
  (lift_option e o s).2 = s.
Proof. destruct o; reflexivity. Qed.

(** Inversion of a bind that returns. *)
(** Two computations that start alike and continue alike are the same. *)
Lemma bind_ext {A B} (m : M A) (k k' : A -> M B) s :
  (forall a s1, k a s1 = k' a s1) -> bind m k s = bind m k' s.
Proof.
  intros H. unfold bind. destruct (m s) as [[a|e] s1]; [apply H|reflexivity].
Qed.

Lemma bind_ext_first {A B} (m m' : M A) (k : A -> M B) s :
  m s = m' s -> bind m k s = bind m' k s.
Proof. intros H. unfold bind. rewrite H. reflexivity. Qed.

Lemma run_bind_inv {A B} (m : M A) (k : A -> M B) s b s' :
  bind m k s = (Ok b, s') ->
  exists a s1, m s = (Ok a, s1) /\ k a s1 = (Ok b, s').
Proof.
  unfold bind. destruct (m s) as [[a|e] s1]; intros H.
  - eauto.
  - inversion H.
Qed.

End Running.

(** ** The frame condition: objects that exist before a call are not touched *)

Section FrameCondition.

Context {RandomState : Type}.
Variable shuffle : RandomState -> list float -> list float * RandomState.

Local Abbreviation M := (@M RandomState) (only parsing).

(** The heap [h0] at the start of the call. *)
Variable h0 : gmap loc obj.

(** A location is new when it holds no object in [h0]. *)
Definition is_new (l : loc) : Prop := h0 !! l = None.

(** The objects of [h0] are in place, and a new frame only refers to new
    buffers. *)
Definition frame_inv (h : gmap loc obj) : Prop :=
  h0 ⊆ h /\
  forall l cols, is_new l -> h !! l = Some (DataFrame cols) ->
                 Forall (fun c => is_new (snd c)) cols.

(** [m] keeps the invariant and its result satisfies [Q]. *)
Definition keeps {A} (m : M A) (Q : A -> Prop) : Prop :=
  forall s, frame_inv (heap s) ->
            frame_inv (heap (m s).2) /\ forall a, (m s).1 = Ok a -> Q a.

Lemma frame_inv_init : frame_inv h0.
Proof.
  split; [reflexivity|]. intros l cols Hn Hl. unfold is_new in Hn. congruence.
Qed.

Lemma keeps_ret {A} (a : A) (Q : A -> Prop) : Q a -> keeps (ret a) Q.
Proof. intros HQ s Hs. simpl. split; [assumption|]. intros a' H. inversion H. subst. assumption. Qed.

Lemma keeps_raise {A} e (Q : A -> Prop) : keeps (raise e) Q.
Proof. intros s Hs. simpl. split; [assumption|]. intros a' H. inversion H. Qed.

Lemma keeps_bind {A B} (m : M A) (k : A -> M B) (P : A -> Prop) (Q : B -> Prop) :
  keeps m P -> (forall a, P a -> keeps (k a) Q) -> keeps (bind m k) Q.
Proof.
  intros Hm Hk s Hs. destruct (Hm s Hs) as [Hinv Hres].
  unfold bind. destruct (m s) as [[a|e] s1]; simpl in *.
  - apply Hk; auto.
  - split; [assumption|]. intros b H. inversion H.
Qed.

Lemma keeps_weaken {A} (m : M A) (P Q : A -> Prop) :
  keeps m P -> (forall a, P a -> Q a) -> keeps m Q.
Proof.
  intros Hm HPQ s Hs. destruct (Hm s Hs) as [Hinv Hres]. split; auto.
Qed.

Lemma keeps_lift_result {A} (r : result A) : keeps (lift_result r) (fun a => r = Ok a).
Proof.
  intros s Hs. destruct r; simpl; (split; [assumption|]); intros a' H; inversion H; reflexivity.
Qed.

Lemma keeps_lift_option {A} e (o : option A) : keeps (lift_option e o) (fun a => o = Some a).
Proof.
  intros s Hs. destruct o; simpl; (split; [assumption|]); intros a' H; inversion H; reflexivity.
Qed.

Lemma keeps_for_each {A B} (l : list A) (body : B -> A -> M B) (P : B -> Prop) acc :
  (forall acc x, P acc -> keeps (body acc x) P) ->
  P acc -> keeps (for_each l body acc) P.
Proof.
  intros Hbody. revert acc. induction l as [|x l IH]; intros acc Hacc; simpl.
  - apply keeps_ret. assumption.
  - eapply keeps_bind; [apply Hbody; assumption|]. intros a Ha. apply IH. assumption.
Qed.

(** A computation that only reads the state. *)
Lemma keeps_reader {A} (m : M A) :
  (forall s, (m s).2 = s) -> keeps m (fun _ => True).
Proof. intros H s Hs. rewrite H. auto. Qed.

Lemma frame_inv_insert_array h l a :
  frame_inv h -> is_new l -> frame_inv (<[l := Ndarray a]> h).
Proof.
  intros [Hsub Hfr] Hl. split.
  - apply insert_subseteq_r; assumption.
  - intros l' cols Hn Hl'. destruct (decide (l = l')) as [->|Hne].
    + rewrite lookup_insert_eq in Hl'. inversion Hl'.
    + rewrite lookup_insert_ne in Hl' by assumption. eauto.
Qed.

Lemma frame_inv_insert_frame h l cols :
  frame_inv h -> is_new l -> Forall (fun c => is_new (snd c)) cols ->
  frame_inv (<[l := DataFrame cols]> h).
Proof.
  intros [Hsub Hfr] Hl Hcols. split.
  - apply insert_subseteq_r; assumption.
  - intros l' cols' Hn Hl'. destruct (decide (l = l')) as [->|Hne].
    + rewrite lookup_insert_eq in Hl'. inversion Hl'. subst. assumption.
    + rewrite lookup_insert_ne in Hl' by assumption. eauto.
Qed.

Lemma fresh_is_new h : h0 ⊆ h -> is_new (fresh (dom h)).
Proof.
  intros Hsub. unfold is_new.
  destruct (h0 !! fresh (dom h)) as [o|] eqn:E; [|reflexivity].
  exfalso. apply (is_fresh (dom h)). apply elem_of_dom.
  exists o. eapply lookup_weaken; eassumption.
Qed.

Lemma keeps_alloc_array a : keeps (alloc (Ndarray a)) is_new.
Proof.
  intros s Hs. simpl. pose proof (fresh_is_new _ (proj1 Hs)) as Hn. split.
  - apply frame_inv_insert_array; assumption.
  - intros l H. inversion H. subst. assumption.
Qed.

Lemma keeps_alloc_frame cols :
  Forall (fun c => is_new (snd c)) cols -> keeps (alloc (DataFrame cols)) is_new.
Proof.
  intros Hcols s Hs. simpl. pose proof (fresh_is_new _ (proj1 Hs)) as Hn. split.
  - apply frame_inv_insert_frame; assumption.
  - intros l H. inversion H. subst. assumption.
Qed.

Lemma keeps_load_array l : keeps (load_array l) (fun _ => True).
Proof. apply keeps_reader. intros s. apply run_lift_option_state. Qed.

Lemma keeps_df_read l : keeps (df_read l) (fun _ => True).
Proof. apply keeps_reader. intros s. apply run_lift_option_state. Qed.

Lemma keeps_load_columns l :
  keeps (load_columns l)
        (fun cols => is_new l -> Forall (fun c => is_new (snd c)) cols).
Proof.
  intros s Hs. unfold load_columns.
  destruct (heap s !! l) as [[a|cols]|] eqn:E; simpl; (split; [assumption|]);
    intros a' H; inversion H; subst.
  intros Hn. eapply (proj2 Hs); eassumption.
Qed.

Lemma keeps_view_of {Model} (e : explainer Model) : keeps (view_of e) (fun _ => True).
Proof.
  unfold view_of. eapply keeps_bind; [apply keeps_df_read|].
  intros d _. apply keeps_ret. exact I.
Qed.

Lemma keeps_copy_columns cols :
  keeps (copy_columns cols) (Forall (fun c => is_new (snd c))).
Proof.
  induction cols as [|c cs IH]; simpl.
  - apply keeps_ret. constructor.
  - eapply keeps_bind; [apply keeps_load_array|]. intros a _.
    eapply keeps_bind; [apply keeps_alloc_array|]. intros l Hl.
    eapply keeps_bind; [apply IH|]. intros cs' Hcs'.
    apply keeps_ret. constructor; assumption.
Qed.

Lemma keeps_df_copy_deep df : keeps (df_copy_deep df) is_new.
Proof.
  unfold df_copy_deep.
  eapply keeps_bind; [apply keeps_load_columns|]. intros cols _.
  eapply keeps_bind; [apply keeps_copy_columns|]. intros cols' Hcols'.
  apply keeps_alloc_frame. assumption.
Qed.

Lemma assoc_get_In {V} (t : list (string * V)) name v :
  assoc_get t name = Some v -> In (name, v) t.
Proof.
  unfold assoc_get. destruct (List.find _ t) as [[n w]|] eqn:E; simpl; intros H; inversion H.
  subst. apply find_some in E. destruct E as [Hin Heq]. simpl in Heq.
  apply String.eqb_eq in Heq. subst. assumption.
Qed.

Lemma Forall_assoc_set {V} (P : string * V -> Prop) (t : list (string * V)) name v :
  Forall P t -> (forall n, P (n, v)) -> Forall P (assoc_set t name v).
Proof.
  intros Ht Hv. unfold assoc_set. destruct (assoc_has t name).
  - induction Ht as [|c t' Hc Ht' IH]; simpl; constructor; auto.
    destruct (String.eqb (fst c) name); auto.
  - apply Forall_app. split; [assumption|]. constructor; [apply Hv|constructor].
Qed.

Lemma keeps_df_getitem_values df name :
  is_new df -> keeps (df_getitem_values df name) is_new.
Proof.
  intros Hdf. unfold df_getitem_values.
  eapply keeps_bind; [apply keeps_load_columns|]. intros cols Hcols.
  eapply keeps_weaken; [apply keeps_lift_option|]. intros v Hv. simpl in Hv.
  apply assoc_get_In in Hv. specialize (Hcols Hdf).
  rewrite List.Forall_forall in Hcols. apply (Hcols _ Hv).
Qed.

Lemma keeps_store_frame l cols :
  is_new l -> Forall (fun c => is_new (snd c)) cols ->
  keeps (store l (DataFrame cols)) (fun _ => True).
Proof.
  intros Hl Hcols s Hs. simpl. split; [|auto].
  apply frame_inv_insert_frame; assumption.
Qed.

Lemma keeps_df_setitem df name vals :
  is_new df -> keeps (df_setitem df name vals) (fun _ => True).
Proof.
  intros Hdf. unfold df_setitem.
  eapply keeps_bind; [apply keeps_load_columns|]. intros cols Hcols.
  eapply keeps_bind; [apply keeps_df_read|]. intros t _.
  eapply keeps_bind; [apply keeps_lift_result|]. intros t' _.
  eapply keeps_bind; [apply keeps_alloc_array|]. intros b Hb.
  apply keeps_store_frame; [assumption|].
  apply Forall_assoc_set; auto.
Qed.

Lemma keeps_np_random_shuffle a :
  is_new a -> keeps (np_random_shuffle shuffle a) (fun _ => True).
Proof.
  intros Ha. unfold np_random_shuffle.
  eapply keeps_bind; [apply keeps_load_array|]. intros v _.
  intros s Hs. simpl. split; [|auto].
  apply frame_inv_insert_array; assumption.
Qed.

Lemma keeps_alloc_columns (t : table) :
  keeps (alloc_columns t) (Forall (fun c => is_new (snd c))).
Proof.
  induction t as [|c cs IH]; simpl.
  - apply keeps_ret. constructor.
  - eapply keeps_bind; [apply keeps_alloc_array|]. intros l Hl.
    eapply keeps_bind; [apply IH|]. intros cs' Hcs'.
    apply keeps_ret. constructor; assumption.
Qed.

Lemma keeps_df_new t : keeps (df_new t) is_new.
Proof.
  unfold df_new. eapply keeps_bind; [apply keeps_alloc_columns|].
  intros cols Hcols. apply keeps_alloc_frame. assumption.
Qed.

Lemma keeps_df_sort_values tie df name : keeps (df_sort_values tie df name) is_new.
Proof.
  unfold df_sort_values.
  eapply keeps_bind; [apply keeps_df_read|]. intros t _.
  eapply keeps_bind; [apply keeps_lift_result|]. intros t' _.
  apply keeps_df_new.
Qed.

Context {Model SurvLabels : Type}.
Variable evaluate :
  explainer_view Model -> table -> SurvLabels -> option (list float) -> string -> list float.
Variable parse_float : string -> option float.
Variable predict : explainer_view Model -> table -> list float -> string -> table.
Variable tie : list float -> nat -> nat -> bool.

Ltac keeps_primitive m :=
  lazymatch m with
  | df_copy_deep _ => apply keeps_df_copy_deep
  | df_getitem_values _ _ => apply keeps_df_getitem_values; assumption
  | np_random_shuffle _ _ => apply keeps_np_random_shuffle; assumption
  | df_setitem _ _ _ => apply keeps_df_setitem; assumption
  | df_sort_values _ _ _ => apply keeps_df_sort_values
  | load_array _ => apply keeps_load_array
  | df_read _ => apply keeps_df_read
  | view_of _ => apply keeps_view_of
  | lift_result _ => apply keeps_lift_result
  | lift_option _ _ => apply keeps_lift_option
  end.

Ltac keeps_next :=
  lazymatch goal with
  | |- keeps (ret _) _ => apply keeps_ret; try exact I
  | |- keeps (raise _) _ => apply keeps_raise
  | |- keeps (bind ?m _) _ => eapply keeps_bind; [keeps_primitive m | intros ? ?]
  | |- keeps (lift_result _) _ =>
      eapply keeps_weaken; [apply keeps_lift_result | intros; exact I]
  | |- keeps (lift_option _ _) _ =>
      eapply keeps_weaken; [apply keeps_lift_option | intros; exact I]
  end.

Lemma keeps_permutation_feature_importance
  (e : explainer Model) feats (y : SurvLabels) eval_times n_perm loss type :
  keeps (permutation_feature_importance shuffle evaluate parse_float
           e feats y eval_times n_perm loss type)
        (fun _ => True).
Proof.
  unfold permutation_feature_importance.
  eapply keeps_bind with (P := fun _ => True).
  - destruct (String.eqb loss "brier_score"); [|keeps_next].
    do 3 keeps_next.
    eapply keeps_bind with (P := fun _ => True); [|intros; keeps_next].
    apply keeps_for_each; [|exact I]. intros df feat_name _.
    eapply keeps_bind with (P := fun _ => True).
    + apply keeps_for_each; [|exact I]. intros acc k _.
      repeat keeps_next.
    + intros acc _. destruct (String.eqb type "ratio"); repeat keeps_next.
  - intros [df|] _; keeps_next.
Qed.

Lemma keeps_accumulated_local_effects_plots
  (e : explainer Model) selected_features type :
  keeps (accumulated_local_effects_plots predict tie e selected_features type)
        (fun _ => True).
Proof.
  unfold accumulated_local_effects_plots.
  do 12 keeps_next.
  eapply keeps_bind with (P := fun _ => True).
  - destruct (String.eqb type "survival"); [repeat keeps_next|].
    destruct (String.eqb type "chf"); repeat keeps_next.
  - intros preds _. repeat keeps_next.
Qed.

End FrameCondition.

(** ** Reading frames from a heap *)

Lemma read_array_mono (h h' : gmap loc obj) l a :
  h ⊆ h' -> read_array h l = Some a -> read_array h' l = Some a.
Proof.
  intros Hsub. unfold read_array.
  destruct (h !! l) as [[b|cols]|] eqn:E; intros H; inversion H; subst.
  rewrite (lookup_weaken _ _ _ _ E Hsub). reflexivity.
Qed.

Lemma read_cols_mono (h h' : gmap loc obj) cols t :
  h ⊆ h' -> read_cols h cols = Some t -> read_cols h' cols = Some t.
Proof.
  intros Hsub. revert t. induction cols as [|c cs IH]; intros t; simpl; [auto|].
  destruct (read_array h (snd c)) as [a|] eqn:E; [|discriminate].
  destruct (read_cols h cs) as [t'|] eqn:E'; [|discriminate].
  intros H. rewrite (read_array_mono _ _ _ _ Hsub E), (IH _ eq_refl). assumption.
Qed.

Lemma read_frame_mono (h h' : gmap loc obj) l t :
  h ⊆ h' -> read_frame h l = Some t -> read_frame h' l = Some t.
Proof.
  intros Hsub. unfold read_frame.
  destruct (h !! l) as [[b|cols]|] eqn:E; intros H; inversion H; subst.
  rewrite (lookup_weaken _ _ _ _ E Hsub). rewrite H.
  eapply read_cols_mono; eassumption.
Qed.

(** ** What the heap primitives compute *)

Section HeapRuns.

Context {RandomState : Type}.

Local Abbreviation M := (@M RandomState) (only parsing).

Lemma fresh_lookup_None (h : gmap loc obj) : h !! fresh (dom h) = None.
Proof. apply not_elem_of_dom. apply is_fresh. Qed.

Lemma lookup_None_weaken (h h' : gmap loc obj) l :
  h ⊆ h' -> h' !! l = None -> h !! l = None.
Proof.
  intros Hsub Hl. destruct (h !! l) as [o|] eqn:E; [|reflexivity].
  rewrite (lookup_weaken _ _ _ _ E Hsub) in Hl. discriminate.
Qed.

Lemma copy_columns_run cols : forall (s : @state RandomState) t,
  read_cols (heap s) cols = Some t ->
  exists cols' h',
    copy_columns cols s = (Ok cols', State h' (rng s)) /\
    heap s ⊆ h' /\
    read_cols h' cols' = Some t /\
    Forall (fun c => heap s !! snd c = None) cols'.
Proof.
  induction cols as [|c cs IH]; intros s t Ht; simpl in Ht.
  - inversion Ht. subst. exists [], (heap s). destruct s. simpl. repeat split; auto.
  - destruct (read_array (heap s) (snd c)) as [a|] eqn:Ea; [|discriminate].
    destruct (read_cols (heap s) cs) as [t'|] eqn:Et; [|discriminate].
    inversion Ht. subst. clear Ht.
    set (l := fresh (dom (heap s))).
    set (s1 := State (<[l := Ndarray a]> (heap s)) (rng s)).
    assert (Hl : heap s !! l = None) by apply fresh_lookup_None.
    assert (Hsub1 : heap s ⊆ heap s1) by (apply insert_subseteq; assumption).
    destruct (IH s1 t' (read_cols_mono _ _ _ _ Hsub1 Et)) as (cols' & h' & Hrun & Hsub & Hread & Hnew).
    exists ((fst c, l) :: cols'), h'. repeat split.
    + simpl. unfold bind at 1. unfold load_array. rewrite Ea. simpl.
      unfold bind at 1. simpl. fold l. fold s1.
      unfold bind at 1. rewrite Hrun. reflexivity.
    + etrans; eassumption.
    + simpl. rewrite Hread.
      assert (Hrl : read_array h' l = Some a).
      { eapply read_array_mono; [exact Hsub|]. unfold read_array. simpl.
        rewrite lookup_insert_eq. reflexivity. }
      rewrite Hrl. reflexivity.
    + constructor; [assumption|].
      eapply Forall_impl; [exact Hnew|]. intros x Hx. simpl in Hx.
      eapply lookup_None_weaken; eassumption.
Qed.

Lemma df_copy_deep_run (s : @state RandomState) df t :
  read_frame (heap s) df = Some t ->
  exists l cols' h',
    df_copy_deep df s = (Ok l, State h' (rng s)) /\
    heap s ⊆ h' /\
    heap s !! l = None /\
    h' !! l = Some (DataFrame cols') /\
    read_cols h' cols' = Some t /\
    Forall (fun c => heap s !! snd c = None) cols'.
Proof.
  intros Ht. unfold read_frame in Ht.
  destruct (heap s !! df) as [[a|cols]|] eqn:E; try discriminate.
  destruct (copy_columns_run cols s t Ht) as (cols' & h1 & Hrun & Hsub & Hread & Hnew).
  set (l := fresh (dom h1)).
  assert (Hl : h1 !! l = None) by apply fresh_lookup_None.
  exists l, cols', (<[l := DataFrame cols']> h1). repeat split.
  - unfold df_copy_deep. unfold bind at 1. unfold load_columns. rewrite E.
    unfold bind at 1. rewrite Hrun. reflexivity.
  - etrans; [exact Hsub|]. apply insert_subseteq. assumption.
  - eapply lookup_None_weaken; eassumption.
  - apply lookup_insert_eq.
  - eapply read_cols_mono; [|exact Hread]. apply insert_subseteq. assumption.
  - assumption.
Qed.

Lemma read_cols_get (h : gmap loc obj) cols t name c :
  read_cols h cols = Some t -> assoc_get t name = Some c ->
  exists v, assoc_get cols name = Some v /\ read_array h v = Some c.
Proof.
  revert t. induction cols as [|x cs IH]; intros t Ht Hget; simpl in Ht.
  - inversion Ht. subst. discriminate.
  - destruct (read_array h (snd x)) as [a|] eqn:Ea; [|discriminate].
    destruct (read_cols h cs) as [t'|] eqn:Et; [|discriminate].
    inversion Ht. subst. clear Ht.
    unfold assoc_get in *. simpl in *.
    destruct (String.eqb (fst x) name).
    + simpl in Hget. inversion Hget. subst. exists (snd x). auto.
    + apply (IH t' eq_refl Hget).
Qed.

Lemma read_cols_labels (h : gmap loc obj) cols t :
  read_cols h cols = Some t -> map fst cols = map fst t.
Proof.
  revert t. induction cols as [|x cs IH]; intros t Ht; simpl in Ht.
  - inversion Ht. reflexivity.
  - destruct (read_array h (snd x)) as [a|]; [|discriminate].
    destruct (read_cols h cs) as [t'|]; [|discriminate].
    inversion Ht. subst. simpl. f_equal. apply IH. reflexivity.
Qed.

Lemma assoc_has_labels {V W} (t : list (string * V)) (u : list (string * W)) name :
  map fst t = map fst u -> assoc_has t name = assoc_has u name.
Proof.
  revert u. induction t as [|x t IH]; intros [|y u] H; simpl in *; try discriminate; auto.
  inversion H. unfold assoc_has in *. simpl. rewrite H1. f_equal. apply IH. assumption.
Qed.

(** Reading the columns of a frame after one of them got a new buffer. *)
Lemma read_cols_set (h h' : gmap loc obj) cols t name b vals :
  read_cols h cols = Some t ->
  (forall c a, In c cols -> read_array h (snd c) = Some a ->
               read_array h' (snd c) = Some a) ->
  read_array h' b = Some vals ->
  read_cols h' (assoc_set cols name b) = Some (assoc_set t name vals).
Proof.
  intros Ht Hkeep Hb. unfold assoc_set.
  rewrite (assoc_has_labels cols t name (read_cols_labels _ _ _ Ht)).
  destruct (assoc_has t name).
  - revert t Ht Hkeep. induction cols as [|x cs IH]; intros t Ht Hkeep; simpl in Ht.
    + inversion Ht. reflexivity.
    + destruct (read_array h (snd x)) as [a|] eqn:Ea; [|discriminate].
      destruct (read_cols h cs) as [t'|] eqn:Et; [|discriminate].
      inversion Ht. subst. clear Ht. simpl.
      rewrite (IH t' eq_refl) by (intros; apply Hkeep; [right|]; assumption).
      destruct (String.eqb (fst x) name); simpl.
      * rewrite Hb. reflexivity.
      * rewrite (Hkeep x a (or_introl eq_refl) Ea). reflexivity.
  - revert t Ht Hkeep. induction cols as [|x cs IH]; intros t Ht Hkeep; simpl in Ht.
    + inversion Ht. simpl. rewrite Hb. reflexivity.
    + destruct (read_array h (snd x)) as [a|] eqn:Ea; [|discriminate].
      destruct (read_cols h cs) as [t'|] eqn:Et; [|discriminate].
      inversion Ht. subst. clear Ht. simpl.
      rewrite (IH t' eq_refl) by (intros; apply Hkeep; [right|]; assumption).
      rewrite (Hkeep x a (or_introl eq_refl) Ea). reflexivity.
Qed.

Lemma df_assign_ok {C} (t : frame C) name (vals : list C) :
  t = [] \/ length vals = nrows t ->
  df_assign t name vals = Ok (assoc_set t name vals).
Proof.
  intros H. unfold df_assign. destruct t as [|c t']; [reflexivity|].
  destruct H as [H|H]; [discriminate|].
  rewrite (proj2 (Nat.eqb_eq _ _) H). reflexivity.
Qed.

Lemma df_setitem_run (s : @state RandomState) df cols t name vals :
  heap s !! df = Some (DataFrame cols) ->
  read_cols (heap s) cols = Some t ->
  t = [] \/ length vals = nrows t ->
  exists h',
    df_setitem df name vals s = (Ok tt, State h' (rng s)) /\
    read_frame h' df = Some (assoc_set t name vals) /\
    (forall h0 : gmap loc obj, h0 ⊆ heap s -> h0 !! df = None -> h0 ⊆ h').
Proof.
  intros Hdf Ht Hlen.
  set (b := fresh (dom (heap s))).
  assert (Hb : heap s !! b = None) by apply fresh_lookup_None.
  exists (<[df := DataFrame (assoc_set cols name b)]> (<[b := Ndarray vals]> (heap s))).
  repeat split.
  - unfold df_setitem. unfold bind at 1. unfold load_columns. rewrite Hdf.
    unfold bind at 1. unfold df_read, read_frame. rewrite Hdf, Ht. simpl.
    unfold bind at 1. rewrite (df_assign_ok t name vals Hlen). simpl.
    unfold bind at 1. simpl. reflexivity.
  - unfold read_frame. rewrite lookup_insert_eq.
    eapply read_cols_set; [exact Ht| |].
    + intros c a Hin Ha. unfold read_array in *.
      destruct (heap s !! snd c) as [[a'|cols']|] eqn:E; try discriminate.
      assert (snd c <> df) by (intros Heq; rewrite Heq in E; congruence).
      assert (snd c <> b) by (intros Heq; rewrite Heq in E; congruence).
      rewrite lookup_insert_ne by auto. rewrite lookup_insert_ne by auto.
      rewrite E. assumption.
    + unfold read_array. assert (b <> df) by (intros Heq; rewrite Heq in Hb; congruence).
      rewrite lookup_insert_ne by auto. rewrite lookup_insert_eq. reflexivity.
  - intros h0 Hsub Hnew. apply insert_subseteq_r; [assumption|].
    apply insert_subseteq_r; [|assumption].
    eapply lookup_None_weaken; eassumption.
Qed.

End HeapRuns.

(** ** Caller-owned inputs *)

(** C8. No call mutates the objects of its caller: after a call to
    [permutation_feature_importance] and after a call to
    [accumulated_local_effects_plots], whatever the arguments and whether the
    call returns or raises, every object that was in the heap before the call
    is still there, unchanged; in particular the frame of features and the
    dataset of the explainer have the content they had.  The shuffles and the
    substitutions of bin edges only write to objects allocated by the call. *)
Theorem inputs_not_mutated
  {RandomState Model SurvLabels : Type}
  (shuffle : RandomState -> list float -> list float * RandomState)
  (evaluate : explainer_view Model -> table -> SurvLabels ->
              option (list float) -> string -> list float)
  (parse_float : string -> option float)
  (predict : explainer_view Model -> table -> list float -> string -> table)
  (tie : list float -> nat -> nat -> bool)
  (e : explainer Model) (feats : loc) (y : SurvLabels)
  (eval_times : option (list float)) (n_perm : Z) (loss type : string)
  (selected_features ale_type : string)
  (s : @state RandomState) (F D : table) :
  read_frame (heap s) feats = Some F ->
  read_frame (heap s) (data e) = Some D ->
  let s_pfi := (permutation_feature_importance shuffle evaluate parse_float
                  e feats y eval_times n_perm loss type s).2 in
  let s_ale := (accumulated_local_effects_plots predict tie
                  e selected_features ale_type s).2 in
  (heap s ⊆ heap s_pfi /\
   read_frame (heap s_pfi) feats = Some F /\
   read_frame (heap s_pfi) (data e) = Some D) /\
  (heap s ⊆ heap s_ale /\
   read_frame (heap s_ale) feats = Some F /\
   read_frame (heap s_ale) (data e) = Some D).
Proof.
  intros HF HD s_pfi s_ale.
  assert (Hpfi : heap s ⊆ heap s_pfi).
  { apply (keeps_permutation_feature_importance shuffle (heap s) evaluate parse_float
             e feats y eval_times n_perm loss type s (frame_inv_init _)). }
  assert (Hale : heap s ⊆ heap s_ale).
  { apply (keeps_accumulated_local_effects_plots (heap s) predict tie
             e selected_features ale_type s (frame_inv_init _)). }
  repeat split; try assumption; eapply read_frame_mono; eassumption.
Qed.

Lemma inputs_not_mutated_witness :
  let s_pfi := (permutation_feature_importance Example.shuffle Example.evaluate
                  Example.parse_float Example.explainer0 Example.feats tt
                  (Some [Example.fz 1; Example.fz 2]) 2 "brier_score" "ratio"
                  Example.s0).2 in
  let s_ale := (accumulated_local_effects_plots Example.predict stable
                  Example.explainer0 "x0" "survival" Example.s0).2 in
  (heap Example.s0 ⊆ heap s_pfi /\
   read_frame (heap s_pfi) Example.feats = Some Example.feats_content /\
   read_frame (heap s_pfi) (data Example.explainer0) = Some Example.data_content) /\
  (heap Example.s0 ⊆ heap s_ale /\
   read_frame (heap s_ale) Example.feats = Some Example.feats_content /\
   read_frame (heap s_ale) (data Example.explainer0) = Some Example.data_content).
Proof.
  apply (inputs_not_mutated Example.shuffle Example.evaluate Example.parse_float
           Example.predict stable Example.explainer0 Example.feats tt
           (Some [Example.fz 1; Example.fz 2]) 2 "brier_score" "ratio"
           "x0" "survival" Example.s0 Example.feats_content Example.data_content).
  - vm_compute. reflexivity.
  - vm_compute. reflexivity.
Defined.

(** ** Arithmetic on floats *)

Section FloatArithmetic.

Lemma Qc_compare_refl (q : Qc) : (q ?= q)%Qc = Eq.
Proof. unfold Qccompare. apply Qeq_alt. reflexivity. Qed.

Lemma Qc_eqb_eq (a b : Qc) : Float.Qc_eqb a b = true <-> a = b.
Proof.
  unfold Float.Qc_eqb. split.
  - destruct (a ?= b)%Qc eqn:E; try discriminate. intros _.
    apply Qc_is_canon. apply Qeq_alt. exact E.
  - intros ->. rewrite Qc_compare_refl. reflexivity.
Qed.

Lemma Qc_eqb_neq (a b : Qc) : Float.Qc_eqb a b = false <-> a <> b.
Proof.
  split.
  - intros H Heq. apply Qc_eqb_eq in Heq. congruence.
  - intros H. destruct (Float.Qc_eqb a b) eqn:E; [|reflexivity].
    apply Qc_eqb_eq in E. contradiction.
Qed.

Lemma Qc_ltb_lt (a b : Qc) : Float.Qc_ltb a b = true <-> (a < b)%Qc.
Proof.
  unfold Float.Qc_ltb, Qclt. rewrite Qlt_alt. unfold Qccompare.
  destruct (a ?= b)%Q; split; intros H; congruence.
Qed.

Lemma Qc_sign_pos (q : Qc) : (q ?= 0)%Qc = Gt <-> (0 < q)%Qc.
Proof. unfold Qclt, Qccompare. rewrite Qgt_alt. reflexivity. Qed.

(** Dividing by zero never gives a finite value: an infinity with the sign
    of the dividend, and NaN when the dividend is zero or NaN. *)
Lemma div_zero_not_finite (x : float) :
  Float.is_finite (Float.div x Float.zero) = false.
Proof.
  destruct x as [a| | |]; try reflexivity.
  unfold Float.div, Float.zero. rewrite (proj2 (Qc_eqb_eq 0 0) eq_refl).
  simpl. destruct (a ?= 0)%Qc; reflexivity.
Qed.

Lemma div_zero_zero : Float.div Float.zero Float.zero = NaN.
Proof. reflexivity. Qed.

Lemma div_zero_cases (x : float) :
  Float.div x Float.zero = PInf \/ Float.div x Float.zero = NInf \/
  Float.div x Float.zero = NaN.
Proof.
  destruct x as [a| | |]; auto.
  unfold Float.div, Float.zero. rewrite (proj2 (Qc_eqb_eq 0 0) eq_refl).
  simpl. destruct (a ?= 0)%Qc; auto.
Qed.

(** Scaling by a positive finite factor distributes over sums. *)
Lemma mul_pos_add (q : Qc) (a b : float) :
  (0 < q)%Qc ->
  Float.add (Float.mul (Finite q) a) (Float.mul (Finite q) b)
  = Float.mul (Finite q) (Float.add a b).
Proof.
  intros Hq. apply Qc_sign_pos in Hq.
  destruct a as [a| | |], b as [b| | |]; simpl; rewrite ?Hq; simpl; try reflexivity.
  f_equal. ring.
Qed.

Lemma mul_finite_zero (q : Qc) : Float.mul (Finite q) Float.zero = Float.zero.
Proof. unfold Float.zero. simpl. f_equal. ring. Qed.

Lemma scaled_sum (q : Qc) (xs : list float) : forall a0,
  (0 < q)%Qc ->
  fold_left (fun a x => Float.add a (Float.mul (Finite q) x)) xs (Float.mul (Finite q) a0)
  = Float.mul (Finite q) (fold_left Float.add xs a0).
Proof.
  induction xs as [|x xs IH]; intros a0 Hq; cbn [fold_left]; [reflexivity|].
  rewrite mul_pos_add by assumption. apply IH. assumption.
Qed.

Lemma of_Z_nonzero (n : Z) : n <> 0%Z -> Q2Qc (inject_Z n) <> 0%Qc.
Proof.
  intros Hn H. change 0%Qc with (Q2Qc 0) in H. apply Q2Qc_eq_iff in H.
  unfold Qeq in H. simpl in H. rewrite Z.mul_1_r in H. contradiction.
Qed.

Lemma of_Z_pos (n : Z) : (0 < n)%Z -> (0 < Q2Qc (inject_Z n))%Qc.
Proof.
  intros Hn. unfold Qclt. change (0 < Qred (inject_Z n))%Q.
  rewrite Qred_correct. unfold Qlt. simpl. lia.
Qed.

Lemma Qc_inv_pos (q : Qc) : (0 < q)%Qc -> (0 < / q)%Qc.
Proof.
  unfold Qclt, Qcinv. intros H. change (0 < Qred (/ q))%Q.
  rewrite Qred_correct. apply Qinv_lt_0_compat. assumption.
Qed.

(** The weight of a repeat and the division by the number of repeats. *)
Lemma weight_finite (n : Z) :
  (0 < n)%Z ->
  Float.div (Float.of_Z 1) (Float.of_Z n)
  = Finite (Q2Qc (inject_Z 1) / Q2Qc (inject_Z n))%Qc.
Proof.
  intros Hn. unfold Float.div, Float.of_Z.
  rewrite (proj2 (Qc_eqb_neq _ _) (of_Z_nonzero n ltac:(lia))). reflexivity.
Qed.

Lemma weight_pos (n : Z) :
  (0 < n)%Z -> (0 < Q2Qc (inject_Z 1) / Q2Qc (inject_Z n))%Qc.
Proof.
  intros Hn. unfold Qcdiv.
  apply Qcmult_pos_pos.
  - apply of_Z_pos. lia.
  - apply Qc_inv_pos. apply of_Z_pos. assumption.
Qed.

Lemma mul_weight_div (n : Z) (x : float) :
  (0 < n)%Z ->
  Float.mul (Float.div (Float.of_Z 1) (Float.of_Z n)) x = Float.div x (Float.of_Z n).
Proof.
  intros Hn. rewrite weight_finite by assumption.
  pose proof (weight_pos n Hn) as Hw. apply Qc_sign_pos in Hw.
  pose proof (of_Z_pos n Hn) as Hp. apply Qc_sign_pos in Hp.
  pose proof (of_Z_nonzero n ltac:(lia)) as Hnz.
  destruct x as [a| | |]; unfold Float.of_Z; simpl; rewrite ?Hw, ?Hp; try reflexivity.
  rewrite (proj2 (Qc_eqb_neq _ _) Hnz). f_equal.
  change (Q2Qc (inject_Z 1)) with 1%Qc. unfold Qcdiv. ring.
Qed.

End FloatArithmetic.

(** ** Permutation feature importance: what a call computes *)

Lemma in_columns_get {C} (t : frame C) (f : string) :
  In f (columns t) -> exists c, assoc_get t f = Some c.
Proof.
  unfold columns, assoc_get. induction t as [|x t IH]; simpl; [tauto|].
  intros [H|H].
  - subst. rewrite String.eqb_refl. simpl. eauto.
  - destruct (String.eqb (fst x) f); simpl; eauto.
Qed.

(** Whether an array holds a NaN. *)
Definition has_nan (l : list float) : bool := existsb Float.is_nan l.

Section ImportanceRun.

Context {RandomState Model SurvLabels : Type}.
Variable shuffle : RandomState -> list float -> list float * RandomState.
Variable evaluate :
  explainer_view Model -> table -> SurvLabels -> option (list float) -> string -> list float.
Variable parse_float : string -> option float.

(** The contracts of the collaborators: a shuffle permutes its argument,
    and the evaluator returns one loss per evaluation time. *)
Hypothesis shuffle_permutes : forall g l, Permutation l (shuffle g l).1.
Hypothesis evaluate_length :
  forall ev X y ts metric, length (evaluate ev X y (Some ts) metric) = length ts.

Variable e : explainer Model.
Variable feats : loc.
Variable y : SurvLabels.
Variable ts : list float.
Variable n_perm : Z.

(** The heap at the start of the call holds the frame of features, with
    content [F], and the dataset of the explainer, with content [D]. *)
Variable h0 : gmap loc obj.
Variables F D : table.
Hypothesis feats_content : read_frame h0 feats = Some F.
Hypothesis data_content : read_frame h0 (data e) = Some D.

(** All the columns of [F] have the same number of rows. *)
Hypothesis feats_rectangular : Forall (fun c => length (snd c) = nrows F) F.

Local Abbreviation M := (@M RandomState) (only parsing).

Definition the_view : explainer_view Model := ExplainerView (model e) D (label e).

(** The per-time loss on a frame of features. *)
Definition loss_on (X : table) : list float :=
  evaluate the_view X y (Some ts) "brier_score".

Definition weight : float := Float.div (Float.of_Z 1) (Float.of_Z n_perm).

(** The accumulated loss after one more repeat, on the copy of [F] whose
    column [f] is [c']. *)
Definition accumulate (f : string) (acc : list float) (c' : list float) : list float :=
  zip_with Float.add acc (np_scale weight (loss_on (assoc_set F f c'))).

(** The body of the inner loop, for the feature [f]. *)
Definition repeat_body (f : string) (bs_perf_perm : list float) (k : Z) : M (list float) :=
  let! feats_copy := df_copy_deep feats in
  let! feat_perm := df_getitem_values feats_copy f in
  do! np_random_shuffle shuffle feat_perm in
  let! feats_perm_df := df_copy_deep feats in
  let! feat_perm_v := load_array feat_perm in
  do! df_setitem feats_perm_df f feat_perm_v in
  let! ev := view_of e in
  let! perm_v := df_read feats_perm_df in
  let tmp := evaluate ev perm_v y (Some ts) "brier_score" in
  let! w := lift_result (py_truediv 1 n_perm) in
  lift_result (np_iadd bs_perf_perm (np_scale w tmp)).

Lemma np_iadd_same_length a b :
  length a = length b -> np_iadd a b = Ok (zip_with Float.add a b).
Proof. intros H. unfold np_iadd. rewrite (proj2 (Nat.eqb_eq _ _) H). reflexivity. Qed.

Lemma py_truediv_weight : n_perm <> 0%Z -> py_truediv 1 n_perm = Ok weight.
Proof. intros H. unfold py_truediv. rewrite (proj2 (Z.eqb_neq _ _) H). reflexivity. Qed.

Local Arguments py_truediv : simpl never.
Local Arguments np_iadd : simpl never.
Local Arguments np_scale : simpl never.

Lemma column_length f c : assoc_get F f = Some c -> length c = nrows F.
Proof.
  intros H. apply assoc_get_In in H.
  rewrite List.Forall_forall in feats_rectangular.
  apply (feats_rectangular _ H).
Qed.

Lemma repeat_body_run f c acc k (s : @state RandomState) :
  h0 ⊆ heap s -> assoc_get F f = Some c -> length acc = length ts -> n_perm <> 0%Z ->
  exists h',
    repeat_body f acc k s
    = (Ok (accumulate f acc (shuffle (rng s) c).1), State h' (shuffle (rng s) c).2) /\
    h0 ⊆ h'.
Proof.
  intros Hsub Hc Hacc Hn. destruct s as [h g]. simpl in *.
  set (r := shuffle g c).
  (* the first copy and the view on its column *)
  destruct (df_copy_deep_run (State h g) feats F (read_frame_mono _ _ _ _ Hsub feats_content))
    as (l1 & cols1 & h1 & Hrun1 & Hsub1 & Hl1 & Hf1 & Hread1 & Hnew1). simpl in *.
  destruct (read_cols_get _ _ _ _ _ Hread1 Hc) as (v & Hv & Hrv).
  assert (Hvnew : h !! v = None).
  { rewrite List.Forall_forall in Hnew1. apply (Hnew1 _ (assoc_get_In _ _ _ Hv)). }
  (* the shuffle, in place *)
  set (h2 := <[v := Ndarray r.1]> h1).
  assert (Hsub2 : h0 ⊆ h2).
  { apply insert_subseteq_r; [eapply lookup_None_weaken; eassumption|].
    etrans; eassumption. }
  (* the second copy *)
  destruct (df_copy_deep_run (State h2 r.2) feats F (read_frame_mono _ _ _ _ Hsub2 feats_content))
    as (l2 & cols2 & h3 & Hrun2 & Hsub3 & Hl2 & Hf2 & Hread2 & Hnew2). simpl in *.
  assert (Hrv3 : read_array h3 v = Some r.1).
  { eapply read_array_mono; [exact Hsub3|]. unfold read_array, h2.
    rewrite lookup_insert_eq. reflexivity. }
  assert (Hlen : F = [] \/ length r.1 = nrows F).
  { right. unfold r. rewrite <- (Permutation_length (shuffle_permutes g c)).
    apply (column_length f). assumption. }
  destruct (df_setitem_run (State h3 r.2) l2 cols2 F f r.1 Hf2 Hread2 Hlen)
    as (h4 & Hrun4 & Hread4 & Hframe4). simpl in *.
  assert (Hsub4 : h0 ⊆ h4).
  { apply Hframe4; [etrans; eassumption|]. eapply lookup_None_weaken; eassumption. }
  exists h4. split; [|assumption].
  unfold repeat_body.
  rewrite (run_bind _ _ _ _ _ Hrun1).
  unfold df_getitem_values at 1. unfold bind at 1. unfold bind at 1.
  unfold load_columns. simpl. rewrite Hf1. simpl. rewrite Hv. simpl.
  unfold np_random_shuffle. unfold bind at 1. unfold bind at 1.
  unfold load_array at 1. simpl. rewrite Hrv. simpl. fold r. fold h2.
  rewrite (run_bind _ _ _ _ _ Hrun2).
  unfold bind at 1. unfold load_array. simpl. rewrite Hrv3. simpl.
  rewrite (run_bind _ _ _ _ _ Hrun4).
  unfold view_of. unfold bind at 1. unfold bind at 1. unfold df_read at 1. simpl.
  rewrite (read_frame_mono _ _ _ _ Hsub4 data_content). simpl.
  unfold bind at 1. unfold df_read. simpl. rewrite Hread4. simpl.
  rewrite (py_truediv_weight Hn). simpl.
  unfold bind at 1. cbn [ret]. rewrite np_iadd_same_length; [reflexivity|].
  unfold np_scale. rewrite length_map, evaluate_length. assumption.
Qed.

(** The columns produced by [n] successive shuffles of the column [c], each
    one applied to a fresh copy of [c], and the generator after them. *)
Fixpoint shuffles (c : list float) (n : nat) (g : RandomState)
  : list (list float) * RandomState :=
  match n with
  | O => ([], g)
  | S n' =>
      let r := shuffle g c in
      let rest := shuffles c n' r.2 in
      (r.1 :: rest.1, rest.2)
  end.

Lemma accumulate_length f acc c' :
  length acc = length ts -> length (accumulate f acc c') = length ts.
Proof.
  intros H. unfold accumulate, np_scale, loss_on.
  rewrite length_zip_with, length_map, evaluate_length. lia.
Qed.

Lemma fold_accumulate_length f cs : forall acc,
  length acc = length ts -> length (fold_left (accumulate f) cs acc) = length ts.
Proof.
  induction cs as [|c' cs IH]; intros acc H; simpl; [assumption|].
  apply IH. apply accumulate_length. assumption.
Qed.

Lemma repeat_loop_run f c (ks : list Z) : forall acc (s : @state RandomState),
  h0 ⊆ heap s -> assoc_get F f = Some c -> length acc = length ts ->
  ks = [] \/ n_perm <> 0%Z ->
  exists h',
    for_each ks (repeat_body f) acc s
    = (Ok (fold_left (accumulate f) (shuffles c (length ks) (rng s)).1 acc),
       State h' (shuffles c (length ks) (rng s)).2) /\
    h0 ⊆ h'.
Proof.
  induction ks as [|k ks IH]; intros acc s Hsub Hc Hacc Hn.
  - exists (heap s). destruct s. simpl. auto.
  - destruct Hn as [Hn|Hn]; [discriminate|].
    destruct (repeat_body_run f c acc k s Hsub Hc Hacc Hn) as (h1 & Hrun1 & Hsub1).
    destruct (IH (accumulate f acc (shuffle (rng s) c).1)
                 (State h1 (shuffle (rng s) c).2) Hsub1 Hc
                 (accumulate_length f acc _ Hacc) (or_intror Hn))
      as (h' & Hrun & Hsub').
    exists h'. split; [|assumption].
    simpl for_each. rewrite (run_bind _ _ _ _ _ Hrun1). exact Hrun.
Qed.

(** The losses of the baseline, and the accumulated loss and the scores of
    the feature [f] when the generator is in state [g]. *)
Definition baseline : list float := loss_on F.

Definition column_of (f : string) : list float := default [] (assoc_get F f).

Definition repeats : nat := Z.to_nat n_perm.

Definition permuted_loss (f : string) (g : RandomState) : list float :=
  fold_left (accumulate f) (shuffles (column_of f) repeats g).1 (np_zeros (length ts)).

Definition scores (f : string) (g : RandomState) : list float :=
  zip_with Float.div baseline (permuted_loss f g).

(** The scores of the features [fs], in order, the generator being threaded
    through them. *)
Fixpoint importance (fs : list string) (g : RandomState)
  : list (list float) * RandomState :=
  match fs with
  | [] => ([], g)
  | f :: fs' =>
      let rest := importance fs' (shuffles (column_of f) repeats g).2 in
      (scores f g :: rest.1, rest.2)
  end.

(** The result frame before and after the conversion of its numeric
    columns. *)
Definition text_frame (A : list string) (T P : list float) : frame cell :=
  [("feat", map (fun s => CStr (Lit s)) A);
   ("times", map (fun x => CStr (Repr x)) T);
   ("perf", map (fun x => CStr (Repr x)) P)].

Definition numeric_frame (A : list string) (T P : list float) : frame cell :=
  [("feat", map (fun s => CStr (Lit s)) A);
   ("times", map CNum T);
   ("perf", map CNum P)].

(** The body of the outer loop. *)
Definition feature_body (type : string) (feat_importance_df : frame cell)
  (feat_name : string) : M (frame cell) :=
  let! bs_perf_perm :=
    for_each (py_range n_perm) (repeat_body feat_name) (np_zeros (length ts)) in
  if String.eqb type "ratio" then
    let! importance_ratio :=
      lift_result (np_broadcast Float.div baseline bs_perf_perm) in
    let! additional_ratio :=
      lift_result (stack_frame ("feat", "times", "perf")
                     (repeat feat_name (length ts)) ts importance_ratio) in
    ret (pd_concat feat_importance_df additional_ratio)
  else ret feat_importance_df.

Lemma py_range_length n : length (py_range n) = Z.to_nat n.
Proof. unfold py_range. rewrite length_map, length_seq. reflexivity. Qed.

Lemma py_range_nonzero : py_range n_perm = [] \/ n_perm <> 0%Z.
Proof.
  destruct (Z.eq_dec n_perm 0%Z) as [->|H]; [left; reflexivity|right; assumption].
Qed.

Lemma np_zeros_length n : length (np_zeros n) = n.
Proof. apply repeat_length. Qed.

Lemma permuted_loss_length f g : length (permuted_loss f g) = length ts.
Proof. apply fold_accumulate_length. apply np_zeros_length. Qed.

Lemma baseline_length : length baseline = length ts.
Proof. apply evaluate_length. Qed.

Lemma scores_length f g : length (scores f g) = length ts.
Proof.
  unfold scores. rewrite length_zip_with, baseline_length, permuted_loss_length. lia.
Qed.

Lemma np_broadcast_same_length op a b :
  length a = length b -> np_broadcast op a b = Ok (zip_with op a b).
Proof. intros H. unfold np_broadcast. rewrite (proj2 (Nat.eqb_eq _ _) H). reflexivity. Qed.

Lemma pd_concat_text A T P A' T' P' :
  pd_concat (text_frame A T P) (text_frame A' T' P')
  = text_frame (A ++ A') (T ++ T') (P ++ P').
Proof. unfold pd_concat, text_frame. simpl. rewrite !map_app. reflexivity. Qed.

(** What the inner loop computes for a feature. *)
Definition inner_loop_spec : Prop :=
  forall f c (s : @state RandomState),
    h0 ⊆ heap s -> assoc_get F f = Some c ->
    exists h',
      for_each (py_range n_perm) (repeat_body f) (np_zeros (length ts)) s
      = (Ok (fold_left (accumulate f) (shuffles c repeats (rng s)).1 (np_zeros (length ts))),
         State h' (shuffles c repeats (rng s)).2) /\
      h0 ⊆ h'.

Lemma inner_loop_repeats : inner_loop_spec.
Proof.
  intros f c s Hsub Hc.
  destruct (repeat_loop_run f c (py_range n_perm) (np_zeros (length ts)) s Hsub Hc
              (np_zeros_length _) py_range_nonzero) as (h' & Hrun & Hsub').
  rewrite py_range_length in Hrun. exists h'. auto.
Qed.

(** Without any repeat the loop body is never run. *)
Lemma inner_loop_no_repeat : (n_perm <= 0)%Z -> inner_loop_spec.
Proof.
  intros Hn f c s Hsub Hc. exists (heap s). split; [|assumption].
  unfold repeats, py_range. replace (Z.to_nat n_perm) with 0%nat by lia.
  destruct s. reflexivity.
Qed.

Local Arguments np_broadcast : simpl never.
Local Arguments stack_frame : simpl never.
Local Arguments pd_concat : simpl never.

Lemma feature_body_run type A T P f (s : @state RandomState) :
  inner_loop_spec -> h0 ⊆ heap s -> In f (columns F) ->
  exists h',
    feature_body type (text_frame A T P) f s
    = (Ok (if String.eqb type "ratio"
           then text_frame (A ++ repeat f (length ts)) (T ++ ts) (P ++ scores f (rng s))
           else text_frame A T P),
       State h' (shuffles (column_of f) repeats (rng s)).2) /\
    h0 ⊆ h'.
Proof.
  intros Hinner Hsub Hin. destruct (in_columns_get F f Hin) as [c Hc].
  destruct (Hinner f c s Hsub Hc) as (h' & Hrun & Hsub').
  exists h'. split; [|assumption].
  unfold feature_body. rewrite (run_bind _ _ _ _ _ Hrun).
  assert (Hcol : column_of f = c) by (unfold column_of; rewrite Hc; reflexivity).
  rewrite <- Hcol. fold (permuted_loss f (rng s)).
  destruct (String.eqb type "ratio"); [|reflexivity].
  rewrite np_broadcast_same_length
    by (rewrite baseline_length, permuted_loss_length; reflexivity).
  unfold bind at 1. cbn [lift_result ret]. fold (scores f (rng s)).
  unfold stack_frame. rewrite repeat_length, scores_length, Nat.eqb_refl.
  cbn [andb fst snd]. unfold bind at 1. cbn [lift_result ret].
  fold (text_frame (repeat f (length ts)) ts (scores f (rng s))).
  rewrite pd_concat_text. reflexivity.
Qed.

(** The three columns of the result after the features [fs]. *)
Definition feat_column (fs : list string) : list string :=
  flat_map (fun f => repeat f (length ts)) fs.

Definition times_column (fs : list string) : list float :=
  flat_map (fun _ => ts) fs.

Definition perf_column (fs : list string) (g : RandomState) : list float :=
  concat (importance fs g).1.

Lemma feature_loop_run type fs : forall A T P (s : @state RandomState),
  inner_loop_spec ->
  h0 ⊆ heap s -> (forall f, In f fs -> In f (columns F)) ->
  exists h',
    for_each fs (feature_body type) (text_frame A T P) s
    = (Ok (if String.eqb type "ratio"
           then text_frame (A ++ feat_column fs) (T ++ times_column fs)
                           (P ++ perf_column fs (rng s))
           else text_frame A T P),
       State h' (importance fs (rng s)).2) /\
    h0 ⊆ h'.
Proof.
  induction fs as [|f fs IH]; intros A T P s Hinner Hsub Hin.
  - exists (heap s). destruct s. unfold feat_column, times_column, perf_column. simpl.
    rewrite !app_nil_r. destruct (String.eqb type "ratio"); auto.
  - destruct (feature_body_run type A T P f s Hinner Hsub (Hin f (or_introl eq_refl)))
      as (h1 & Hrun1 & Hsub1).
    simpl for_each. rewrite (run_bind _ _ _ _ _ Hrun1).
    destruct (String.eqb type "ratio") eqn:Etype.
    + destruct (IH (A ++ repeat f (length ts)) (T ++ ts) (P ++ scores f (rng s))
                   (State h1 (shuffles (column_of f) repeats (rng s)).2) Hinner Hsub1
                   (fun f' H => Hin f' (or_intror H)))
        as (h' & Hrun & Hsub').
      exists h'. split; [|assumption]. rewrite Hrun. simpl rng.
      unfold feat_column, times_column, perf_column. simpl.
      rewrite <- !app_assoc. reflexivity.
    + destruct (IH A T P (State h1 (shuffles (column_of f) repeats (rng s)).2) Hinner Hsub1
                   (fun f' H => Hin f' (or_intror H)))
        as (h' & Hrun & Hsub').
      exists h'. split; [|assumption]. rewrite Hrun. reflexivity.
Qed.

(** The conversion of the texts of floats: it raises when one of them is
    the text of NaN. *)
Lemma to_numeric_repr (l : list float) :
  to_numeric parse_float (map (fun x => CStr (Repr x)) l)
  = if has_nan l then Raise (ValueError "Unable to parse string")
    else Ok (map CNum l).
Proof.
  induction l as [|x l IH]; [reflexivity|].
  cbn [map to_numeric to_numeric_cell]. unfold has_nan in *. cbn [existsb].
  destruct (Float.is_nan x); [reflexivity|]. cbn [rbind orb]. rewrite IH.
  destruct (existsb Float.is_nan l); reflexivity.
Qed.

(** The outcome of the final conversion of the columns [times] and
    [perf]. *)
Definition converted (A : list string) (T P : list float) : result (frame cell) :=
  if has_nan T || has_nan P then Raise (ValueError "Unable to parse string")
  else Ok (numeric_frame A T P).

Lemma to_numeric_columns_text A T P :
  to_numeric_columns parse_float (text_frame A T P) ["times"; "perf"]
  = converted A T P.
Proof.
  unfold text_frame, converted.
  cbn [to_numeric_columns assoc_get List.find fst snd String.eqb
       Ascii.eqb Bool.eqb fmap option_fmap option_map].
  rewrite to_numeric_repr. destruct (has_nan T); [reflexivity|]. cbn [rbind orb].
  cbn [to_numeric_columns assoc_get assoc_set assoc_has existsb map List.find fst snd
       String.eqb Ascii.eqb Bool.eqb fmap option_fmap option_map orb].
  rewrite to_numeric_repr. destruct (has_nan P); reflexivity.
Qed.

(** What a call with the Brier score computes, from the heap [h0] and the
    generator state [g]: when [type] is ["ratio"], the frame of the scores
    if the final conversion accepts it, and otherwise a frame without
    rows. *)
Lemma importance_run type g :
  inner_loop_spec ->
  exists h',
    permutation_feature_importance shuffle evaluate parse_float
      e feats y (Some ts) n_perm "brier_score" type (State h0 g)
    = (lift_result
         (if String.eqb type "ratio"
          then converted (feat_column (columns F)) (times_column (columns F))
                         (perf_column (columns F) g)
          else Ok (numeric_frame [] [] []))
         (State h' (importance (columns F) g).2)) /\
    h0 ⊆ h'.
Proof.
  intros Hinner.
  destruct (feature_loop_run type (columns F) [] [] [] (State h0 g) Hinner
              (reflexivity _) (fun f H => H)) as (h' & Hrun & Hsub').
  exists h'. split; [|assumption].
  unfold permutation_feature_importance.
  cbn [String.eqb Ascii.eqb Bool.eqb].
  unfold view_of. unfold bind at 1. unfold bind at 1. unfold bind at 1.
  unfold bind at 1. unfold df_read at 1. cbn [heap].
  rewrite data_content. cbn [lift_option ret].
  unfold bind at 1. unfold df_read at 1. cbn [heap]. rewrite feats_content.
  cbn [lift_option ret py_len lift_result].
  unfold bind at 1. cbn [ret].
  unfold bind at 1.
  match goal with
  | |- context [for_each (columns F) ?body ?acc ?s] =>
      change (for_each (columns F) body acc s)
        with (for_each (columns F) (feature_body type) (text_frame [] [] []) (State h0 g))
  end.
  rewrite Hrun. cbn [ret rng].
  destruct (String.eqb type "ratio"); cbn [app];
    rewrite to_numeric_columns_text; reflexivity.
Qed.

(** The three outcomes of a call with the Brier score. *)
Lemma importance_outcome type g :
  exists h',
    h0 ⊆ h' /\
    let T := times_column (columns F) in
    let P := perf_column (columns F) g in
    let s' := State h' (importance (columns F) g).2 in
    let call :=
      permutation_feature_importance shuffle evaluate parse_float
        e feats y (Some ts) n_perm "brier_score" type (State h0 g) in
    (String.eqb type "ratio" = false -> call = (Ok (numeric_frame [] [] []), s')) /\
    (String.eqb type "ratio" = true -> has_nan T || has_nan P = true ->
     call = (Raise (ValueError "Unable to parse string"), s')) /\
    (String.eqb type "ratio" = true -> has_nan T || has_nan P = false ->
     call = (Ok (numeric_frame (feat_column (columns F)) T P), s')).
Proof.
  destruct (importance_run type g inner_loop_repeats) as (h' & Hrun & Hsub).
  exists h'. split; [exact Hsub|]. cbv zeta. unfold converted in Hrun.
  split; [|split]; intros Ht; [|intros Hn..]; rewrite Ht in Hrun;
    rewrite ?Hn in Hrun; exact Hrun.
Qed.

(** *** The accumulated loss is the mean of the losses of the repeats *)

Lemma nth_zip_with_add (a b : list float) j :
  (j < length a)%nat -> (j < length b)%nat ->
  nth j (zip_with Float.add a b) Float.zero
  = Float.add (nth j a Float.zero) (nth j b Float.zero).
Proof.
  revert b j. induction a as [|x a IH]; intros [|z b] [|j] Ha Hb; simpl in *; try lia.
  - reflexivity.
  - apply IH; lia.
Qed.

Lemma nth_np_scale w (l : list float) j :
  (j < length l)%nat ->
  nth j (np_scale w l) Float.zero = Float.mul w (nth j l Float.zero).
Proof.
  intros Hj. unfold np_scale.
  rewrite (nth_indep _ Float.zero (Float.mul w Float.zero))
    by (rewrite length_map; assumption).
  apply map_nth.
Qed.

Lemma nth_accumulate f acc c' j :
  (j < length ts)%nat -> length acc = length ts ->
  nth j (accumulate f acc c') Float.zero
  = Float.add (nth j acc Float.zero)
              (Float.mul weight (nth j (loss_on (assoc_set F f c')) Float.zero)).
Proof.
  intros Hj Hacc. unfold accumulate.
  assert (Hl : length (loss_on (assoc_set F f c')) = length ts) by apply evaluate_length.
  rewrite nth_zip_with_add.
  - rewrite nth_np_scale by lia. reflexivity.
  - lia.
  - unfold np_scale. rewrite length_map. lia.
Qed.

Lemma nth_fold_accumulate f cs j : forall acc,
  (j < length ts)%nat -> length acc = length ts ->
  nth j (fold_left (accumulate f) cs acc) Float.zero
  = fold_left (fun a x => Float.add a (Float.mul weight x))
              (map (fun c' => nth j (loss_on (assoc_set F f c')) Float.zero) cs)
              (nth j acc Float.zero).
Proof.
  induction cs as [|c' cs IH]; intros acc Hj Hacc; cbn [fold_left map]; [reflexivity|].
  rewrite IH by (auto using accumulate_length).
  rewrite nth_accumulate by assumption. reflexivity.
Qed.

Lemma nth_np_zeros n j : nth j (np_zeros n) Float.zero = Float.zero.
Proof.
  unfold np_zeros. revert j. induction n as [|n IH]; intros [|j]; simpl; auto.
Qed.

Lemma nth_map_seq {A} (g : nat -> A) n j d :
  (j < n)%nat -> nth j (map g (seq 0 n)) d = g j.
Proof.
  intros Hj. rewrite (nth_indep _ d (g 0%nat)) by (rewrite length_map, length_seq; assumption).
  rewrite (map_nth g (seq 0 n) 0%nat j). rewrite seq_nth by assumption. reflexivity.
Qed.

(** In the exact arithmetic of the model, the sum of the losses each
    weighted by [1 / n_perm] is their sum divided by [n_perm]. *)
Lemma weighted_sum_mean (xs : list float) :
  (0 < n_perm)%Z ->
  fold_left (fun a x => Float.add a (Float.mul weight x)) xs Float.zero
  = Float.div (Float.sum xs) (Float.of_Z n_perm).
Proof.
  intros Hn. rewrite <- mul_weight_div by assumption. fold weight.
  unfold weight. rewrite weight_finite by assumption.
  unfold Float.sum. rewrite <- scaled_sum by (apply weight_pos; assumption).
  rewrite mul_finite_zero. reflexivity.
Qed.

(** *** The repeats of every feature *)

Lemma shuffles_length c n : forall g, length (shuffles c n g).1 = n.
Proof. induction n as [|n IH]; intros g; simpl; [reflexivity|]. rewrite IH. reflexivity. Qed.

Lemma shuffles_permute c n : forall g,
  Forall (fun c' => Permutation c c') (shuffles c n g).1.
Proof.
  induction n as [|n IH]; intros g; simpl; constructor.
  - apply shuffle_permutes.
  - apply IH.
Qed.

(** The repeat of index [k] is the shuffle of the column by the generator
    in the state the earlier repeats left. *)
Lemma shuffles_lookup c n : forall g k,
  (k < n)%nat ->
  (shuffles c n g).1 !! k
  = Some (shuffle (Nat.iter k (fun g' => (shuffle g' c).2) g) c).1.
Proof.
  induction n as [|n IH]; intros g k Hk; [lia|].
  destruct k as [|k]; [reflexivity|].
  cbn [shuffles fst lookup list_lookup]. rewrite IH by lia.
  rewrite Nat.iter_succ_r. reflexivity.
Qed.

(** The shuffled columns of the repeats of the features [fs], feature by
    feature. *)
Fixpoint repeats_of (fs : list string) (g : RandomState) : list (list (list float)) :=
  match fs with
  | [] => []
  | f :: fs' =>
      (shuffles (column_of f) repeats g).1
        :: repeats_of fs' (shuffles (column_of f) repeats g).2
  end.

(** The scores of a feature from the shuffled columns of its repeats. *)
Definition scores_of (f : string) (cs : list (list float)) : list float :=
  zip_with Float.div baseline (fold_left (accumulate f) cs (np_zeros (length ts))).

Lemma repeats_of_shuffles fs : forall g,
  Forall2 (fun f cs => length cs = Z.to_nat n_perm /\
                       Forall (fun c' => Permutation (column_of f) c') cs)
          fs (repeats_of fs g).
Proof.
  induction fs as [|f fs IH]; intros g; simpl; constructor.
  - split; [apply shuffles_length|apply shuffles_permute].
  - apply IH.
Qed.

Lemma importance_scores_of fs : forall g,
  (importance fs g).1 = zip_with scores_of fs (repeats_of fs g).
Proof.
  induction fs as [|f fs IH]; intros g; simpl; [reflexivity|].
  rewrite IH. reflexivity.
Qed.

Lemma scores_of_lookup f cs j :
  (j < length ts)%nat ->
  scores_of f cs !! j
  = Some (Float.div
            (nth j (loss_on F) Float.zero)
            (fold_left (fun a x => Float.add a (Float.mul weight x))
               (map (fun c' => nth j (loss_on (assoc_set F f c')) Float.zero) cs)
               Float.zero)).
Proof.
  intros Hj. unfold scores_of. rewrite lookup_zip_with.
  assert (Hb : (j < length baseline)%nat) by (rewrite baseline_length; assumption).
  assert (Hm : (j < length (fold_left (accumulate f) cs (np_zeros (length ts))))%nat).
  { rewrite fold_accumulate_length by apply np_zeros_length. assumption. }
  destruct (lookup_lt_is_Some_2 _ _ Hb) as [b Hb'].
  destruct (lookup_lt_is_Some_2 _ _ Hm) as [m Hm'].
  rewrite Hb', Hm'. cbn [mbind option_bind].
  unfold baseline in Hb'.
  rewrite <- (nth_lookup_Some _ _ Float.zero _ Hb').
  rewrite <- (nth_lookup_Some _ _ Float.zero _ Hm').
  rewrite nth_fold_accumulate by (auto using np_zeros_length).
  rewrite nth_np_zeros. reflexivity.
Qed.

(** Without repeats the generator is not used and every score is a baseline
    loss divided by zero. *)
Lemma zip_with_div_zeros (l : list float) :
  zip_with Float.div l (np_zeros (length l)) = map (fun b => Float.div b Float.zero) l.
Proof.
  unfold np_zeros. induction l as [|b l IH]; simpl; [reflexivity|]. rewrite IH. reflexivity.
Qed.

Lemma scores_no_repeat f g :
  n_perm = 0%Z -> scores f g = map (fun b => Float.div b Float.zero) (loss_on F).
Proof.
  intros Hn. unfold scores, permuted_loss, repeats. rewrite Hn. cbn [Z.to_nat shuffles fst fold_left].
  rewrite <- baseline_length. apply zip_with_div_zeros.
Qed.

Lemma importance_no_repeat fs : forall g,
  n_perm = 0%Z ->
  importance fs g = (map (fun _ => map (fun b => Float.div b Float.zero) (loss_on F)) fs, g).
Proof.
  induction fs as [|f fs IH]; intros g Hn; cbn [importance map]; [reflexivity|].
  rewrite scores_no_repeat by assumption.
  assert (Hr : repeats = 0%nat) by (unfold repeats; rewrite Hn; reflexivity).
  rewrite Hr. cbn [shuffles snd]. rewrite IH by assumption. reflexivity.
Qed.

Lemma columns_numeric_frame A T P :
  columns (numeric_frame A T P) = ["feat"; "times"; "perf"].
Proof. reflexivity. Qed.

Lemma feat_column_length fs : length (feat_column fs) = (length fs * length ts)%nat.
Proof.
  unfold feat_column. induction fs as [|f fs IH]; simpl; [reflexivity|].
  rewrite length_app, repeat_length, IH. reflexivity.
Qed.

Lemma times_column_length fs : length (times_column fs) = (length fs * length ts)%nat.
Proof.
  unfold times_column. induction fs as [|f fs IH]; simpl; [reflexivity|].
  rewrite length_app, IH. reflexivity.
Qed.

Lemma importance_lengths fs : forall g,
  Forall (fun l => length l = length ts) (importance fs g).1.
Proof.
  induction fs as [|f fs IH]; intros g; simpl; constructor.
  - apply scores_length.
  - apply IH.
Qed.

Lemma concat_uniform_length {A} (ls : list (list A)) n :
  Forall (fun l => length l = n) ls -> length (concat ls) = (length ls * n)%nat.
Proof.
  induction 1 as [|l ls Hl _ IH]; simpl; [reflexivity|].
  rewrite length_app, Hl, IH. reflexivity.
Qed.

Lemma importance_length fs : forall g, length (importance fs g).1 = length fs.
Proof. induction fs as [|f fs IH]; intros g; simpl; [reflexivity|]. rewrite IH. reflexivity. Qed.

Lemma perf_column_length fs g : length (perf_column fs g) = (length fs * length ts)%nat.
Proof.
  unfold perf_column. rewrite (concat_uniform_length _ (length ts) (importance_lengths fs g)).
  rewrite importance_length. reflexivity.
Qed.

Lemma lookup_concat_uniform {A} (ls : list (list A)) n : forall i j l,
  Forall (fun l => length l = n) ls -> ls !! i = Some l -> (j < n)%nat ->
  concat ls !! (i * n + j)%nat = l !! j.
Proof.
  induction ls as [|l0 ls IH]; intros i j l Hall Hi Hj; [discriminate|].
  inversion Hall as [|? ? Hl0 Hall']. subst. destruct i as [|i]; simpl in *.
  - inversion Hi. subst. apply lookup_app_l. lia.
  - rewrite lookup_app_r by lia.
    replace (length l0 + i * length l0 + j - length l0)%nat with (i * length l0 + j)%nat by lia.
    apply IH; assumption.
Qed.

Lemma assoc_get_numeric_frame A T P :
  assoc_get (numeric_frame A T P) "feat" = Some (map (fun s => CStr (Lit s)) A) /\
  assoc_get (numeric_frame A T P) "times" = Some (map CNum T) /\
  assoc_get (numeric_frame A T P) "perf" = Some (map CNum P).
Proof. repeat split. Qed.

(** *** The use of the random generator *)

Lemma shuffles_generator c n : forall g,
  (shuffles c n g).2 = Nat.iter n (fun g' => (shuffle g' c).2) g.
Proof.
  induction n as [|n IH]; intros g; [reflexivity|].
  cbn [shuffles snd]. rewrite IH, Nat.iter_succ_r. reflexivity.
Qed.

(** The generator after the shuffles of the features [fs]: [n_perm]
    shuffles of the first column, then [n_perm] shuffles of the second one,
    and so on. *)
Definition generator_after (fs : list string) (g : RandomState) : RandomState :=
  fold_left (fun g' f => Nat.iter (Z.to_nat n_perm)
                           (fun g'' => (shuffle g'' (column_of f)).2) g')
            fs g.

Lemma importance_generator fs : forall g,
  (importance fs g).2 = generator_after fs g.
Proof.
  unfold generator_after.
  induction fs as [|f fs IH]; intros g; [reflexivity|].
  cbn [importance snd fold_left]. rewrite IH, shuffles_generator. reflexivity.
Qed.

Lemma repeats_of_lookup fs : forall g i f,
  fs !! i = Some f ->
  repeats_of fs g !! i
  = Some (shuffles (column_of f) repeats (generator_after (take i fs) g)).1.
Proof.
  induction fs as [|f0 fs IH]; intros g i f Hi; [discriminate|].
  destruct i as [|i]; cbn [lookup list_lookup] in Hi.
  - inversion Hi. subst. reflexivity.
  - cbn [repeats_of lookup list_lookup]. rewrite (IH _ i f Hi).
    cbn [take]. unfold generator_after at 2. cbn [fold_left].
    rewrite shuffles_generator. reflexivity.
Qed.

Lemma has_nan_false (l : list float) :
  has_nan l = false <-> Forall (fun x => Float.is_nan x = false) l.
Proof.
  unfold has_nan. induction l as [|x l IH]; cbn [existsb].
  - split; [constructor|reflexivity].
  - rewrite orb_false_iff, IH. split.
    + intros [H1 H2]. constructor; assumption.
    + intros H. inversion H. auto.
Qed.

(** *** The claims on the importance table *)

(** C7. With the Brier score and the ratio mode, the table the call builds
    has the columns [feat], [times] and [perf] and one row per pair of a
    feature and an evaluation time, feature by feature and, within a feature,
    time by time: its number of rows is the number of features times the
    number of evaluation times.  The final conversion makes numbers of the
    cells of [times] and [perf], which were texts; it raises [ValueError]
    when one of these texts is that of NaN, so that the call returns the
    table exactly when no evaluation time and no score is NaN. *)
Theorem importance_table_shape (g : RandomState) :
  let T := flat_map (fun _ => ts) (columns F) in
  let P := perf_column (columns F) g in
  let call :=
    permutation_feature_importance shuffle evaluate parse_float
      e feats y (Some ts) n_perm "brier_score" "ratio" (State h0 g) in
  length P = (length (columns F) * length ts)%nat /\
  exists s',
    (has_nan T || has_nan P = true ->
     call = (Raise (ValueError "Unable to parse string"), s')) /\
    (has_nan T || has_nan P = false ->
     exists tbl,
       call = (Ok tbl, s') /\
       columns tbl = ["feat"; "times"; "perf"] /\
       Forall (fun c => length (snd c) = (length (columns F) * length ts)%nat) tbl /\
       assoc_get tbl "feat"
       = Some (map (fun f => CStr (Lit f))
                   (flat_map (fun f => repeat f (length ts)) (columns F))) /\
       assoc_get tbl "times" = Some (map CNum T) /\
       assoc_get tbl "perf" = Some (map CNum P) /\
       Forall (fun c => is_numeric c = true) (map CNum T) /\
       Forall (fun c => is_numeric c = true) (map CNum P)).
Proof.
  intros T P call. split; [apply perf_column_length|].
  destruct (importance_outcome "ratio" g) as (h' & _ & _ & Hraise & Hret).
  eexists. split.
  - intros Hn. apply Hraise; [reflexivity|exact Hn].
  - intros Hn. eexists. split; [apply Hret; [reflexivity|exact Hn]|].
    split; [reflexivity|]. split.
    + unfold numeric_frame. repeat constructor; cbn [snd]; rewrite length_map.
      * apply feat_column_length.
      * apply times_column_length.
      * apply perf_column_length.
    + split; [reflexivity|]. split; [reflexivity|]. split; [reflexivity|].
      split; apply Forall_map, Forall_forall; reflexivity.
Qed.

Lemma div_zero_nan (b : float) :
  Float.is_nan (Float.div b Float.zero) = true <-> b = NaN \/ b = Float.zero.
Proof.
  destruct b as [a| | |]; cbn.
  - unfold Float.zero. rewrite (proj2 (Qc_eqb_eq 0 0) eq_refl).
    destruct (a ?= 0)%Qc eqn:E; cbn.
    + apply Qceq_alt in E. subst. split; auto.
    + split; [discriminate|]. intros [H|H]; [discriminate|].
      inversion H. subst. rewrite Qc_compare_refl in E. discriminate.
    + split; [discriminate|]. intros [H|H]; [discriminate|].
      inversion H. subst. rewrite Qc_compare_refl in E. discriminate.
  - split; [discriminate|]. intros [H|H]; discriminate.
  - split; [discriminate|]. intros [H|H]; discriminate.
  - split; auto.
Qed.

Lemma no_repeat_scores_nan (fs : list string) (L : list float) :
  has_nan (flat_map (fun _ : string => map (fun b => Float.div b Float.zero) L) fs) = true
  <-> fs <> [] /\ Exists (fun b => b = NaN \/ b = Float.zero) L.
Proof.
  unfold has_nan. rewrite existsb_exists. split.
  - intros (x & Hx & Hnan). apply in_flat_map in Hx. destruct Hx as (f & Hf & Hx).
    apply in_map_iff in Hx. destruct Hx as (b & <- & Hb). split.
    + intros ->. contradiction.
    + apply Exists_exists. exists b. split; [apply list_elem_of_In; exact Hb|].
      apply div_zero_nan. exact Hnan.
  - intros [Hfs Hex]. apply Exists_exists in Hex. destruct Hex as (b & Hb & Hz).
    destruct fs as [|f fs]; [contradiction|].
    exists (Float.div b Float.zero). split.
    + apply in_flat_map. exists f. split; [left; reflexivity|].
      apply in_map_iff. exists b. split; [reflexivity|apply list_elem_of_In; exact Hb].
    + apply div_zero_nan. exact Hz.
Qed.

(** C10, as the code behaves.  With the Brier score, the ratio mode and no
    repeat, the body of the inner loop is never run (the generator is left
    in its state), the accumulated loss stays zero and every score is a
    baseline loss divided by zero, hence not finite.  A score is NaN exactly
    when its baseline loss is zero or NaN.  The call returns the table of
    these scores, all of them infinite, when no evaluation time and no score
    is NaN; it raises [ValueError] at the final conversion when one is: as
    soon as there is a feature and a baseline loss that is zero. *)
Theorem no_repeat_scores_not_finite (g : RandomState) :
  n_perm = 0%Z ->
  let T := flat_map (fun _ => ts) (columns F) in
  let P := flat_map (fun _ => map (fun b => Float.div b Float.zero) (loss_on F))
                    (columns F) in
  let call :=
    permutation_feature_importance shuffle evaluate parse_float
      e feats y (Some ts) n_perm "brier_score" "ratio" (State h0 g) in
  Forall (fun x => Float.is_finite x = false) P /\
  (has_nan P = true <->
   columns F <> [] /\ Exists (fun b => b = NaN \/ b = Float.zero) (loss_on F)) /\
  exists h',
    (has_nan T || has_nan P = true ->
     call = (Raise (ValueError "Unable to parse string"), State h' g)) /\
    (has_nan T || has_nan P = false ->
     exists tbl,
       call = (Ok tbl, State h' g) /\
       assoc_get tbl "perf" = Some (map CNum P) /\
       Forall (fun x => x = PInf \/ x = NInf) P).
Proof.
  intros Hn T P call.
  assert (HP : perf_column (columns F) g = P).
  { unfold perf_column. rewrite importance_no_repeat by assumption.
    cbn [fst]. rewrite <- flat_map_concat_map. reflexivity. }
  assert (Hfin : Forall (fun x => Float.is_finite x = false) P).
  { apply Forall_forall. intros x Hx. apply list_elem_of_In, in_flat_map in Hx.
    destruct Hx as (f & _ & Hx). apply in_map_iff in Hx. destruct Hx as (b & <- & _).
    apply div_zero_not_finite. }
  split; [exact Hfin|]. split; [apply no_repeat_scores_nan|].
  destruct (importance_run "ratio" g (inner_loop_no_repeat ltac:(lia))) as (h' & Hrun & _).
  cbn [String.eqb Ascii.eqb Bool.eqb] in Hrun. unfold converted in Hrun.
  rewrite HP, importance_no_repeat in Hrun by assumption. cbn [snd] in Hrun.
  unfold times_column in Hrun. fold T in Hrun.
  exists h'. split; intros Hnan; unfold call; rewrite Hnan in Hrun.
  - exact Hrun.
  - eexists. split; [exact Hrun|]. split; [reflexivity|].
    apply orb_false_iff in Hnan. destruct Hnan as [_ Hnan].
    apply has_nan_false in Hnan.
    apply Forall_forall. intros x Hx.
    rewrite Forall_forall in Hnan, Hfin. specialize (Hnan x Hx). specialize (Hfin x Hx).
    destruct x; try discriminate; auto.
Qed.

(** X8. A scoring type that is not supported is not rejected.  With the
    Brier score, evaluation times and any [type] other than ["ratio"], the
    call runs all the repeats (the generator is left in the state reached by
    [n_perm] shuffles of every column, and the objects the caller had are
    untouched) and then returns a table without any row: nothing is
    raised. *)
Lemma unsupported_type_returns_no_row (type : string) (g : RandomState) :
  String.eqb type "ratio" = false ->
  exists h',
    permutation_feature_importance shuffle evaluate parse_float
      e feats y (Some ts) n_perm "brier_score" type (State h0 g)
    = (Ok [("feat", []); ("times", []); ("perf", [])],
       State h'
         (fold_left
            (fun g' f =>
               Nat.iter (Z.to_nat n_perm) (fun g'' => (shuffle g'' (column_of f)).2) g')
            (columns F) g)) /\
    h0 ⊆ h'.
Proof.
  intros Htype.
  destruct (importance_outcome type g) as (h' & Hsub & Hempty & _).
  exists h'. split; [|exact Hsub].
  rewrite importance_generator in Hempty. apply Hempty. exact Htype.
Qed.

(** C2. With the Brier score, the ratio mode and at least one repeat, the
    score of the feature [f] at the time of index [j] is the baseline loss at
    that time, computed on the untouched frame of features, divided by the
    loss accumulated over the repeats, each repeat adding the loss at that
    time weighted by [1 / n_perm]; in the exact arithmetic of the model this
    accumulated loss is the arithmetic mean of the losses of the repeats.
    The loss of a repeat is computed on a copy of the frame in which the
    column [f], and only it, is replaced by what [np.random.shuffle] makes of
    the caller's column, a permutation of it, the generator being in the
    state in which the earlier shuffles of the call left it.  The call
    returns the table of these scores unless an evaluation time or a score is
    NaN, in which case the final conversion raises [ValueError]. *)
Theorem score_is_baseline_over_mean (g : RandomState) :
  (0 < n_perm)%Z ->
  let perms := repeats_of (columns F) g in
  let perf := perf_column (columns F) g in
  let T := flat_map (fun _ => ts) (columns F) in
  let call :=
    permutation_feature_importance shuffle evaluate parse_float
      e feats y (Some ts) n_perm "brier_score" "ratio" (State h0 g) in
  Forall2 (fun f cs => length cs = Z.to_nat n_perm /\
                       Forall (fun c' => Permutation (column_of f) c') cs)
          (columns F) perms /\
  (forall i k f,
     columns F !! i = Some f -> (k < Z.to_nat n_perm)%nat ->
     exists cs,
       perms !! i = Some cs /\
       cs !! k
       = Some (shuffle
                 (Nat.iter k (fun g' => (shuffle g' (column_of f)).2)
                    (fold_left
                       (fun g' f' =>
                          Nat.iter (Z.to_nat n_perm)
                            (fun g'' => (shuffle g'' (column_of f')).2) g')
                       (take i (columns F)) g))
                 (column_of f)).1) /\
  (forall i j f cs,
     columns F !! i = Some f -> perms !! i = Some cs -> (j < length ts)%nat ->
     let losses := map (fun c' => nth j (loss_on (assoc_set F f c')) Float.zero) cs in
     let accumulated :=
       fold_left
         (fun a x => Float.add a (Float.mul (Float.div (Float.of_Z 1) (Float.of_Z n_perm)) x))
         losses Float.zero in
     perf !! (i * length ts + j)%nat
     = Some (Float.div (nth j (loss_on F) Float.zero) accumulated) /\
     accumulated = Float.div (Float.sum losses) (Float.of_Z n_perm) /\
     length losses = Z.to_nat n_perm) /\
  exists s',
    (has_nan T || has_nan perf = false ->
     exists tbl, call = (Ok tbl, s') /\ assoc_get tbl "perf" = Some (map CNum perf)) /\
    (has_nan T || has_nan perf = true ->
     call = (Raise (ValueError "Unable to parse string"), s')).
Proof.
  intros Hn perms perf T call.
  split; [apply repeats_of_shuffles|]. split.
  - intros i k f Hf Hk. eexists. split; [apply repeats_of_lookup; exact Hf|].
    rewrite shuffles_lookup by exact Hk. reflexivity.
  - destruct (importance_outcome "ratio" g) as (h' & _ & _ & Hraise & Hret).
    split; [|eexists; split].
    + intros i j f cs Hf Hcs Hj losses accumulated.
      assert (Hi : (importance (columns F) g).1 !! i = Some (scores_of f cs)).
      { rewrite importance_scores_of, lookup_zip_with, Hf. fold perms. rewrite Hcs.
        reflexivity. }
      split; [|split].
      * unfold perf, perf_column.
        rewrite (lookup_concat_uniform _ (length ts) i j _ (importance_lengths _ g) Hi Hj).
        apply scores_of_lookup. exact Hj.
      * apply weighted_sum_mean. exact Hn.
      * unfold losses. rewrite length_map.
        pose proof (repeats_of_shuffles (columns F) g) as Hall. fold perms in Hall.
        destruct (Forall2_lookup_r _ _ _ _ _ Hall Hcs) as (f' & _ & Hlen & _). exact Hlen.
    + intros Hnan. eexists. split; [apply Hret; [reflexivity|exact Hnan]|reflexivity].
    + intros Hnan. apply Hraise; [reflexivity|exact Hnan].
Qed.

(** X9. With the Brier score and evaluation times, whatever the scoring
    type, the call draws from the random generator one shuffle per feature
    and repeat, feature by feature in the order of the columns: the generator
    is left in the state reached from the initial one by [n_perm] shuffles of
    the first column, then [n_perm] shuffles of the second column, and so on,
    each shuffle being given the column as it is in the caller's frame (not
    the outcome of an earlier shuffle).  This holds whether the call returns
    or raises at the final conversion, the only failure left at that
    point. *)
Theorem importance_generator_use (type : string) (g : RandomState) :
  exists r h',
    permutation_feature_importance shuffle evaluate parse_float
      e feats y (Some ts) n_perm "brier_score" type (State h0 g)
    = (r,
       State h'
         (fold_left
            (fun g' f =>
               Nat.iter (Z.to_nat n_perm) (fun g'' => (shuffle g'' (column_of f)).2) g')
            (columns F) g)) /\
    h0 ⊆ h' /\
    (r = Raise (ValueError "Unable to parse string") \/ exists tbl, r = Ok tbl).
Proof.
  destruct (importance_outcome type g) as (h' & Hsub & Hempty & Hraise & Hret).
  rewrite importance_generator in Hempty, Hraise, Hret. unfold generator_after in *.
  destruct (String.eqb type "ratio") eqn:Et.
  - destruct (has_nan (times_column (columns F)) || has_nan (perf_column (columns F) g))
      eqn:Hn.
    + eexists _, h'. split; [apply Hraise; reflexivity|]. split; [exact Hsub|]. left.
      reflexivity.
    + eexists _, h'. split; [apply Hret; reflexivity|]. split; [exact Hsub|]. right.
      eexists. reflexivity.
  - eexists _, h'. split; [apply Hempty; reflexivity|]. split; [exact Hsub|]. right.
    eexists. reflexivity.
Qed.

End ImportanceRun.

(** Replacing a column leaves the labels and the other columns as they
    are. *)
Lemma assoc_get_set_other {V} (t : list (string * V)) (f f' : string) (v : V) :
  f <> f' -> assoc_get (assoc_set t f v) f' = assoc_get t f'.
Proof.
  intros Hne. unfold assoc_set, assoc_get.
  assert (Hf : String.eqb f f' = false) by (apply String.eqb_neq; assumption).
  destruct (assoc_has t f).
  - induction t as [|c t IH]; simpl; [reflexivity|].
    destruct (String.eqb (fst c) f) eqn:E; simpl.
    + apply String.eqb_eq in E. rewrite E, Hf. exact IH.
    + destruct (String.eqb (fst c) f'); [reflexivity|exact IH].
  - induction t as [|c t IH]; simpl.
    + rewrite Hf. reflexivity.
    + destruct (String.eqb (fst c) f'); [reflexivity|exact IH].
Qed.

Lemma assoc_get_set_same {V} (t : list (string * V)) (f : string) (v : V) :
  assoc_get (assoc_set t f v) f = Some v.
Proof.
  unfold assoc_set, assoc_get, assoc_has.
  destruct (existsb (fun c => String.eqb (fst c) f) t) eqn:E.
  - induction t as [|c t IH]; simpl in *; [discriminate|].
    destruct (String.eqb (fst c) f) eqn:Ec; simpl.
    + rewrite Ec. reflexivity.
    + rewrite Ec. apply IH. exact E.
  - induction t as [|c t IH]; simpl in *.
    + rewrite String.eqb_refl. reflexivity.
    + destruct (String.eqb (fst c) f) eqn:Ec; simpl in *; [discriminate|].
      apply IH. exact E.
Qed.

Lemma columns_assoc_set_present {C} (t : frame C) (f : string) (v : list C) :
  In f (columns t) -> columns (assoc_set t f v) = columns t.
Proof.
  intros Hin. unfold assoc_set, assoc_has, columns.
  assert (E : existsb (fun c => String.eqb (fst c) f) t = true).
  { apply existsb_exists. apply in_map_iff in Hin. destruct Hin as (c & Hc & Hin).
    exists c. split; [assumption|]. apply String.eqb_eq. assumption. }
  rewrite E. rewrite map_map. apply map_ext.
  intros c. destruct (String.eqb (fst c) f); reflexivity.
Qed.

(** ** The collaborators of the concrete setting honour their contracts *)

Lemma example_shuffle_permutes (g : nat) (l : list float) :
  Permutation l (Example.shuffle g l).1.
Proof.
  unfold Example.shuffle. cbn [fst].
  rewrite <- (take_drop (S g mod length l) l) at 1.
  apply Permutation_app_comm.
Qed.

Lemma example_evaluate_length ev X y ts metric :
  length (Example.evaluate ev X y (Some ts) metric) = length ts.
Proof. unfold Example.evaluate. rewrite length_map. reflexivity. Qed.

Lemma example_feats_content :
  read_frame Example.h0 Example.feats = Some Example.feats_content.
Proof. vm_compute. reflexivity. Qed.

Lemma example_data_content :
  read_frame Example.h0 (data Example.explainer0) = Some Example.data_content.
Proof. vm_compute. reflexivity. Qed.

Lemma example_feats_rectangular :
  Forall (fun c => length (snd c) = nrows Example.feats_content) Example.feats_content.
Proof. repeat constructor. Qed.

(** A loss that is zero at every time: the Brier score of a model whose
    predictions are the outcomes. *)
Definition perfect_evaluate (ev : explainer_view unit) (X : table) (y : unit)
  (ts : option (list float)) (metric : string) : list float :=
  map (fun _ => Float.zero) (default [] ts).

Lemma perfect_evaluate_length ev X y ts metric :
  length (perfect_evaluate ev X y (Some ts) metric) = length ts.
Proof. unfold perfect_evaluate. rewrite length_map. reflexivity. Qed.

(** ** The claims on the importance table, in the concrete setting *)

Lemma importance_table_shape_witness :
  (exists tbl s',
     permutation_feature_importance Example.shuffle Example.evaluate Example.parse_float
       Example.explainer0 Example.feats tt (Some [Example.fz 1; Example.fz 2]) 2
       "brier_score" "ratio" (State Example.h0 0%nat) = (Ok tbl, s') /\
     columns tbl = ["feat"; "times"; "perf"] /\
     Forall (fun c => length (snd c) = 4%nat) tbl /\
     assoc_get tbl "feat" = Some (map (fun f => CStr (Lit f)) ["a"; "a"; "b"; "b"]) /\
     assoc_get tbl "times"
     = Some (map CNum [Example.fz 1; Example.fz 2; Example.fz 1; Example.fz 2])) /\
  (exists s',
     permutation_feature_importance Example.shuffle perfect_evaluate Example.parse_float
       Example.explainer0 Example.feats tt (Some [Example.fz 1; Example.fz 2]) 2
       "brier_score" "ratio" (State Example.h0 0%nat)
     = (Raise (ValueError "Unable to parse string"), s')).
Proof.
  split.
  - destruct (importance_table_shape Example.shuffle Example.evaluate Example.parse_float
                example_shuffle_permutes example_evaluate_length
                Example.explainer0 Example.feats tt [Example.fz 1; Example.fz 2] 2
                Example.h0 Example.feats_content Example.data_content
                example_feats_content example_data_content example_feats_rectangular 0%nat)
      as (_ & s' & _ & Hret).
    destruct (Hret ltac:(vm_compute; reflexivity))
      as (tbl & Hcall & Hcols & Hlen & Hfeat & Htimes & _).
    exists tbl, s'. split; [exact Hcall|]. split; [exact Hcols|].
    split; [exact Hlen|]. split; [exact Hfeat|exact Htimes].
  - destruct (importance_table_shape Example.shuffle perfect_evaluate Example.parse_float
                example_shuffle_permutes perfect_evaluate_length
                Example.explainer0 Example.feats tt [Example.fz 1; Example.fz 2] 2
                Example.h0 Example.feats_content Example.data_content
                example_feats_content example_data_content example_feats_rectangular 0%nat)
      as (_ & s' & Hraise & _).
    exists s'. apply Hraise. vm_compute. reflexivity.
Defined.

Lemma no_repeat_scores_not_finite_witness :
  exists tbl h',
    permutation_feature_importance Example.shuffle Example.evaluate Example.parse_float
      Example.explainer0 Example.feats tt (Some [Example.fz 1; Example.fz 2]) 0
      "brier_score" "ratio" (State Example.h0 0%nat)
    = (Ok tbl, State h' 0%nat) /\
    assoc_get tbl "perf" = Some (map CNum [PInf; PInf; PInf; PInf]).
Proof.
  destruct (no_repeat_scores_not_finite Example.shuffle Example.evaluate
              Example.parse_float example_evaluate_length
              Example.explainer0 Example.feats tt [Example.fz 1; Example.fz 2] 0
              Example.h0 Example.feats_content Example.data_content
              example_feats_content example_data_content 0%nat eq_refl)
    as (_ & _ & h' & _ & Hret).
  destruct (Hret ltac:(vm_compute; reflexivity)) as (tbl & Hcall & Hperf & _).
  exists tbl, h'. split; [exact Hcall|]. rewrite Hperf. vm_compute. reflexivity.
Defined.

(** C10, an input that refutes it: without any repeat, on a model whose
    baseline loss is zero, every score is [0 / 0], that is NaN, and the call
    raises [ValueError] at the final conversion instead of returning a table
    of NaN. *)
Theorem no_repeat_zero_baseline_raises :
  permutation_feature_importance Example.shuffle perfect_evaluate Example.parse_float
    Example.explainer0 Example.feats tt (Some [Example.fz 1; Example.fz 2]) 0
    "brier_score" "ratio" Example.s0
  = (Raise (ValueError "Unable to parse string"), Example.s0).
Proof. vm_compute. reflexivity. Qed.

Lemma score_is_baseline_over_mean_witness :
  exists tbl s' perf,
    permutation_feature_importance Example.shuffle Example.evaluate Example.parse_float
      Example.explainer0 Example.feats tt (Some [Example.fz 1; Example.fz 2]) 2
      "brier_score" "ratio" (State Example.h0 0%nat) = (Ok tbl, s') /\
    assoc_get tbl "perf" = Some (map CNum perf) /\
    forall j, (j < 2)%nat ->
      let losses :=
        map (fun c' => nth j (loss_on Example.evaluate Example.explainer0 tt
                                      [Example.fz 1; Example.fz 2]
                                      Example.data_content
                                      (assoc_set Example.feats_content "a" c'))
                           Float.zero)
            [(Example.shuffle 0 (map Example.fz [1; 2; 3]%Z)).1;
             (Example.shuffle 1 (map Example.fz [1; 2; 3]%Z)).1] in
      perf !! j
      = Some (Float.div
                (nth j (loss_on Example.evaluate Example.explainer0 tt
                                [Example.fz 1; Example.fz 2]
                                Example.data_content Example.feats_content) Float.zero)
                (Float.div (Float.sum losses) (Float.of_Z 2))).
Proof.
  destruct (score_is_baseline_over_mean Example.shuffle Example.evaluate
              Example.parse_float example_shuffle_permutes example_evaluate_length
              Example.explainer0 Example.feats tt [Example.fz 1; Example.fz 2] 2
              Example.h0 Example.feats_content Example.data_content
              example_feats_content example_data_content example_feats_rectangular 0%nat
              ltac:(lia))
    as (_ & _ & Hscore & s' & Hret & _).
  destruct (Hret ltac:(vm_compute; reflexivity)) as (tbl & Hcall & Hperf).
  eexists tbl, s', _. split; [exact Hcall|]. split; [exact Hperf|].
  intros j Hj losses.
  destruct (Hscore 0%nat j "a" _ eq_refl eq_refl ltac:(simpl; lia)) as (Hp & Hmean & _).
  cbn [Nat.mul Nat.add] in Hp. rewrite Hp. cbv zeta in Hmean. rewrite Hmean. reflexivity.
Defined.

(** ** Unsupported options and unimplemented entry points *)

(** C3, at an input that shows the defect: with the Brier score and the
    unsupported scoring type ["difference"], the call returns a table
    without any row instead of raising. *)
Theorem unsupported_type_returns_empty_table :
  (permutation_feature_importance Example.shuffle Example.evaluate Example.parse_float
     Example.explainer0 Example.feats tt (Some [Example.fz 1; Example.fz 2]) 2
     "brier_score" "difference" Example.s0).1
  = Ok [("feat", []); ("times", []); ("perf", [])].
Proof. vm_compute. reflexivity. Qed.

(** X7. With a loss other than ["brier_score"] the call raises
    [UnboundLocalError]: nothing is evaluated or permuted, and the result
    table is read before it was ever assigned.  The state is left as it
    is. *)
Lemma unsupported_loss_raises
  {RandomState Model SurvLabels : Type}
  (shuffle : RandomState -> list float -> list float * RandomState)
  (evaluate : explainer_view Model -> table -> SurvLabels ->
              option (list float) -> string -> list float)
  (parse_float : string -> option float)
  (e : explainer Model) (feats : loc) (y : SurvLabels)
  (eval_times : option (list float)) (n_perm : Z) (loss type : string)
  (s : @state RandomState) :
  String.eqb loss "brier_score" = false ->
  permutation_feature_importance shuffle evaluate parse_float
    e feats y eval_times n_perm loss type s
  = (Raise (UnboundLocalError "feat_importance_df"), s).
Proof.
  intros H. unfold permutation_feature_importance. rewrite H. reflexivity.
Qed.

(** C9. Whatever the explainer and the state, a call to
    [feature_interaction] or to [functional_decomposition] raises
    [ValueError("Not supported yet")]: it returns no result, and it leaves
    the state as it is. *)
Theorem unimplemented_entry_points_raise
  {RandomState Model A B : Type} (e : explainer Model) (s : @state RandomState) :
  feature_interaction (A := A) e s = (Raise (ValueError "Not supported yet"), s) /\
  functional_decomposition (A := B) e s = (Raise (ValueError "Not supported yet"), s).
Proof. split; reflexivity. Qed.

(** ** The order of floats *)

Section FloatOrder.

Definition not_nan (x : float) : Prop := Float.is_nan x = false.

Lemma Qc_ltb_ge (a b : Qc) : Float.Qc_ltb a b = false <-> (b <= a)%Qc.
Proof.
  split; intros H.
  - apply Qcnot_lt_le. intros Hlt. apply Qc_ltb_lt in Hlt. congruence.
  - destruct (Float.Qc_ltb a b) eqn:E; [|reflexivity].
    apply Qc_ltb_lt in E. apply Qclt_not_le in E. contradiction.
Qed.

Ltac float_cases :=
  repeat match goal with
         | x : float |- _ => destruct x
         end;
  unfold not_nan in *; cbn in *; try congruence; try reflexivity.

Lemma float_ltb_asym (a b : float) :
  Float.ltb a b = true -> Float.ltb b a = false.
Proof.
  float_cases. rewrite Qc_ltb_lt, Qc_ltb_ge. apply Qclt_le_weak.
Qed.

Lemma float_ltb_trans (a b c : float) :
  Float.ltb a b = true -> Float.ltb b c = true -> Float.ltb a c = true.
Proof.
  float_cases. rewrite !Qc_ltb_lt. apply Qclt_trans.
Qed.

Lemma float_leb_trans (a b c : float) :
  not_nan a -> not_nan b -> not_nan c ->
  Float.ltb b a = false -> Float.ltb c b = false -> Float.ltb c a = false.
Proof.
  float_cases. rewrite !Qc_ltb_ge. intros _ _ _. apply Qcle_trans.
Qed.

Lemma float_ltb_leb_trans (a b c : float) :
  not_nan a -> not_nan b -> not_nan c ->
  Float.ltb a b = true -> Float.ltb c b = false -> Float.ltb a c = true.
Proof.
  float_cases. rewrite !Qc_ltb_lt, Qc_ltb_ge. intros _ _ _. apply Qclt_le_trans.
Qed.

Lemma float_eqb_total (a b : float) :
  not_nan a -> not_nan b ->
  Float.ltb a b = false -> Float.ltb b a = false -> Float.eqb a b = true.
Proof.
  float_cases. rewrite !Qc_ltb_ge, Qc_eqb_eq. intros _ _ H1 H2.
  apply Qcle_antisym; assumption.
Qed.

Lemma float_eqb_eq (a b : float) : Float.eqb a b = true -> a = b.
Proof.
  float_cases. rewrite Qc_eqb_eq. intros ->. reflexivity.
Qed.

Lemma float_eqb_refl (a : float) : not_nan a -> Float.eqb a a = true.
Proof. float_cases. intros _. apply Qc_eqb_eq. reflexivity. Qed.

Lemma float_ltb_irrefl (a : float) : Float.ltb a a = false.
Proof. float_cases. apply Qc_ltb_ge. apply Qcle_refl. Qed.

Lemma float_eqb_not_ltb (a b : float) : Float.eqb a b = true -> Float.ltb a b = false.
Proof. intros H. apply float_eqb_eq in H. subst. apply float_ltb_irrefl. Qed.

Lemma sort_ltb_ltb (a b : float) :
  not_nan a -> not_nan b -> Float.sort_ltb a b = Float.ltb a b.
Proof. float_cases. Qed.

Lemma unique_eqb_eq (a b : float) : unique_eqb a b = true -> a = b.
Proof.
  unfold unique_eqb. destruct (Float.eqb a b) eqn:E.
  - intros _. apply float_eqb_eq. assumption.
  - destruct a, b; simpl; congruence.
Qed.

End FloatOrder.

(** ** Sorting and removing repetitions *)

Section SortedLists.

Context {A : Type}.
Variables ltb eqb : A -> A -> bool.

(** The elements on which [ltb] is a strict order, total up to [eqb]. *)
Variable valid : A -> Prop.

Hypothesis ltb_asym : forall a b, valid a -> valid b -> ltb a b = true -> ltb b a = false.
Hypothesis ltb_trans : forall a b c, valid a -> valid b -> valid c ->
  ltb a b = true -> ltb b c = true -> ltb a c = true.
Hypothesis leb_trans : forall a b c, valid a -> valid b -> valid c ->
  ltb b a = false -> ltb c b = false -> ltb c a = false.
Hypothesis ltb_leb_trans : forall a b c, valid a -> valid b -> valid c ->
  ltb a b = true -> ltb c b = false -> ltb a c = true.
Hypothesis eqb_total : forall a b, valid a -> valid b ->
  ltb a b = false -> ltb b a = false -> eqb a b = true.
Hypothesis eqb_not_ltb : forall a b, valid a -> valid b ->
  eqb a b = true -> ltb a b = false.

Definition lt_of (a b : A) : Prop := ltb a b = true.
Definition le_of (a b : A) : Prop := ltb b a = false.

Lemma insert_sorted_perm x l : Permutation (insert_sorted ltb x l) (x :: l).
Proof.
  induction l as [|y l IH]; simpl; [reflexivity|].
  destruct (ltb y x); [|reflexivity].
  rewrite IH. apply perm_swap.
Qed.

Lemma isort_perm l : Permutation (isort ltb l) l.
Proof.
  unfold isort. induction l as [|x l IH]; simpl; [reflexivity|].
  rewrite insert_sorted_perm. constructor. exact IH.
Qed.

Lemma insert_sorted_sorted x l :
  valid x -> Forall valid l ->
  StronglySorted le_of l -> StronglySorted le_of (insert_sorted ltb x l).
Proof.
  intros Hx Hl Hs. induction Hs as [|y l Hs IH Hy]; simpl.
  - repeat constructor.
  - inversion Hl as [|? ? Hvy Hvl]. subst.
    destruct (ltb y x) eqn:E.
    + constructor; [apply IH; assumption|].
      eapply Permutation_Forall; [symmetry; apply insert_sorted_perm|].
      constructor; [|assumption]. apply ltb_asym; assumption.
    + constructor; [constructor; assumption|].
      constructor; [exact E|].
      rewrite List.Forall_forall in *. intros z Hz.
      apply (leb_trans x y z); auto.
      exact (Hy z Hz).
Qed.

Lemma isort_sorted l : Forall valid l -> StronglySorted le_of (isort ltb l).
Proof.
  unfold isort. induction 1 as [|x l Hx Hl IH]; simpl; [constructor|].
  apply insert_sorted_sorted; [assumption| |assumption].
  eapply Permutation_Forall; [symmetry; apply isort_perm|]. assumption.
Qed.

Lemma dedup_sorted_incl l x : In x (dedup_sorted eqb l) -> In x l.
Proof.
  induction l as [|y l IH]; simpl; [tauto|].
  destruct l as [|z l]; [tauto|].
  destruct (eqb y z).
  - intros H. right. apply IH. assumption.
  - intros [H|H]; [left; assumption|right; apply IH; assumption].
Qed.

Lemma dedup_sorted_strict l :
  Forall valid l -> StronglySorted le_of l -> StronglySorted lt_of (dedup_sorted eqb l).
Proof.
  intros Hv Hs. induction Hs as [|y l Hs IH Hy]; [constructor|].
  inversion Hv as [|? ? Hvy Hvl]. subst. specialize (IH Hvl).
  destruct l as [|z l]; [repeat constructor|].
  change (dedup_sorted eqb (y :: z :: l))
    with (if eqb y z then dedup_sorted eqb (z :: l) else y :: dedup_sorted eqb (z :: l)).
  destruct (eqb y z) eqn:E; [assumption|].
  constructor; [assumption|].
  rewrite List.Forall_forall in *. intros w Hw.
  apply dedup_sorted_incl in Hw.
  assert (Hyz : ltb y z = true).
  { destruct (ltb y z) eqn:E1; [reflexivity|].
    rewrite (eqb_total y z) in E; [discriminate| | |assumption|].
    - assumption.
    - apply Hvl. left. reflexivity.
    - apply (Hy z). left. reflexivity. }
  destruct Hw as [<-|Hw]; [assumption|].
  inversion Hs as [|? ? Hs' Hz]. subst. rewrite List.Forall_forall in Hz.
  apply (ltb_leb_trans y z w); auto.
  - apply Hvl. left. reflexivity.
  - apply Hvl. right. assumption.
  - exact (Hz w Hw).
Qed.

(** When [eqb] only identifies equal elements, no element is lost. *)
Lemma dedup_sorted_complete l x :
  (forall a b, eqb a b = true -> a = b) ->
  In x l -> In x (dedup_sorted eqb l).
Proof.
  intros Heq. induction l as [|y l IH]; [tauto|].
  destruct l as [|z l]; [tauto|].
  change (dedup_sorted eqb (y :: z :: l))
    with (if eqb y z then dedup_sorted eqb (z :: l) else y :: dedup_sorted eqb (z :: l)).
  destruct (eqb y z) eqn:E.
  - apply Heq in E. subst. intros [H|H]; apply IH; [left; assumption|assumption].
  - intros [H|H]; [left; assumption|right; apply IH; assumption].
Qed.

End SortedLists.

Lemma StronglySorted_weaken {A} (R R' : A -> A -> Prop) (l : list A) :
  (forall a b, In a l -> In b l -> R a b -> R' a b) ->
  StronglySorted R l -> StronglySorted R' l.
Proof.
  intros H Hs. induction Hs as [|x l Hs IH Hx]; constructor.
  - apply IH. intros a b Ha Hb. apply H; right; assumption.
  - rewrite List.Forall_forall in *. intros y Hy.
    apply H; [left; reflexivity|right; assumption|apply Hx; assumption].
Qed.

Lemma every_nth_incl {A} (step : nat) (l : list A) : forall skip x,
  In x (every_nth step skip l) -> In x l.
Proof.
  induction l as [|y l IH]; intros skip x; simpl; [tauto|].
  destruct skip as [|k]; simpl.
  - intros [H|H]; [left; assumption|right; eapply IH; eassumption].
  - intros H. right. eapply IH; eassumption.
Qed.

Lemma every_nth_sorted {A} (R : A -> A -> Prop) (step : nat) (l : list A) : forall skip,
  StronglySorted R l -> StronglySorted R (every_nth step skip l).
Proof.
  induction l as [|y l IH]; intros skip Hs; simpl; [constructor|].
  inversion Hs as [|? ? Hs' Hy]. subst.
  destruct skip as [|k]; [|apply IH; assumption].
  constructor; [apply IH; assumption|].
  rewrite List.Forall_forall in *. intros x Hx. apply Hy.
  eapply every_nth_incl; eassumption.
Qed.

(** The element of index [k] of [l[skip::step]] is the element of index
    [skip + step * k] of [l]. *)
Lemma every_nth_lookup {A} (step : nat) (l : list A) : forall skip k,
  (0 < step)%nat ->
  every_nth step skip l !! k = l !! (skip + step * k)%nat.
Proof.
  induction l as [|y l IH]; intros skip k Hstep; simpl.
  - rewrite !lookup_nil. reflexivity.
  - destruct skip as [|s]; simpl.
    + destruct k as [|k]; simpl.
      * rewrite Nat.mul_0_r. reflexivity.
      * rewrite IH by assumption.
        replace (step * S k)%nat with (S (step - 1 + step * k)) by lia. reflexivity.
    + apply IH. assumption.
Qed.

(** *** [np.unique] *)

Lemma np_sort_sorted (l : list float) :
  Forall not_nan l -> StronglySorted (fun a b => Float.ltb b a = false) (np_sort l).
Proof.
  intros Hl. unfold np_sort.
  assert (Hv : Forall not_nan (isort Float.sort_ltb l)).
  { eapply Permutation_Forall; [symmetry; apply isort_perm|]. assumption. }
  eapply StronglySorted_weaken;
    [|apply (isort_sorted Float.sort_ltb not_nan); [| |assumption]].
  - rewrite List.Forall_forall in Hv. intros a b Ha Hb. unfold le_of.
    rewrite sort_ltb_ltb by auto. trivial.
  - intros a b Ha Hb. rewrite !sort_ltb_ltb by assumption. apply float_ltb_asym.
  - intros a b c Ha Hb Hc. rewrite !sort_ltb_ltb by assumption.
    apply float_leb_trans; assumption.
Qed.

Lemma np_unique_elements (l : list float) (x : float) : In x (np_unique l) <-> In x l.
Proof.
  unfold np_unique, np_sort. split; intros H.
  - apply dedup_sorted_incl in H.
    apply (Permutation_in _ (isort_perm Float.sort_ltb l)). assumption.
  - apply dedup_sorted_complete; [apply unique_eqb_eq|].
    apply (Permutation_in _ (Permutation_sym (isort_perm Float.sort_ltb l))). assumption.
Qed.

Lemma np_unique_increasing (l : list float) :
  Forall not_nan l -> StronglySorted (fun a b => Float.ltb a b = true) (np_unique l).
Proof.
  intros Hl. unfold np_unique.
  assert (Hv : Forall not_nan (np_sort l)).
  { eapply Permutation_Forall; [symmetry; apply isort_perm|]. assumption. }
  apply (dedup_sorted_strict Float.ltb unique_eqb not_nan).
  - intros a b c Ha Hb Hc. apply float_ltb_leb_trans; assumption.
  - intros a b Ha Hb H1 H2. unfold unique_eqb.
    rewrite (float_eqb_total a b) by assumption. reflexivity.
  - assumption.
  - apply np_sort_sorted. assumption.
Qed.

(** ** The evaluation times of the accumulated local effects *)

(** C6, as the code behaves.  A call to [accumulated_local_effects_plots]
    asks [predict] for no other times than its evaluation times: two
    prediction functions that agree at these times give the same outcome.
    The evaluation times are taken from [np.unique] of the event times of the
    explainer (the first column of its label array: its distinct values in
    increasing order, NaN last), one value in every hundred from the index 10
    on: the evaluation time of index [k] is the value of index
    [10 + 100 * k].  When no event time is NaN they are strictly
    increasing. *)
Theorem eval_times_subsampled {RandomState Model : Type} (e : explainer Model) :
  (forall (predict predict' : explainer_view Model -> table -> list float -> string -> table)
          (tie : list float -> nat -> nat -> bool)
          (selected_features type : string) (s : @state RandomState),
     (forall ev d ty,
        predict ev d (ale_eval_times e) ty = predict' ev d (ale_eval_times e) ty) ->
     accumulated_local_effects_plots predict tie e selected_features type s
     = accumulated_local_effects_plots predict' tie e selected_features type s) /\
  let unique_times := np_unique (map fst (label e)) in
  (forall t, In t unique_times <-> In t (map fst (label e))) /\
  (forall k, ale_eval_times e !! k = unique_times !! (10 + 100 * k)%nat) /\
  (Forall not_nan (map fst (label e)) ->
   StronglySorted (fun a b => Float.ltb a b = true) unique_times /\
   StronglySorted (fun a b => Float.ltb a b = true) (ale_eval_times e)).
Proof.
  split; [|split; [|split]].
  - intros predict predict' tie selected_features type s Hagree.
    unfold accumulated_local_effects_plots.
    do 12 (apply bind_ext; intros ? ?). cbv zeta.
    apply bind_ext_first.
    destruct (String.eqb type "survival"); [|destruct (String.eqb type "chf")].
    + do 4 (apply bind_ext; intros ? ?). rewrite !Hagree. reflexivity.
    + do 4 (apply bind_ext; intros ? ?). rewrite !Hagree. reflexivity.
    + reflexivity.
  - apply np_unique_elements.
  - intros k. unfold ale_eval_times, py_slice_from_step.
    apply every_nth_lookup. lia.
  - intros Hl. split.
    + apply np_unique_increasing. assumption.
    + unfold ale_eval_times, py_slice_from_step.
      apply every_nth_sorted. apply np_unique_increasing. assumption.
Qed.

Lemma example_labels_not_nan :
  Forall not_nan (map fst (label Example.explainer0)).
Proof.
  apply List.Forall_forall. intros x Hx. unfold Example.explainer0 in Hx. cbn [label] in Hx.
  rewrite map_map in Hx. apply in_map_iff in Hx. destruct Hx as (i & <- & _). reflexivity.
Qed.

Lemma eval_times_subsampled_witness :
  ale_eval_times Example.explainer0 = [Example.fz 10; Example.fz 110] /\
  accumulated_local_effects_plots Example.predict stable Example.explainer0
    "x0" "survival" Example.s0
  = accumulated_local_effects_plots
      (fun ev d ts ty =>
         if Nat.eqb (length ts) 2 then Example.predict ev d ts ty else [])
      stable Example.explainer0 "x0" "survival" Example.s0 /\
  StronglySorted (fun a b => Float.ltb a b = true) (ale_eval_times Example.explainer0).
Proof.
  destruct (eval_times_subsampled (RandomState := nat) Example.explainer0)
    as (Hcall & _ & _ & Hsorted).
  split; [vm_compute; reflexivity|]. split.
  - apply Hcall. intros ev d ty.
    assert (E : ale_eval_times Example.explainer0 = [Example.fz 10; Example.fz 110])
      by (vm_compute; reflexivity).
    rewrite E. reflexivity.
  - apply Hsorted. exact example_labels_not_nan.
Defined.

(** C6, an input that refutes it: an explainer whose event times are the
    integers from 0 to 109 and one NaN.  [np.unique] puts the NaN last, at
    the index 110, so that the evaluation times are 10 and NaN: they are not
    strictly increasing. *)
Theorem eval_times_with_nan_unordered :
  let e := Explainer tt 1%positive
             (map (fun i => (Float.of_nat i, Float.one)) (seq 0 110) ++ [(NaN, Float.one)]) in
  ale_eval_times e = [Example.fz 10; NaN] /\
  ~ StronglySorted (fun a b => Float.ltb a b = true) (ale_eval_times e).
Proof.
  cbv zeta. split; [vm_compute; reflexivity|].
  intros H.
  assert (E : ale_eval_times
                (Explainer tt 1%positive
                   (map (fun i => (Float.of_nat i, Float.one)) (seq 0 110)
                    ++ [(NaN, Float.one)]))
              = [Example.fz 10; NaN]) by (vm_compute; reflexivity).
  rewrite E in H. inversion H as [|? ? _ Hall]. inversion Hall as [|? ? Hlt _].
  discriminate.
Qed.

(** ** Quantiles of finite values *)

Section Quantiles.

Local Open Scope Qc_scope.

Ltac qc_to_q :=
  unfold Qcle, Qclt, Qcminus, Qcplus, Qcmult, Qcopp in *; cbn [this Q2Qc] in *;
  repeat rewrite Qred_correct in *.



(** The integer [z] as a rational. *)
Definition Qc_of_Z (z : Z) : Qc := Q2Qc (inject_Z z).


Lemma Qc_of_Z_lt (x y : Z) : (x < y)%Z <-> Qc_of_Z x < Qc_of_Z y.
Proof. unfold Qc_of_Z. qc_to_q. rewrite <- Zlt_Qlt. reflexivity. Qed.















(** *** The quantiles numpy computes on finite values *)







(** The levels are in increasing order from 0 on. *)
Fixpoint levels_increasing (ps : list Qc) : bool :=
  match ps with
  | [] => true
  | p :: ps' =>
      negb (Float.Qc_ltb p 0)
      && match ps' with
         | [] => true
         | p' :: _ => negb (Float.Qc_ltb p' p)
         end
      && levels_increasing ps'
  end.


Lemma qt_list_levels :
  exists levels, mapM valid_level qt_list = Some levels /\
                 length levels = 11%nat /\ levels_increasing levels = true.
Proof.
  eexists. split; [vm_compute; reflexivity|]. split; vm_compute; reflexivity.
Qed.

Lemma qt_list_length : length qt_list = 11%nat.
Proof. vm_compute. reflexivity. Qed.

(** The breakpoints of finite values: eleven of them, in increasing order. *)
Lemma np_quantile_length (a grid : list float) :
  np_quantile a qt_list = Ok grid -> length grid = 11%nat.
Proof.
  destruct qt_list_levels as (levels & Hl & Hlen & _).
  unfold np_quantile. rewrite Hl. destruct a as [|x a]; [discriminate|].
  destruct (existsb Float.is_nan (x :: a)); intros H; inversion H;
    rewrite length_map; assumption.
Qed.



End Quantiles.

(** ** The bins of the accumulated local effects *)

Lemma argmin_from_bound (l : list float) : forall best_i best i,
  (best_i < i)%nat -> (argmin_from best_i best i l < i + length l)%nat.
Proof.
  induction l as [|x l IH]; intros best_i best i H; simpl; [lia|].
  destruct (negb (Float.is_nan best) && (Float.is_nan x || Float.ltb x best)).
  - specialize (IH i x (S i)). lia.
  - specialize (IH best_i best (S i)). lia.
Qed.

Lemma np_argmin_bound (l : list float) :
  l <> [] -> exists i, np_argmin l = Ok i /\ (i < length l)%nat.
Proof.
  destruct l as [|x l]; [contradiction|]. intros _.
  eexists. split; [reflexivity|].
  pose proof (argmin_from_bound l 0 x 1). simpl. lia.
Qed.

Lemma bin_index_in_range (grid : list float) (var : float) :
  length grid = 11%nat ->
  exists i, bin_index grid var = Ok i /\ (i <= 9)%nat.
Proof.
  intros Hlen. unfold bin_index.
  destruct (np_argmin_bound (map Float.abs (map (fun g => Float.sub g var) grid)))
    as (i & Hi & _).
  { destruct grid; [discriminate|]. discriminate. }
  rewrite Hi. cbn [rbind]. rewrite qt_list_length.
  eexists. split; [reflexivity|]. simpl. lia.
Qed.

Lemma bins_of_values (grid : list float) (vs : list float) :
  length grid = 11%nat ->
  exists idx lower upper,
    comprehension (bin_index grid) vs = Ok idx /\
    comprehension (fun i => np_getitem grid i) idx = Ok lower /\
    comprehension (fun i => np_getitem grid (i + 1)) idx = Ok upper /\
    Forall (fun i => (0 <= i <= 9)%nat) idx /\
    ((forall k lo hi, grid !! k = Some lo -> grid !! S k = Some hi ->
                      Float.leb lo hi = true) ->
     Forall2 (fun lo hi => Float.leb lo hi = true) lower upper).
Proof.
  intros Hlen. induction vs as [|var vs IH].
  - exists [], [], []. repeat split; constructor.
  - destruct IH as (idx & lower & upper & Hidx & Hlower & Hupper & Hrange & Hord).
    destruct (bin_index_in_range grid var Hlen) as (i & Hi & Hi9).
    destruct (lookup_lt_is_Some_2 grid i ltac:(lia)) as [lo Hlo].
    destruct (lookup_lt_is_Some_2 grid (i + 1) ltac:(lia)) as [hi Hhi].
    exists (i :: idx), (lo :: lower), (hi :: upper). repeat split.
    + cbn [comprehension]. rewrite Hi, Hidx. reflexivity.
    + cbn [comprehension]. unfold np_getitem at 1. rewrite Hlo, Hlower. reflexivity.
    + cbn [comprehension]. unfold np_getitem at 1. rewrite Hhi, Hupper. reflexivity.
    + constructor; [lia|assumption].
    + intros Hinc. constructor; [|apply Hord; assumption].
      apply (Hinc i); [assumption|]. rewrite <- Nat.add_1_r. assumption.
Qed.




(** ** The keys of the groups *)

Section GroupKeys.

Definition key_valid (k : float * float) : Prop := key_present k = true.

Lemma key_valid_not_nan (k : float * float) :
  key_valid k -> not_nan (fst k) /\ not_nan (snd k).
Proof.
  unfold key_valid, key_present, not_nan. intros H.
  apply andb_prop in H. destruct H as [H1 H2].
  apply negb_true_iff in H1, H2. auto.
Qed.

Lemma float_ltb_antisym (x y : float) :
  not_nan x -> not_nan y ->
  Float.ltb x y = false -> Float.ltb y x = false -> x = y.
Proof.
  intros Hx Hy H1 H2. apply float_eqb_eq. apply float_eqb_total; assumption.
Qed.

Lemma key_ltb_true (a b : float * float) :
  key_ltb a b = true ->
  Float.ltb (fst a) (fst b) = true \/ (fst a = fst b /\ Float.ltb (snd a) (snd b) = true).
Proof.
  unfold key_ltb. intros H. apply orb_prop in H. destruct H as [H|H]; [auto|].
  apply andb_prop in H. destruct H as [H1 H2]. apply float_eqb_eq in H1. auto.
Qed.

Lemma key_ltb_false (a b : float * float) :
  key_valid a -> key_valid b -> key_ltb a b = false ->
  Float.ltb (fst a) (fst b) = false /\
  (fst a = fst b -> Float.ltb (snd a) (snd b) = false).
Proof.
  intros Ha Hb. unfold key_ltb. intros H. apply orb_false_elim in H.
  destruct H as [H1 H2]. split; [assumption|]. intros Heq.
  apply key_valid_not_nan in Ha. destruct Ha as [Ha _].
  rewrite <- Heq, (float_eqb_refl _ Ha) in H2. exact H2.
Qed.

Lemma key_ltb_intro_first (a b : float * float) :
  Float.ltb (fst a) (fst b) = true -> key_ltb a b = true.
Proof. unfold key_ltb. intros ->. reflexivity. Qed.

Lemma key_ltb_intro_second (a b : float * float) :
  key_valid a -> fst a = fst b -> Float.ltb (snd a) (snd b) = true -> key_ltb a b = true.
Proof.
  intros Ha Heq H. unfold key_ltb. apply key_valid_not_nan in Ha. destruct Ha as [Ha _].
  rewrite <- Heq, (float_eqb_refl _ Ha), H. apply orb_true_r.
Qed.

Lemma key_ltb_elim_false (a b : float * float) :
  Float.ltb (fst a) (fst b) = false ->
  (fst a = fst b -> Float.ltb (snd a) (snd b) = false) ->
  key_ltb a b = false.
Proof.
  intros H1 H2. unfold key_ltb. rewrite H1. cbn [orb].
  destruct (Float.eqb (fst a) (fst b)) eqn:E; [|reflexivity].
  apply float_eqb_eq in E. rewrite (H2 E). reflexivity.
Qed.

Lemma key_ltb_asym (a b : float * float) :
  key_valid a -> key_valid b -> key_ltb a b = true -> key_ltb b a = false.
Proof.
  intros Ha Hb H. apply key_ltb_true in H. apply key_ltb_elim_false.
  - destruct H as [H|[Heq H]].
    + apply float_ltb_asym. assumption.
    + rewrite Heq. apply float_ltb_irrefl.
  - intros Heq. destruct H as [H|[_ H]].
    + rewrite Heq, float_ltb_irrefl in H. discriminate.
    + apply float_ltb_asym. assumption.
Qed.

Lemma key_leb_trans (a b c : float * float) :
  key_valid a -> key_valid b -> key_valid c ->
  key_ltb b a = false -> key_ltb c b = false -> key_ltb c a = false.
Proof.
  intros Ha Hb Hc H1 H2.
  destruct (key_ltb_false _ _ Hb Ha H1) as [H11 H12].
  destruct (key_ltb_false _ _ Hc Hb H2) as [H21 H22].
  destruct (key_valid_not_nan _ Ha) as [Ha1 Ha2].
  destruct (key_valid_not_nan _ Hb) as [Hb1 Hb2].
  destruct (key_valid_not_nan _ Hc) as [Hc1 Hc2].
  apply key_ltb_elim_false.
  - apply (float_leb_trans (fst a) (fst b) (fst c)); assumption.
  - intros Heq. rewrite Heq in H21.
    assert (Hab : fst b = fst a) by (apply float_ltb_antisym; assumption).
    apply (float_leb_trans (snd a) (snd b) (snd c)); try assumption.
    + apply H12. assumption.
    + apply H22. congruence.
Qed.

Lemma key_ltb_leb_trans (a b c : float * float) :
  key_valid a -> key_valid b -> key_valid c ->
  key_ltb a b = true -> key_ltb c b = false -> key_ltb a c = true.
Proof.
  intros Ha Hb Hc H1 H2. apply key_ltb_true in H1.
  destruct (key_ltb_false _ _ Hc Hb H2) as [H21 H22].
  destruct (key_valid_not_nan _ Ha) as [Ha1 Ha2].
  destruct (key_valid_not_nan _ Hb) as [Hb1 Hb2].
  destruct (key_valid_not_nan _ Hc) as [Hc1 Hc2].
  destruct H1 as [H1|[Heq H1]].
  - apply key_ltb_intro_first. apply (float_ltb_leb_trans _ (fst b)); assumption.
  - destruct (Float.ltb (fst b) (fst c)) eqn:E.
    + apply key_ltb_intro_first. rewrite Heq. assumption.
    + assert (Hbc : fst c = fst b) by (apply float_ltb_antisym; assumption).
      apply key_ltb_intro_second; [assumption|congruence|].
      apply (float_ltb_leb_trans _ (snd b)); try assumption. apply H22. assumption.
Qed.

Lemma key_eqb_total (a b : float * float) :
  key_valid a -> key_valid b ->
  key_ltb a b = false -> key_ltb b a = false -> key_eqb a b = true.
Proof.
  intros Ha Hb H1 H2.
  destruct (key_ltb_false _ _ Ha Hb H1) as [H11 H12].
  destruct (key_ltb_false _ _ Hb Ha H2) as [H21 H22].
  destruct (key_valid_not_nan _ Ha) as [Ha1 Ha2].
  destruct (key_valid_not_nan _ Hb) as [Hb1 Hb2].
  assert (E1 : fst a = fst b) by (apply float_ltb_antisym; assumption).
  unfold key_eqb. rewrite (float_eqb_total (fst a) (fst b)) by assumption.
  rewrite (float_eqb_total (snd a) (snd b)); auto.
Qed.

Lemma key_eqb_eq (a b : float * float) : key_eqb a b = true -> a = b.
Proof.
  unfold key_eqb. intros H. apply andb_prop in H. destruct H as [H1 H2].
  apply float_eqb_eq in H1, H2. destruct a, b. simpl in *. congruence.
Qed.


Lemma key_ltb_irrefl (a : float * float) : key_ltb a a = false.
Proof. unfold key_ltb. rewrite !float_ltb_irrefl. apply andb_false_r. Qed.

(** The keys of the groups are the distinct keys without NaN, in strictly
    increasing order. *)
Lemma group_keys_sorted (keys : list (float * float)) :
  StronglySorted (fun a b => key_ltb a b = true) (group_keys keys).
Proof.
  unfold group_keys.
  assert (Hv : Forall key_valid (filter (fun k => key_present k) keys)).
  { apply List.Forall_forall. intros k Hk. apply list_elem_of_In, list_elem_of_filter in Hk.
    destruct Hk as [Hk _]. apply Is_true_true in Hk. exact Hk. }
  apply (dedup_sorted_strict key_ltb key_eqb key_valid).
  - apply key_ltb_leb_trans.
  - apply key_eqb_total.
  - eapply Permutation_Forall; [symmetry; apply isort_perm|]. exact Hv.
  - apply (isort_sorted key_ltb key_valid); [apply key_ltb_asym|apply key_leb_trans|exact Hv].
Qed.

Lemma group_keys_elements (keys : list (float * float)) (k : float * float) :
  In k (group_keys keys) <-> In k keys /\ key_valid k.
Proof.
  unfold group_keys. split.
  - intros H. apply dedup_sorted_incl in H.
    apply (Permutation_in _ (isort_perm key_ltb _)) in H.
    apply list_elem_of_In, list_elem_of_filter in H. destruct H as [Hk Hin].
    split; [apply list_elem_of_In; assumption|]. apply Is_true_true in Hk. exact Hk.
  - intros [Hin Hk]. apply dedup_sorted_complete; [apply key_eqb_eq|].
    apply (Permutation_in _ (Permutation_sym (isort_perm key_ltb _))).
    apply list_elem_of_In, list_elem_of_filter. split.
    + apply Is_true_true. exact Hk.
    + apply list_elem_of_In. assumption.
Qed.

End GroupKeys.

(** ** Partial dependence *)

#[global] Instance float_eq_dec : EqDecision float.
Proof. solve_decision. Defined.





Lemma assoc_get_map_values {V W} (f : V -> W) (t : list (string * V)) (name : string) :
  assoc_get (map (fun c => (fst c, f (snd c))) t) name = f <$> assoc_get t name.
Proof.
  unfold assoc_get. induction t as [|c t IH]; [reflexivity|].
  cbn [map List.find fst]. destruct (String.eqb (fst c) name); [reflexivity|exact IH].
Qed.

Lemma assoc_get_filter_other {V} (t : list (string * V)) (k1 k2 name : string) :
  String.eqb name k1 = false -> String.eqb name k2 = false ->
  assoc_get (filter (fun c : string * V =>
                       negb (String.eqb (fst c) k1) && negb (String.eqb (fst c) k2)) t)
            name
  = assoc_get t name.
Proof.
  intros H1 H2. unfold assoc_get. induction t as [|[n v] t IH]; [reflexivity|].
  rewrite filter_cons. cbn [List.find fst].
  destruct (String.eqb n name) eqn:E.
  - apply String.eqb_eq in E. subst n. rewrite H1, H2. cbn [negb andb].
    rewrite decide_True by exact I. cbn [List.find fst]. rewrite String.eqb_refl. reflexivity.
  - destruct (decide _); [cbn [List.find fst]; rewrite E|]; exact IH.
Qed.



(** ** Accumulated local effects: the table of a call *)

Section NewFrames.

Context {RandomState : Type}.

Local Abbreviation M := (@M RandomState) (only parsing).

Lemma run_lift_option_inv {A} e (o : option A) (s s' : @state RandomState) a :
  lift_option e o s = (Ok a, s') -> o = Some a /\ s' = s.
Proof. destruct o; simpl; unfold ret, raise; intros H; inversion H; auto. Qed.

Lemma run_ret_inv {A} (a b : A) (s s' : @state RandomState) :
  ret a s = (Ok b, s') -> a = b /\ s' = s.
Proof. unfold ret. intros H. inversion H. auto. Qed.

Lemma alloc_columns_run (t : table) : forall (s : @state RandomState),
  exists cols h',
    alloc_columns t s = (Ok cols, State h' (rng s)) /\
    heap s ⊆ h' /\
    read_cols h' cols = Some t.
Proof.
  induction t as [|c t IH]; intros s.
  - exists [], (heap s). destruct s. simpl. repeat split; auto.
  - set (l := fresh (dom (heap s))).
    set (s1 := State (<[l := Ndarray (snd c)]> (heap s)) (rng s)).
    assert (Hl : heap s !! l = None) by apply fresh_lookup_None.
    assert (Hsub1 : heap s ⊆ heap s1) by (apply insert_subseteq; assumption).
    destruct (IH s1) as (cols & h' & Hrun & Hsub & Hread).
    exists ((fst c, l) :: cols), h'. repeat split.
    + simpl. unfold bind at 1. simpl. fold l. fold s1.
      unfold bind at 1. rewrite Hrun. reflexivity.
    + etrans; eassumption.
    + simpl. rewrite Hread.
      assert (Hrl : read_array h' l = Some (snd c)).
      { eapply read_array_mono; [exact Hsub|]. unfold read_array. simpl.
        rewrite lookup_insert_eq. reflexivity. }
      rewrite Hrl. destruct c. reflexivity.
Qed.

Lemma df_new_run (t : table) (s : @state RandomState) :
  exists l cols h',
    df_new t s = (Ok l, State h' (rng s)) /\
    heap s ⊆ h' /\
    h' !! l = Some (DataFrame cols) /\
    read_cols h' cols = Some t.
Proof.
  destruct (alloc_columns_run t s) as (cols & h1 & Hrun & Hsub & Hread).
  set (l := fresh (dom h1)).
  assert (Hl : h1 !! l = None) by apply fresh_lookup_None.
  exists l, cols, (<[l := DataFrame cols]> h1). repeat split.
  - unfold df_new. unfold bind at 1. rewrite Hrun. reflexivity.
  - etrans; [exact Hsub|]. apply insert_subseteq. assumption.
  - apply lookup_insert_eq.
  - eapply read_cols_mono; [|exact Hread]. apply insert_subseteq. assumption.
Qed.

End NewFrames.

Lemma sort_values_column tie (t sorted : table) (name : string) :
  sort_values tie t name = Ok sorted ->
  exists keys, assoc_get t name = Some keys /\
               exists var_values, assoc_get sorted name = Some var_values.
Proof.
  unfold sort_values. destruct (assoc_get t name) as [keys|] eqn:E; [|discriminate].
  intros H. inversion H. exists keys. split; [reflexivity|].
  rewrite (assoc_get_map_values (fun col => gather col _)). rewrite E. eauto.
Qed.

(** *** The keys of the bins at the evaluation times *)

Lemma of_nat_increasing (a b : nat) :
  (a < b)%nat -> Float.ltb (Float.of_nat a) (Float.of_nat b) = true.
Proof.
  intros H. unfold Float.of_nat, Float.of_Z. cbn [Float.ltb].
  apply Qc_ltb_lt. apply (proj1 (Qc_of_Z_lt _ _)). lia.
Qed.

Lemma of_nat_not_nan (a : nat) : not_nan (Float.of_nat a).
Proof. reflexivity. Qed.

(** The pairs (bin, time) for the bins [0 .. n_bins - 1], bin by bin. *)
Definition bin_time_keys (n_bins : nat) (times : list float) : list (float * float) :=
  flat_map (fun b => map (fun t => (Float.of_nat b, t)) times) (seq 0 n_bins).

Lemma bin_time_keys_length (n_bins : nat) (times : list float) :
  length (bin_time_keys n_bins times) = (n_bins * length times)%nat.
Proof.
  unfold bin_time_keys. generalize 0%nat.
  induction n_bins as [|n IH]; intros start; simpl; [reflexivity|].
  rewrite length_app, length_map, IH. reflexivity.
Qed.

Lemma bin_time_keys_elements (n_bins : nat) (times : list float) (k : float * float) :
  In k (bin_time_keys n_bins times) <->
  exists b, (b < n_bins)%nat /\ fst k = Float.of_nat b /\ In (snd k) times.
Proof.
  unfold bin_time_keys. rewrite in_flat_map. split.
  - intros (b & Hb & Hk). apply in_seq in Hb. apply in_map_iff in Hk.
    destruct Hk as (t & <- & Ht). exists b. simpl. repeat split; [lia|assumption].
  - intros (b & Hb & Hf & Ht). exists b. split; [apply in_seq; lia|].
    apply in_map_iff. exists (snd k). split; [|assumption].
    destruct k. simpl in *. congruence.
Qed.

Lemma flat_map_sorted {A B} (R : B -> B -> Prop) (f : A -> list B) (l : list A) :
  (forall x, In x l -> StronglySorted R (f x)) ->
  StronglySorted (fun x y => forall a b, In a (f x) -> In b (f y) -> R a b) l ->
  StronglySorted R (flat_map f l).
Proof.
  induction l as [|x l IH]; intros Hf Hl; simpl; [constructor|].
  inversion Hl as [|? ? Hl' Hx]. subst.
  assert (Hrest : StronglySorted R (flat_map f l)).
  { apply IH; [|assumption]. intros y Hy. apply Hf. right. assumption. }
  assert (Hhead : StronglySorted R (f x)) by (apply Hf; left; reflexivity).
  assert (Hcross : forall a b, In a (f x) -> In b (flat_map f l) -> R a b).
  { intros a b Ha Hb. apply in_flat_map in Hb. destruct Hb as (y & Hy & Hb).
    rewrite List.Forall_forall in Hx. apply (Hx y Hy); assumption. }
  clear Hf Hl Hl' Hx IH. induction (f x) as [|a fx IHfx]; simpl; [assumption|].
  inversion Hhead as [|? ? Hs Ha]. subst. constructor.
  - apply IHfx; [assumption|]. intros a' b Ha' Hb. apply Hcross; [right|]; assumption.
  - apply Forall_app. split; [assumption|].
    apply List.Forall_forall. intros b Hb. apply Hcross; [left; reflexivity|assumption].
Qed.

Lemma seq_increasing (n : nat) : forall start,
  StronglySorted lt (seq start n).
Proof.
  induction n as [|n IH]; intros start; simpl; constructor; [apply IH|].
  apply List.Forall_forall. intros x Hx. apply in_seq in Hx. lia.
Qed.

Lemma map_sorted {A B} (R : A -> A -> Prop) (R' : B -> B -> Prop) (f : A -> B) (l : list A) :
  (forall a b, In a l -> In b l -> R a b -> R' (f a) (f b)) ->
  StronglySorted R l -> StronglySorted R' (map f l).
Proof.
  induction l as [|x l IH]; intros Hf Hl; simpl; [constructor|].
  inversion Hl as [|? ? Hl' Hx]. subst. constructor.
  - apply IH; [|assumption]. intros a b Ha Hb. apply Hf; right; assumption.
  - rewrite List.Forall_forall in *. intros y Hy. apply in_map_iff in Hy.
    destruct Hy as (a & <- & Ha). apply Hf; [left; reflexivity|right; assumption|].
    apply Hx. assumption.
Qed.

Lemma bin_time_keys_sorted (n_bins : nat) (times : list float) :
  StronglySorted (fun a b => Float.ltb a b = true) times ->
  StronglySorted (fun a b => key_ltb a b = true) (bin_time_keys n_bins times).
Proof.
  intros Ht. unfold bin_time_keys. apply flat_map_sorted.
  - intros b _. apply (map_sorted (fun a b => Float.ltb a b = true)); [|assumption].
    intros t t' _ _ H. unfold key_ltb. cbn [fst snd]. rewrite H.
    rewrite (float_eqb_refl _ (of_nat_not_nan b)). apply orb_true_r.
  - eapply StronglySorted_weaken; [|apply seq_increasing].
    intros b b' _ _ Hlt k k' Hk Hk'. apply in_map_iff in Hk, Hk'.
    destruct Hk as (t & <- & _). destruct Hk' as (t' & <- & _).
    apply key_ltb_intro_first. apply of_nat_increasing. assumption.
Qed.

(** Two lists in strictly increasing order with the same number of
    elements, one a part of the other, are the same list. *)
Lemma sorted_incl_same_length {A} (R : A -> A -> Prop) (l1 l2 : list A) :
  (forall a, ~ R a a) ->
  (forall a b, In a l2 -> In b l2 -> R a b -> R b a -> False) ->
  StronglySorted R l1 -> StronglySorted R l2 ->
  incl l1 l2 -> length l1 = length l2 -> l1 = l2.
Proof.
  intros Hirr Hasym H1 H2 Hincl Hlen.
  assert (Hnd : forall l, StronglySorted R l -> List.NoDup l).
  { intros l Hl. induction Hl as [|a l Hl IH Ha]; constructor; [|assumption].
    intros Hin. rewrite List.Forall_forall in Ha. apply (Hirr a). apply Ha. assumption. }
  assert (Hperm : Permutation l1 l2).
  { apply NoDup_Permutation_bis; [apply Hnd; assumption|lia|assumption]. }
  clear Hincl Hlen Hnd. revert l2 Hasym H2 Hperm.
  induction H1 as [|a l1 Hs1 IH Ha]; intros l2 Hasym H2 Hperm.
  - apply Permutation_nil in Hperm. congruence.
  - destruct l2 as [|b l2]; [apply Permutation_sym, Permutation_nil in Hperm; discriminate|].
    inversion H2 as [|? ? Hs2 Hb]. subst.
    rewrite List.Forall_forall in Ha, Hb.
    assert (Hab : a = b).
    { assert (Hina : In a (b :: l2)) by (apply (Permutation_in _ Hperm); left; reflexivity).
      assert (Hinb : In b (a :: l1))
        by (apply (Permutation_in _ (Permutation_sym Hperm)); left; reflexivity).
      destruct Hina as [Hina|Hina]; [congruence|].
      destruct Hinb as [Hinb|Hinb]; [congruence|].
      exfalso. apply (Hasym b a); [left; reflexivity|right; assumption| |].
      - apply Hb. assumption.
      - apply Ha. assumption. }
    subst b. f_equal. apply IH.
    + intros x y Hx Hy. apply Hasym; right; assumption.
    + assumption.
    + eapply Permutation_cons_inv. exact Hperm.
Qed.

Lemma key_ltb_strict (a b : float * float) :
  key_ltb a b = true -> key_ltb b a = true -> False.
Proof.
  intros H1 H2. apply key_ltb_true in H1, H2.
  destruct H1 as [H1|[E1 H1]], H2 as [H2|[E2 H2]].
  - apply float_ltb_asym in H1. congruence.
  - rewrite E2, float_ltb_irrefl in H1. discriminate.
  - rewrite E1, float_ltb_irrefl in H2. discriminate.
  - apply float_ltb_asym in H1. congruence.
Qed.

Lemma lookup_repeat {A} (x : A) (n k : nat) : (k < n)%nat -> repeat x n !! k = Some x.
Proof.
  revert k. induction n as [|n IH]; intros k Hk; [lia|].
  destruct k as [|k]; simpl; [reflexivity|]. apply IH. lia.
Qed.

Lemma lookup_flat_map_uniform {A B} (f : A -> list B) (l : list A) (n i j : nat) (x : A) :
  (forall y, In y l -> length (f y) = n) -> l !! i = Some x -> (j < n)%nat ->
  flat_map f l !! (i * n + j)%nat = f x !! j.
Proof.
  intros Hlen Hi Hj. rewrite flat_map_concat_map.
  apply lookup_concat_uniform; [| |assumption].
  - apply List.Forall_forall. intros y Hy. apply in_map_iff in Hy.
    destruct Hy as (a & <- & Ha). apply Hlen. assumption.
  - change (map f l) with (f <$> l). rewrite list_lookup_fmap, Hi. reflexivity.
Qed.

Lemma lookup_removelast {A} (l : list A) (i : nat) :
  (i < length l - 1)%nat -> removelast l !! i = l !! i.
Proof.
  revert i. induction l as [|x l IH]; intros i Hi; [reflexivity|].
  destruct l as [|y l]; [simpl in Hi; lia|].
  destruct i as [|i]; [reflexivity|].
  change (removelast (x :: y :: l)) with (x :: removelast (y :: l)).
  cbn [lookup list_lookup]. apply IH. simpl in *. lia.
Qed.

Lemma np_repeat_length {A} (a : list A) (n : nat) :
  length (np_repeat a n) = (length a * n)%nat.
Proof.
  unfold np_repeat. induction a as [|x a IH]; simpl; [reflexivity|].
  rewrite length_app, repeat_length, IH. reflexivity.
Qed.

Lemma np_repeat_elements {A} (a : list A) (n : nat) (x : A) :
  In x (np_repeat a n) -> In x a.
Proof.
  unfold np_repeat. rewrite in_flat_map. intros (y & Hy & Hx).
  apply repeat_spec in Hx. subst. assumption.
Qed.

Lemma removelast_length {A} (l : list A) : length (removelast l) = (length l - 1)%nat.
Proof.
  induction l as [|x l IH]; [reflexivity|].
  destruct l as [|y l]; [reflexivity|].
  change (removelast (x :: y :: l)) with (x :: removelast (y :: l)).
  cbn [length] in *. rewrite IH. lia.
Qed.

Lemma comprehension_bins (grid : list float) (vs : list float) (idx : list nat) :
  length grid = 11%nat ->
  comprehension (bin_index grid) vs = Ok idx ->
  Forall (fun i => (i <= 9)%nat) idx.
Proof.
  intros Hlen H.
  destruct (bins_of_values grid vs Hlen) as (idx' & _ & _ & Hidx & _ & _ & Hrange & _).
  rewrite H in Hidx. inversion Hidx. subst.
  eapply Forall_impl; [exact Hrange|]. simpl. intros; lia.
Qed.

(** The table built from the predictions at the bin edges: what the
    grouping and the last assignment leave, when they succeed. *)
Lemma effects_table_of_predictions
  (grid : list float) (var_values_idx : list nat) (eval_times : list float)
  (upper_pred diff_pred0 diff_pred1 diff_pred2 grouped ALE_df0 tbl : table)
  (diff : list float) :
  length grid = 11%nat ->
  Forall (fun i => (i <= 9)%nat) var_values_idx ->
  StronglySorted (fun a b => Float.ltb a b = true) eval_times ->
  (forall tcol, assoc_get upper_pred "times" = Some tcol -> incl tcol eval_times) ->
  let n_times := length eval_times in
  df_select upper_pred ["pred"; "times"] = Ok diff_pred0 ->
  df_assign diff_pred0 "pred" diff = Ok diff_pred1 ->
  df_assign diff_pred1 "groups" (np_repeat (map Float.of_nat var_values_idx) n_times)
    = Ok diff_pred2 ->
  groupby_mean diff_pred2 "groups" "times" = Ok grouped ->
  df_select grouped ["groups"; "times"; "pred"] = Ok ALE_df0 ->
  df_assign ALE_df0 "group_values" (np_repeat (removelast grid) n_times) = Ok tbl ->
  exists groups times pred group_values,
    tbl = [("groups", groups); ("times", times); ("pred", pred);
           ("group_values", group_values)] /\
    length groups = (10 * n_times)%nat /\
    length times = (10 * n_times)%nat /\
    length pred = (10 * n_times)%nat /\
    length group_values = (10 * n_times)%nat /\
    forall b k, (b < 10)%nat -> (k < n_times)%nat ->
      groups !! (b * n_times + k)%nat = Some (Float.of_nat b) /\
      times !! (b * n_times + k)%nat = eval_times !! k /\
      group_values !! (b * n_times + k)%nat = grid !! b.
Proof.
  intros Hgrid Hidx Hsorted Htimes n_times Hsel Hpred Hgroups Hgb Hsel2 Hgv.
  cbn [df_select] in Hsel.
  destruct (assoc_get upper_pred "pred") as [c|] eqn:Ec; [|discriminate].
  destruct (assoc_get upper_pred "times") as [tcol|] eqn:Et; [|discriminate].
  inversion Hsel. subst diff_pred0. clear Hsel.
  unfold df_assign in Hpred. cbn [nrows snd] in Hpred.
  destruct (Nat.eqb (length diff) (length c)) eqn:Hlen1; [|discriminate].
  inversion Hpred. subst diff_pred1. clear Hpred.
  specialize (Htimes tcol eq_refl).
  change (assoc_set [("pred", c); ("times", tcol)] "pred" diff)
    with [("pred", diff); ("times", tcol)] in Hgroups.
  set (groups := np_repeat (map Float.of_nat var_values_idx) n_times) in *.
  unfold df_assign in Hgroups. cbn [nrows snd] in Hgroups.
  destruct (Nat.eqb (length groups) (length diff)) eqn:Hlen2; [|discriminate].
  change (assoc_set [("pred", diff); ("times", tcol)] "groups" groups)
    with [("pred", diff); ("times", tcol); ("groups", groups)] in Hgroups.
  inversion Hgroups. subst diff_pred2. clear Hgroups.
  set (keys := zip groups tcol).
  set (gk := group_keys keys).
  assert (Hgrouped : grouped =
            [("groups", map fst gk); ("times", map snd gk);
             ("pred", map (fun k => mean_skipna (group_values_of keys diff k)) gk)]).
  { unfold groupby_mean in Hgb.
    change (assoc_get [("pred", diff); ("times", tcol); ("groups", groups)] "groups")
      with (Some groups) in Hgb.
    change (assoc_get [("pred", diff); ("times", tcol); ("groups", groups)] "times")
      with (Some tcol) in Hgb.
    cbv zeta in Hgb. inversion Hgb. reflexivity. }
  subst grouped. clear Hgb.
  change (df_select _ ["groups"; "times"; "pred"])
    with (Ok [("groups", map fst gk); ("times", map snd gk);
              ("pred", map (fun k => mean_skipna (group_values_of keys diff k)) gk)])
    in Hsel2.
  inversion Hsel2. subst ALE_df0. clear Hsel2.
  set (group_values := np_repeat (removelast grid) n_times) in *.
  unfold df_assign in Hgv. cbn [nrows snd] in Hgv.
  destruct (Nat.eqb (length group_values) (length (map fst gk))) eqn:Hlen3; [|discriminate].
  match type of Hgv with
  | Ok (assoc_set ?t _ _) = _ =>
      change (assoc_set t "group_values" group_values)
        with (t ++ [("group_values", group_values)]) in Hgv
  end.
  inversion Hgv. subst tbl. clear Hgv.
  assert (Hgvlen : length group_values = (10 * n_times)%nat).
  { unfold group_values. rewrite np_repeat_length, removelast_length, Hgrid. reflexivity. }
  apply Nat.eqb_eq in Hlen3. rewrite length_map in Hlen3.
  assert (Hgk : gk = bin_time_keys 10 eval_times).
  { apply (sorted_incl_same_length (fun a b => key_ltb a b = true)).
    - intros a. rewrite key_ltb_irrefl. discriminate.
    - intros a b _ _. apply key_ltb_strict.
    - apply group_keys_sorted.
    - apply bin_time_keys_sorted. assumption.
    - intros k Hk. apply group_keys_elements in Hk. destruct Hk as [Hk _].
      unfold keys in Hk. apply list_elem_of_In in Hk. destruct k as [k1 k2].
      cbn [fst snd].
      assert (H1 : k1 ∈ groups) by (eapply elem_of_zip_l; eassumption).
      assert (H2 : k2 ∈ tcol) by (eapply elem_of_zip_r; eassumption).
      apply list_elem_of_In in H1, H2.
      apply np_repeat_elements, in_map_iff in H1. destruct H1 as (b & Hb & Hin).
      apply bin_time_keys_elements. exists b. cbn [fst snd]. split; [|split].
      + rewrite List.Forall_forall in Hidx. specialize (Hidx b Hin). simpl in Hidx. lia.
      + symmetry. exact Hb.
      + apply Htimes. assumption.
    - rewrite bin_time_keys_length. fold n_times. lia. }
  exists (map fst gk), (map snd gk),
         (map (fun k => mean_skipna (group_values_of keys diff k)) gk), group_values.
  split; [reflexivity|]. rewrite !length_map.
  repeat (split; [lia|]).
  intros b k Hb Hk.
  destruct (lookup_lt_is_Some_2 eval_times k Hk) as [t Ht].
  assert (Hrow : gk !! (b * n_times + k)%nat = Some (Float.of_nat b, t)).
  { rewrite Hgk. unfold bin_time_keys.
    rewrite (lookup_flat_map_uniform _ _ n_times b k b).
    - rewrite list_lookup_fmap, Ht. reflexivity.
    - intros y _. apply length_map.
    - apply lookup_seq. lia.
    - assumption. }
  repeat split.
  - change (map fst gk) with (fst <$> gk). rewrite list_lookup_fmap, Hrow. reflexivity.
  - change (map snd gk) with (snd <$> gk). rewrite list_lookup_fmap, Hrow, Ht. reflexivity.
  - destruct (lookup_lt_is_Some_2 grid b ltac:(lia)) as [g Hg].
    unfold group_values, np_repeat.
    rewrite (lookup_flat_map_uniform _ _ n_times b k g).
    + rewrite Hg. apply lookup_repeat. assumption.
    + intros y _. apply repeat_length.
    + rewrite lookup_removelast by lia. assumption.
    + assumption.
Qed.

Section EffectsRun.

Context {RandomState Model : Type}.

Local Abbreviation M := (@M RandomState) (only parsing).

Variable predict : explainer_view Model -> table -> list float -> string -> table.
Variable tie : list float -> nat -> nat -> bool.

(** What the proof needs of [predict]: the times of its rows are among the
    times it was asked for. *)
Hypothesis predict_times : forall ev d ts ty tcol,
  assoc_get (predict ev d ts ty) "times" = Some tcol -> incl tcol ts.

Lemma df_sort_values_inv (s s1 : @state RandomState) df t name l :
  read_frame (heap s) df = Some t ->
  df_sort_values tie df name s = (Ok l, s1) ->
  exists sorted cols,
    sort_values tie t name = Ok sorted /\
    heap s1 !! l = Some (DataFrame cols) /\
    read_cols (heap s1) cols = Some sorted.
Proof.
  intros Ht H. unfold df_sort_values in H.
  unfold bind at 1 in H. unfold df_read in H. rewrite Ht in H. cbn [lift_option ret] in H.
  unfold bind at 1 in H.
  destruct (sort_values tie t name) as [sorted|err] eqn:Es; cbn [lift_result ret raise] in H;
    [|discriminate].
  destruct (df_new_run sorted s) as (l' & cols & h' & Hrun & _ & Hl & Hread).
  rewrite Hrun in H. inversion H. subst. exists sorted, cols. auto.
Qed.

Lemma df_getitem_values_inv (s s1 : @state RandomState) df cols t name v :
  heap s !! df = Some (DataFrame cols) ->
  read_cols (heap s) cols = Some t ->
  df_getitem_values df name s = (Ok v, s1) ->
  s1 = s /\ exists c, assoc_get t name = Some c /\ read_array (heap s) v = Some c.
Proof.
  intros Hdf Ht H. unfold df_getitem_values in H.
  unfold bind at 1 in H. unfold load_columns in H. rewrite Hdf in H.
  apply run_lift_option_inv in H. destruct H as [Hv ->]. split; [reflexivity|].
  clear Hdf. revert t Ht. induction cols as [|x cs IH]; intros t Ht; [discriminate|].
  simpl in Ht.
  destruct (read_array (heap s) (snd x)) as [a|] eqn:Ea; [|discriminate].
  destruct (read_cols (heap s) cs) as [t'|] eqn:Et; [|discriminate].
  inversion Ht. subst t. clear Ht.
  unfold assoc_get in *. simpl in *.
  destruct (String.eqb (fst x) name).
  - simpl in *. inversion Hv. subst. eauto.
  - apply (IH Hv t' eq_refl).
Qed.

Lemma load_array_inv (s s1 : @state RandomState) l a :
  load_array l s = (Ok a, s1) -> s1 = s /\ read_array (heap s) l = Some a.
Proof.
  unfold load_array. intros H. apply run_lift_option_inv in H.
  destruct H as [H1 H2]. split; [exact H2|exact H1].
Qed.

Variables (e : explainer Model) (selected_features type : string) (D : table).

(** C1. Whenever a call to [accumulated_local_effects_plots] with the
    output type "survival" or "chf" returns a table, that table has the
    columns [groups], [times], [pred] and [group_values], each with
    10 x n_times rows, where n_times is the number of evaluation times
    derived from the explainer.  The rows come bin by bin: the row of index
    [b * n_times + k] belongs to the bin [b] (for [b] from 0 to 9), is at the
    evaluation time of index [k], and its [group_values] cell is the
    breakpoint of index [b] of the eleven quantile breakpoints of the
    selected feature, that is the lower edge of the bin.  The event times
    are assumed to hold no NaN, and [predict] to report only times it was
    asked for. *)
Theorem effects_table_shape (s : @state RandomState) (tbl : table) :
  read_frame (heap s) (data e) = Some D ->
  Forall not_nan (map fst (label e)) ->
  type = "survival" \/ type = "chf" ->
  (accumulated_local_effects_plots predict tie e selected_features type s).1 = Ok tbl ->
  exists sorted var_values grid groups times pred group_values,
    sort_values tie D selected_features = Ok sorted /\
    assoc_get sorted selected_features = Some var_values /\
    np_quantile var_values qt_list = Ok grid /\
    tbl = [("groups", groups); ("times", times); ("pred", pred);
           ("group_values", group_values)] /\
    let n_times := length (ale_eval_times e) in
    length groups = (10 * n_times)%nat /\
    length times = (10 * n_times)%nat /\
    length pred = (10 * n_times)%nat /\
    length group_values = (10 * n_times)%nat /\
    forall b k, (b < 10)%nat -> (k < n_times)%nat ->
      groups !! (b * n_times + k)%nat = Some (Float.of_nat b) /\
      times !! (b * n_times + k)%nat = ale_eval_times e !! k /\
      group_values !! (b * n_times + k)%nat = grid !! b.
Proof.
  intros Hread Hlab Hty Hrun.
  destruct (accumulated_local_effects_plots predict tie e selected_features type s)
    as [r s'] eqn:E.
  cbn [fst] in Hrun. subst r.
  unfold accumulated_local_effects_plots in E.
  destruct (df_copy_deep_run s (data e) D Hread)
    as (l1 & cols1 & h1 & Hrun1 & _ & _ & Hl1 & Hc1 & _).
  rewrite (run_bind _ _ _ _ _ Hrun1) in E.
  apply run_bind_inv in E. destruct E as (l2 & s2 & Hsort & E).
  apply df_sort_values_inv with (t := D) in Hsort;
    [|unfold read_frame; cbn [heap]; rewrite Hl1; exact Hc1].
  destruct Hsort as (sorted & cols2 & Hsorted & Hl2 & Hc2).
  apply run_bind_inv in E. destruct E as (v & s3 & Hget & E).
  apply (df_getitem_values_inv _ _ _ _ _ _ _ Hl2 Hc2) in Hget.
  destruct Hget as [-> (var_values & Hcol & Hv)].
  apply run_bind_inv in E. destruct E as (var_values' & s3 & Hload & E).
  apply load_array_inv in Hload. destruct Hload as [-> Hload].
  assert (var_values' = var_values) by congruence. subst var_values'. clear Hload.
  apply run_bind_inv in E. destruct E as (grid & s3 & Hgrid & E).
  apply run_lift_result_inv in Hgrid. destruct Hgrid as [Hgrid ->].
  apply run_bind_inv in E. destruct E as (idx & s3 & Hidx & E).
  apply run_lift_result_inv in Hidx. destruct Hidx as [Hidx ->].
  apply run_bind_inv in E. destruct E as (var_lower & s3 & _ & E).
  apply run_bind_inv in E. destruct E as (var_upper & s4 & _ & E).
  apply run_bind_inv in E. destruct E as (data_lower & s5 & _ & E).
  apply run_bind_inv in E. destruct E as (data_upper & s6 & _ & E).
  apply run_bind_inv in E. destruct E as ([] & s7 & _ & E).
  apply run_bind_inv in E. destruct E as ([] & s8 & _ & E).
  cbv zeta in E.
  apply run_bind_inv in E. destruct E as ([lower_pred upper_pred] & s9 & Hpreds & E).
  assert (Hupper : exists ev d ty, upper_pred = predict ev d (ale_eval_times e) ty).
  { destruct Hty as [-> | ->]; cbn [String.eqb Ascii.eqb Bool.eqb] in Hpreds;
      apply run_bind_inv in Hpreds; destruct Hpreds as (ev1 & t1 & _ & Hpreds);
      apply run_bind_inv in Hpreds; destruct Hpreds as (lower_v & t2 & _ & Hpreds);
      apply run_bind_inv in Hpreds; destruct Hpreds as (ev2 & t3 & _ & Hpreds);
      apply run_bind_inv in Hpreds; destruct Hpreds as (upper_v & t4 & _ & Hpreds);
      apply run_ret_inv in Hpreds; destruct Hpreds as [Hpreds _];
      inversion Hpreds; eauto. }
  clear Hpreds. cbn [fst snd] in E.
  apply run_bind_inv in E. destruct E as (diff_pred0 & t1 & Hsel & E).
  apply run_lift_result_inv in Hsel. destruct Hsel as [Hsel ->].
  apply run_bind_inv in E. destruct E as (upper_col & t1 & _ & E).
  apply run_bind_inv in E. destruct E as (lower_col & t2 & _ & E).
  apply run_bind_inv in E. destruct E as (diff & t3 & _ & E).
  apply run_bind_inv in E. destruct E as (diff_pred1 & t4 & Hpred & E).
  apply run_lift_result_inv in Hpred. destruct Hpred as [Hpred _].
  apply run_bind_inv in E. destruct E as (diff_pred2 & t5 & Hgroups & E).
  apply run_lift_result_inv in Hgroups. destruct Hgroups as [Hgroups _].
  apply run_bind_inv in E. destruct E as (grouped & t6 & Hgb & E).
  apply run_lift_result_inv in Hgb. destruct Hgb as [Hgb _].
  apply run_bind_inv in E. destruct E as (ALE_df0 & t7 & Hsel2 & E).
  apply run_lift_result_inv in Hsel2. destruct Hsel2 as [Hsel2 _].
  apply run_bind_inv in E. destruct E as (ALE_df & t8 & Hgv & E).
  apply run_lift_result_inv in Hgv. destruct Hgv as [Hgv _].
  apply run_ret_inv in E. destruct E as [-> _].
  destruct Hupper as (ev & d & ty & ->).
  assert (Hlen : length grid = 11%nat) by (eapply np_quantile_length; eassumption).
  destruct (effects_table_of_predictions grid idx (ale_eval_times e)
              (predict ev d (ale_eval_times e) ty)
              diff_pred0 diff_pred1 diff_pred2 grouped ALE_df0 tbl diff)
    as (groups & times & pred & group_values & Htbl & Hshape); try assumption.
  - eapply comprehension_bins; eassumption.
  - unfold ale_eval_times, py_slice_from_step.
    apply every_nth_sorted. apply np_unique_increasing. assumption.
  - intros tcol. apply predict_times.
  - exists sorted, var_values, grid, groups, times, pred, group_values.
    repeat (split; [assumption|]). exact Hshape.
Qed.

End EffectsRun.

Lemma example_predict_times (ev : explainer_view unit) d ts ty tcol :
  assoc_get (Example.predict ev d ts ty) "times" = Some tcol -> incl tcol ts.
Proof.
  intros H. inversion H. subst tcol. intros x Hx.
  apply in_flat_map in Hx. destruct Hx as (_ & _ & Hx). exact Hx.
Qed.

Lemma effects_table_shape_witness :
  exists tbl,
    (accumulated_local_effects_plots Example.predict stable Example.explainer0
       "x0" "survival" Example.s0).1 = Ok tbl /\
    exists sorted var_values grid groups times pred group_values,
      sort_values stable Example.data_content "x0" = Ok sorted /\
      assoc_get sorted "x0" = Some var_values /\
      np_quantile var_values qt_list = Ok grid /\
      tbl = [("groups", groups); ("times", times); ("pred", pred);
             ("group_values", group_values)] /\
      let n_times := length (ale_eval_times Example.explainer0) in
      length groups = (10 * n_times)%nat /\
      length times = (10 * n_times)%nat /\
      length pred = (10 * n_times)%nat /\
      length group_values = (10 * n_times)%nat /\
      forall b k, (b < 10)%nat -> (k < n_times)%nat ->
        groups !! (b * n_times + k)%nat = Some (Float.of_nat b) /\
        times !! (b * n_times + k)%nat = ale_eval_times Example.explainer0 !! k /\
        group_values !! (b * n_times + k)%nat = grid !! b.
Proof.
  eexists. split; [vm_compute; reflexivity|].
  apply (effects_table_shape Example.predict stable example_predict_times
           Example.explainer0 "x0" "survival" Example.data_content Example.s0).
  - exact example_data_content.
  - exact example_labels_not_nan.
  - left. reflexivity.
  - vm_compute. reflexivity.
Defined.

(** A call does not always return: when no observation falls in one of the
    ten bins, the table of the groups has fewer rows than the column
    [group_values], and the last assignment raises. *)
Lemma effects_raise_when_a_bin_is_empty :
  (accumulated_local_effects_plots Example.predict stable Example.explainer0
     "x1" "survival" Example.s0).1
  = Raise (ValueError "Length of values does not match length of index").
Proof. vm_compute. reflexivity. Qed.

(** * Further properties of the engines *)

(** ** Frames that stay as they are *)

Lemma read_array_delete_frame (h : gmap loc obj) l cols b a :
  h !! l = Some (DataFrame cols) -> read_array h b = Some a ->
  read_array (delete l h) b = Some a.
Proof.
  intros Hl. unfold read_array.
  destruct (h !! b) as [[a'|cols']|] eqn:E; intros H; inversion H; subst.
  rewrite lookup_delete_ne by congruence. rewrite E. reflexivity.
Qed.

Lemma read_cols_delete_frame (h : gmap loc obj) l cols cs t :
  h !! l = Some (DataFrame cols) -> read_cols h cs = Some t ->
  read_cols (delete l h) cs = Some t.
Proof.
  intros Hl. revert t. induction cs as [|c cs IH]; intros t; simpl; [auto|].
  destruct (read_array h (snd c)) as [a|] eqn:E; [|discriminate].
  destruct (read_cols h cs) as [t'|] eqn:E'; [|discriminate].
  intros H. rewrite (read_array_delete_frame _ _ _ _ _ Hl E), (IH _ eq_refl). assumption.
Qed.

Lemma read_frame_delete_frame (h : gmap loc obj) l cols df t :
  h !! l = Some (DataFrame cols) -> l <> df -> read_frame h df = Some t ->
  read_frame (delete l h) df = Some t.
Proof.
  intros Hl Hne. unfold read_frame.
  destruct (h !! df) as [[a|cs]|] eqn:E; intros H; inversion H.
  rewrite lookup_delete_ne by assumption. rewrite E, H.
  eapply read_cols_delete_frame; eassumption.
Qed.

(** ** Sorting a rectangular frame *)

Definition rectangular {C} (t : frame C) : Prop :=
  Forall (fun c => length (snd c) = nrows t) t.

Lemma gather_length {C} (col : list C) (idx : list nat) :
  Forall (fun i => (i < length col)%nat) idx -> length (gather col idx) = length idx.
Proof.
  unfold gather. induction idx as [|i idx IH]; intros H; [reflexivity|].
  inversion H as [|? ? Hi H']. subst.
  destruct (lookup_lt_is_Some_2 col i Hi) as [x Hx].
  cbn [omap list_omap]. rewrite Hx. cbn [length]. f_equal. apply IH. assumption.
Qed.

Lemma rectangular_column {C} (t : frame C) name (c : list C) :
  rectangular t -> assoc_get t name = Some c -> length c = nrows t.
Proof.
  unfold rectangular, assoc_get. intros Hr H.
  destruct (List.find (fun c => String.eqb (fst c) name) t) as [x|] eqn:E; [|discriminate].
  apply find_some in E. destruct E as [Hin _]. inversion H. subst.
  rewrite List.Forall_forall in Hr. apply Hr. assumption.
Qed.

Lemma sort_values_rectangular tie (t sorted : table) name :
  rectangular t -> sort_values tie t name = Ok sorted ->
  rectangular sorted /\ nrows sorted = nrows t /\ columns sorted = columns t.
Proof.
  intros Hr H. unfold sort_values in H.
  destruct (assoc_get t name) as [keys|] eqn:E; [|discriminate].
  pose proof (rectangular_column t name keys Hr E) as Hk.
  inversion H. clear H.
  set (idx := argsort tie keys).
  assert (Hperm : Permutation idx (seq 0 (length keys))).
  { unfold idx, argsort. rewrite isort_perm. rewrite snd_zip; [reflexivity|].
    rewrite length_seq. lia. }
  assert (Hlen : length idx = nrows t).
  { rewrite (Permutation_length Hperm), length_seq. assumption. }
  assert (Hidx : forall c, In c t -> length (gather (snd c) idx) = nrows t).
  { intros c Hc. rewrite gather_length; [assumption|].
    apply List.Forall_forall. intros i Hi.
    apply (Permutation_in _ Hperm), in_seq in Hi.
    unfold rectangular in Hr. rewrite List.Forall_forall in Hr. rewrite (Hr c Hc). lia. }
  assert (Hn : nrows (map (fun c => (fst c, gather (snd c) idx)) t) = nrows t).
  { destruct t as [|c t']; [reflexivity|]. cbn [map nrows snd]. apply Hidx. left. reflexivity. }
  split; [|split].
  - unfold rectangular. rewrite Hn. apply List.Forall_forall. intros c Hc.
    apply in_map_iff in Hc. destruct Hc as (c0 & <- & Hc0). cbn [snd]. apply Hidx. assumption.
  - exact Hn.
  - unfold columns. rewrite map_map. reflexivity.
Qed.

Lemma sort_values_ok tie (t : table) name c :
  assoc_get t name = Some c -> exists sorted, sort_values tie t name = Ok sorted.
Proof. intros H. unfold sort_values. rewrite H. eauto. Qed.

Lemma sort_values_unknown tie (t : table) name :
  assoc_get t name = None -> sort_values tie t name = Raise (KeyError name).
Proof. intros H. unfold sort_values. rewrite H. reflexivity. Qed.

Lemma np_quantile_ok (a : list float) :
  a <> [] -> exists grid, np_quantile a qt_list = Ok grid.
Proof.
  intros Ha. destruct qt_list_levels as (levels & Hl & _).
  unfold np_quantile. rewrite Hl. destruct a as [|x a]; [contradiction|].
  destruct (existsb Float.is_nan (x :: a)); eauto.
Qed.

Lemma comprehension_length {A B} (f : A -> result B) (l : list A) (l' : list B) :
  comprehension f l = Ok l' -> length l' = length l.
Proof.
  revert l'. induction l as [|x l IH]; intros l' H; simpl in H.
  - inversion H. reflexivity.
  - destruct (f x) as [y|]; [|discriminate]. simpl in H.
    destruct (comprehension f l) as [ys|]; [|discriminate]. simpl in H.
    inversion H. simpl. f_equal. apply IH. reflexivity.
Qed.

(** ** Accumulated local effects: what a call computes *)

Definition of_option {A} (e : exn) (o : option A) : result A :=
  match o with Some a => Ok a | None => Raise e end.

(** The table made of the predictions at the lower and upper edges of the
    bins: the part of [accumulated_local_effects_plots] that follows the
    predictions. *)
Definition local_effects (grid_qt_values : list float) (var_values_idx : list nat)
  (eval_times : list float) (lower_pred upper_pred : table) : result table :=
  let n_times := length eval_times in
  let groups := np_repeat (map Float.of_nat var_values_idx) n_times in
  rbind (df_select upper_pred ["pred"; "times"]) (fun diff_pred =>
  rbind (of_option (KeyError "pred") (assoc_get diff_pred "pred")) (fun upper_col =>
  rbind (of_option (KeyError "pred") (assoc_get lower_pred "pred")) (fun lower_col =>
  rbind (np_broadcast Float.sub upper_col lower_col) (fun diff =>
  rbind (df_assign diff_pred "pred" diff) (fun diff_pred =>
  rbind (df_assign diff_pred "groups" groups) (fun diff_pred =>
  rbind (groupby_mean diff_pred "groups" "times") (fun grouped =>
  rbind (df_select grouped ["groups"; "times"; "pred"]) (fun ALE_df =>
  let group_values := np_repeat (removelast grid_qt_values) n_times in
  df_assign ALE_df "group_values" group_values)))))))).

Section EffectsForward.

Context {RandomState Model : Type}.

Local Abbreviation M := (@M RandomState) (only parsing).

Variable predict : explainer_view Model -> table -> list float -> string -> table.
Variable tie : list float -> nat -> nat -> bool.
Variables (e : explainer Model) (selected_features : string).

(** The dataset of the explainer, its rows sorted by the selected feature,
    the values of that feature, their breakpoints, and the bin and the bin
    edges of every row. *)
Variables (D sorted : table) (var_values grid_qt_values : list float).
Variables (var_values_idx : list nat) (var_lower var_upper : list float).

Hypothesis data_rectangular : rectangular D.
Hypothesis data_sorted : sort_values tie D selected_features = Ok sorted.
Hypothesis feature_values : assoc_get sorted selected_features = Some var_values.
Hypothesis breakpoints : np_quantile var_values qt_list = Ok grid_qt_values.
Hypothesis bins :
  comprehension (bin_index grid_qt_values) var_values = Ok var_values_idx.
Hypothesis lower_edges :
  comprehension (fun i => np_getitem grid_qt_values i) var_values_idx = Ok var_lower.
Hypothesis upper_edges :
  comprehension (fun i => np_getitem grid_qt_values (i + 1)) var_values_idx = Ok var_upper.

(** What [predict] is given: the explainer with its dataset as it is, and
    the sorted rows with the selected feature at an edge of its bin. *)
Definition explainer_seen : explainer_view Model := ExplainerView (model e) D (label e).

Definition data_at (edges : list float) : table := assoc_set sorted selected_features edges.

Definition edge_prediction (edges : list float) (type : string) : table :=
  predict explainer_seen (data_at edges) (ale_eval_times e) type.

Lemma edges_length (edges : list float) :
  length edges = length var_values_idx -> length edges = nrows sorted.
Proof.
  intros H. rewrite H, (comprehension_length _ _ _ bins).
  destruct (sort_values_rectangular tie D sorted selected_features data_rectangular data_sorted)
    as (Hr & _ & _).
  apply (rectangular_column sorted selected_features); assumption.
Qed.

Lemma effects_tail_run (lower_pred upper_pred : table) (s : @state RandomState) :
  (let n_times := length (ale_eval_times e) in
   let groups := np_repeat (map Float.of_nat var_values_idx) n_times in
   let! diff_pred := lift_result (df_select upper_pred ["pred"; "times"]) in
   let! upper_col := lift_option (KeyError "pred") (assoc_get diff_pred "pred") in
   let! lower_col := lift_option (KeyError "pred") (assoc_get lower_pred "pred") in
   let! diff := lift_result (np_broadcast Float.sub upper_col lower_col) in
   let! diff_pred := lift_result (df_assign diff_pred "pred" diff) in
   let! diff_pred := lift_result (df_assign diff_pred "groups" groups) in
   let! grouped := lift_result (groupby_mean diff_pred "groups" "times") in
   let! ALE_df := lift_result (df_select grouped ["groups"; "times"; "pred"]) in
   let group_values := np_repeat (removelast grid_qt_values) n_times in
   let! ALE_df := lift_result (df_assign ALE_df "group_values" group_values) in
   ret ALE_df) s
  = (local_effects grid_qt_values var_values_idx (ale_eval_times e) lower_pred upper_pred, s).
Proof.
  cbv zeta. unfold local_effects. cbv zeta.
  repeat match goal with
         | |- bind (lift_result ?r) _ _ = _ =>
             unfold bind at 1; destruct r; cbn [lift_result ret raise rbind]; [|reflexivity]
         | |- bind (lift_option _ ?o) _ _ = _ =>
             unfold bind at 1; destruct o;
             cbn [lift_option of_option ret raise rbind]; [|reflexivity]
         end.
  reflexivity.
Qed.

(** The call, from a state [s] whose heap holds the dataset of the
    explainer. *)
Lemma effects_run (type : string) (s : @state RandomState) :
  read_frame (heap s) (data e) = Some D ->
  exists h',
    heap s ⊆ h' /\
    accumulated_local_effects_plots predict tie e selected_features type s
    = (if String.eqb type "survival" || String.eqb type "chf"
       then local_effects grid_qt_values var_values_idx (ale_eval_times e)
              (edge_prediction var_lower type) (edge_prediction var_upper type)
       else Raise (ValueError "Unsupported"),
       State h' (rng s)).
Proof.
  intros Hread.
  destruct (df_copy_deep_run s (data e) D Hread)
    as (l1 & cols1 & h1 & Hrun1 & Hsub1 & _ & Hl1 & Hc1 & _).
  destruct (df_new_run sorted (State h1 (rng s)))
    as (l2 & cols2 & h2 & Hrun2 & Hsub2 & Hl2 & Hc2). cbn [heap rng] in *.
  destruct (read_cols_get h2 cols2 sorted selected_features var_values Hc2 feature_values)
    as (v & Hv & Hrv).
  assert (Hr2 : read_frame h2 l2 = Some sorted) by (unfold read_frame; rewrite Hl2; exact Hc2).
  destruct (df_copy_deep_run (State h2 (rng s)) l2 sorted Hr2)
    as (l3 & cols3 & h3 & Hrun3 & Hsub3 & Hn3 & Hl3 & Hc3 & _). cbn [heap rng] in *.
  destruct (df_copy_deep_run (State h3 (rng s)) l2 sorted
              (read_frame_mono _ _ _ _ Hsub3 Hr2))
    as (l4 & cols4 & h4 & Hrun4 & Hsub4 & Hn4 & Hl4 & Hc4 & _). cbn [heap rng] in *.
  assert (Hne : l3 <> l4).
  { intros ->. rewrite Hl3 in Hn4. discriminate. }
  assert (Hl3' : h4 !! l3 = Some (DataFrame cols3)) by (eapply lookup_weaken; eassumption).
  destruct (df_setitem_run (State h4 (rng s)) l3 cols3 sorted selected_features var_lower
              Hl3' (read_cols_mono _ _ _ _ Hsub4 Hc3))
    as (h5 & Hrun5 & Hr5 & Hframe5).
  { right. apply edges_length. eapply comprehension_length. exact lower_edges. }
  cbn [heap rng] in *.
  assert (Hkeep5 : delete l3 h4 ⊆ h5).
  { apply Hframe5; [apply delete_subseteq|apply lookup_delete_eq]. }
  assert (Hl4' : h5 !! l4 = Some (DataFrame cols4)).
  { eapply lookup_weaken; [|exact Hkeep5]. rewrite lookup_delete_ne by assumption. exact Hl4. }
  assert (Hc4' : read_cols h5 cols4 = Some sorted).
  { eapply read_cols_mono; [exact Hkeep5|].
    eapply read_cols_delete_frame; eassumption. }
  destruct (df_setitem_run (State h5 (rng s)) l4 cols4 sorted selected_features var_upper
              Hl4' Hc4')
    as (h6 & Hrun6 & Hr6 & Hframe6).
  { right. apply edges_length. eapply comprehension_length. exact upper_edges. }
  cbn [heap rng] in *.
  assert (Hkeep6 : delete l4 h5 ⊆ h6).
  { apply Hframe6; [apply delete_subseteq|apply lookup_delete_eq]. }
  assert (Hr5' : read_frame h6 l3 = Some (data_at var_lower)).
  { eapply read_frame_mono; [exact Hkeep6|].
    eapply read_frame_delete_frame; [exact Hl4'|congruence|exact Hr5]. }
  assert (Hs2 : heap s ⊆ h2) by (etrans; eassumption).
  assert (Hs4 : heap s ⊆ h4) by (etrans; [exact Hs2|etrans; eassumption]).
  assert (Hs5 : heap s ⊆ h5).
  { apply Hframe5; [assumption|]. eapply lookup_None_weaken; [exact Hs2|exact Hn3]. }
  assert (Hs6 : heap s ⊆ h6).
  { apply Hframe6; [assumption|].
    eapply lookup_None_weaken; [|exact Hn4]. etrans; [exact Hs2|exact Hsub3]. }
  assert (HD6 : read_frame h6 (data e) = Some D) by (eapply read_frame_mono; eassumption).
  exists h6. split; [assumption|].
  unfold accumulated_local_effects_plots.
  rewrite (run_bind _ _ _ _ _ Hrun1).
  unfold df_sort_values at 1. unfold bind at 1. unfold bind at 1. unfold bind at 1.
  unfold df_read at 1. cbn [heap]. unfold read_frame at 1. rewrite Hl1, Hc1.
  cbn [lift_option ret]. rewrite data_sorted. cbn [lift_result ret]. rewrite Hrun2.
  unfold df_getitem_values at 1. unfold bind at 1. unfold bind at 1.
  unfold load_columns at 1. cbn [heap]. rewrite Hl2, Hv. cbn [lift_option ret].
  unfold bind at 1. unfold load_array at 1. cbn [heap]. rewrite Hrv. cbn [lift_option ret].
  rewrite breakpoints. unfold bind at 1. cbn [lift_result ret].
  rewrite bins. unfold bind at 1. cbn [lift_result ret].
  rewrite lower_edges. unfold bind at 1. cbn [lift_result ret].
  rewrite upper_edges. unfold bind at 1. cbn [lift_result ret].
  rewrite (run_bind _ _ _ _ _ Hrun3).
  rewrite (run_bind _ _ _ _ _ Hrun4).
  rewrite (run_bind _ _ _ _ _ Hrun5).
  rewrite (run_bind _ _ _ _ _ Hrun6).
  cbv zeta.
  assert (Hview : forall k : explainer_view Model -> M (table * table),
             bind (view_of e) k (State h6 (rng s)) = k explainer_seen (State h6 (rng s))).
  { intros k. unfold view_of. unfold bind at 1. unfold bind at 1.
    unfold df_read. cbn [heap]. rewrite HD6. reflexivity. }
  assert (Hlower : forall k : table -> M (table * table),
             bind (df_read l3) k (State h6 (rng s)) = k (data_at var_lower) (State h6 (rng s))).
  { intros k. unfold bind, df_read. cbn [heap]. rewrite Hr5'. reflexivity. }
  assert (Hupper : forall k : table -> M (table * table),
             bind (df_read l4) k (State h6 (rng s)) = k (data_at var_upper) (State h6 (rng s))).
  { intros k. unfold bind, df_read. cbn [heap]. rewrite Hr6. reflexivity. }
  unfold bind at 1.
  destruct (String.eqb type "survival") eqn:Et1; [|destruct (String.eqb type "chf") eqn:Et2];
    cbn [orb].
  - apply String.eqb_eq in Et1. subst type.
    rewrite Hview, Hlower, Hview, Hupper. cbn [ret fst snd].
    apply effects_tail_run.
  - apply String.eqb_eq in Et2. subst type.
    rewrite Hview, Hlower, Hview, Hupper. cbn [ret fst snd].
    apply effects_tail_run.
  - reflexivity.
Qed.

End EffectsForward.


Lemma of_nat_injective (a b : nat) : Float.of_nat a = Float.of_nat b -> a = b.
Proof.
  intros H. destruct (Nat.lt_trichotomy a b) as [Hlt|[Heq|Hlt]]; [|assumption|].
  - apply of_nat_increasing in Hlt. rewrite H, float_ltb_irrefl in Hlt. discriminate.
  - apply of_nat_increasing in Hlt. rewrite H, float_ltb_irrefl in Hlt. discriminate.
Qed.


Section EffectsReturned.

Context {RandomState Model : Type}.

Local Abbreviation M := (@M RandomState) (only parsing).

Variable predict : explainer_view Model -> table -> list float -> string -> table.
Variable tie : list float -> nat -> nat -> bool.
Variables (e : explainer Model) (selected_features type : string).


(** X1. A call to [accumulated_local_effects_plots] with an output type
    other than "survival" and "chf" never returns a table.  When the dataset
    of the explainer has the selected feature and at least one row, the
    exception is [ValueError("Unsupported")]; it is raised after the data
    were copied, sorted and binned, when the predictions are due. *)
Theorem effects_unsupported_type_raises (s : @state RandomState) :
  String.eqb type "survival" = false ->
  String.eqb type "chf" = false ->
  (forall tbl,
     (accumulated_local_effects_plots predict tie e selected_features type s).1 <> Ok tbl) /\
  (forall D c,
     read_frame (heap s) (data e) = Some D -> rectangular D ->
     assoc_get D selected_features = Some c -> c <> [] ->
     (accumulated_local_effects_plots predict tie e selected_features type s).1
     = Raise (ValueError "Unsupported")).
Proof.
  intros Ht1 Ht2. split.
  - intros tbl Hrun.
    destruct (accumulated_local_effects_plots predict tie e selected_features type s)
      as [r s'] eqn:E.
    cbn [fst] in Hrun. subst r. unfold accumulated_local_effects_plots in E.
    do 12 (apply run_bind_inv in E; destruct E as (? & ? & _ & E)).
    cbv zeta in E. apply run_bind_inv in E. destruct E as (preds & s9 & Hpreds & _).
    rewrite Ht1, Ht2 in Hpreds. discriminate.
  - intros D c Hread Hrect Hc Hne.
    destruct (sort_values_ok tie D selected_features c Hc) as [sorted Hsorted].
    destruct (sort_values_rectangular tie D sorted selected_features Hrect Hsorted)
      as (Hrs & Hn & Hcols).
    destruct (sort_values_column tie D sorted selected_features Hsorted)
      as (keys & Hkeys & var_values & Hvar).
    assert (Hvne : var_values <> []).
    { intros ->. pose proof (rectangular_column _ _ _ Hrs Hvar) as H1.
      pose proof (rectangular_column _ _ _ Hrect Hc) as H2.
      destruct c; [contradiction|]. simpl in *. lia. }
    destruct (np_quantile_ok var_values Hvne) as [grid Hgrid].
    destruct (bins_of_values grid var_values (np_quantile_length _ _ Hgrid))
      as (idx & lower & upper & Hidx & Hlower & Hupper & _).
    destruct (effects_run predict tie e selected_features D sorted var_values grid idx
                lower upper Hrect Hsorted Hvar Hgrid Hidx Hlower Hupper type s Hread)
      as (h' & _ & Hrun).
    rewrite Hrun, Ht1, Ht2. reflexivity.
Qed.

Lemma effects_unknown_feature_run (s : @state RandomState) (D : table) :
  read_frame (heap s) (data e) = Some D ->
  assoc_get D selected_features = None ->
  (accumulated_local_effects_plots predict tie e selected_features type s).1
  = Raise (KeyError selected_features).
Proof.
  intros Hread Hnone.
  destruct (df_copy_deep_run s (data e) D Hread)
    as (l1 & cols1 & h1 & Hrun1 & _ & _ & Hl1 & Hc1 & _).
  unfold accumulated_local_effects_plots.
  rewrite (run_bind _ _ _ _ _ Hrun1).
  unfold df_sort_values at 1. unfold bind at 1. unfold bind at 1. unfold bind at 1.
  unfold df_read at 1. cbn [heap]. unfold read_frame at 1. rewrite Hl1, Hc1.
  cbn [lift_option ret]. rewrite (sort_values_unknown tie D selected_features Hnone).
  reflexivity.
Qed.

(** X2. When the dataset of the explainer has no column named as the
    selected feature, [accumulated_local_effects_plots] raises the
    [KeyError] of the sort, whatever the output type. *)
Theorem effects_unknown_feature_raises (s : @state RandomState) (D : table) :
  read_frame (heap s) (data e) = Some D ->
  assoc_get D selected_features = None ->
  (accumulated_local_effects_plots predict tie e selected_features type s).1
  = Raise (KeyError selected_features).
Proof. apply effects_unknown_feature_run. Qed.


End EffectsReturned.

Lemma eval_times_increasing {Model : Type} (e : explainer Model) :
  Forall not_nan (map fst (label e)) ->
  StronglySorted (fun a b => Float.ltb a b = true) (ale_eval_times e).
Proof.
  intros Hlab. unfold ale_eval_times, py_slice_from_step.
  apply every_nth_sorted. apply np_unique_increasing. assumption.
Qed.

Lemma eval_times_not_nan {Model : Type} (e : explainer Model) (t : float) :
  Forall not_nan (map fst (label e)) -> In t (ale_eval_times e) -> not_nan t.
Proof.
  intros Hlab Ht. unfold ale_eval_times, py_slice_from_step in Ht.
  apply every_nth_incl in Ht. apply (proj1 (np_unique_elements _ _)) in Ht.
  rewrite List.Forall_forall in Hlab. apply Hlab. assumption.
Qed.



Section EffectsProperties.

Context {RandomState Model : Type}.

Variable predict : explainer_view Model -> table -> list float -> string -> table.
Variable tie : list float -> nat -> nat -> bool.

Hypothesis predict_times : forall ev d ts ty tcol,
  assoc_get (predict ev d ts ty) "times" = Some tcol -> incl tcol ts.

Variables (e : explainer Model) (selected_features type : string).

Hypothesis event_times : Forall not_nan (map fst (label e)).



End EffectsProperties.

Lemma example_data_rectangular : rectangular Example.data_content.
Proof. repeat constructor. Qed.

Lemma effects_unsupported_type_raises_witness :
  (forall tbl,
     (accumulated_local_effects_plots Example.predict stable Example.explainer0
        "x0" "risk" Example.s0).1 <> Ok tbl) /\
  (accumulated_local_effects_plots Example.predict stable Example.explainer0
     "x0" "risk" Example.s0).1 = Raise (ValueError "Unsupported").
Proof.
  destruct (effects_unsupported_type_raises Example.predict stable Example.explainer0
              "x0" "risk" Example.s0 eq_refl eq_refl) as [Hnever Hraise].
  split; [exact Hnever|].
  apply (Hraise Example.data_content
           (map Example.fz [3; 0; 10; 7; 1; 9; 2; 8; 4; 6; 5]%Z)).
  - exact example_data_content.
  - exact example_data_rectangular.
  - reflexivity.
  - discriminate.
Defined.

Lemma effects_unknown_feature_raises_witness :
  (accumulated_local_effects_plots Example.predict stable Example.explainer0
     "age" "survival" Example.s0).1 = Raise (KeyError "age").
Proof.
  apply (effects_unknown_feature_raises Example.predict stable Example.explainer0
           "age" "survival" Example.s0 Example.data_content).
  - exact example_data_content.
  - reflexivity.
Defined.



(** ** Accumulated local effects: no hidden state *)

Section EffectsContent.

Context {RandomState Model : Type}.

Local Abbreviation M := (@M RandomState) (only parsing).

Variable predict : explainer_view Model -> table -> list float -> string -> table.
Variable tie : list float -> nat -> nat -> bool.
Variables (e : explainer Model) (selected_features type : string).

Lemma effects_quantile_raise (s : @state RandomState) (D sorted : table)
  (var_values : list float) (err : exn) :
  read_frame (heap s) (data e) = Some D ->
  sort_values tie D selected_features = Ok sorted ->
  assoc_get sorted selected_features = Some var_values ->
  np_quantile var_values qt_list = Raise err ->
  (accumulated_local_effects_plots predict tie e selected_features type s).1 = Raise err.
Proof.
  intros Hread Hsorted Hvar Hq.
  destruct (df_copy_deep_run s (data e) D Hread)
    as (l1 & cols1 & h1 & Hrun1 & Hsub1 & _ & Hl1 & Hc1 & _).
  destruct (df_new_run sorted (State h1 (rng s)))
    as (l2 & cols2 & h2 & Hrun2 & Hsub2 & Hl2 & Hc2). cbn [heap rng] in *.
  destruct (read_cols_get h2 cols2 sorted selected_features var_values Hc2 Hvar)
    as (v & Hv & Hrv).
  unfold accumulated_local_effects_plots.
  rewrite (run_bind _ _ _ _ _ Hrun1).
  unfold df_sort_values at 1. unfold bind at 1. unfold bind at 1. unfold bind at 1.
  unfold df_read at 1. cbn [heap]. unfold read_frame at 1. rewrite Hl1, Hc1.
  cbn [lift_option ret]. rewrite Hsorted. cbn [lift_result ret]. rewrite Hrun2.
  unfold df_getitem_values at 1. unfold bind at 1. unfold bind at 1.
  unfold load_columns at 1. cbn [heap]. rewrite Hl2, Hv. cbn [lift_option ret].
  unfold bind at 1. unfold load_array at 1. cbn [heap]. rewrite Hrv. cbn [lift_option ret].
  rewrite Hq. reflexivity.
Qed.

(** The outcome of a call, as a function of the content of the dataset. *)
Lemma effects_outcome (D : table) :
  rectangular D ->
  exists outcome : result table,
    forall s : @state RandomState,
      read_frame (heap s) (data e) = Some D ->
      (accumulated_local_effects_plots predict tie e selected_features type s).1 = outcome.
Proof.
  intros Hrect.
  destruct (assoc_get D selected_features) as [c|] eqn:Hc.
  - destruct (sort_values_ok tie D selected_features c Hc) as [sorted Hsorted].
    destruct (sort_values_column tie D sorted selected_features Hsorted)
      as (keys & _ & var_values & Hvar).
    destruct (np_quantile var_values qt_list) as [grid|err] eqn:Hgrid.
    + destruct (bins_of_values grid var_values (np_quantile_length _ _ Hgrid))
        as (idx & lower & upper & Hidx & Hlower & Hupper & _).
      eexists. intros s Hread.
      destruct (effects_run predict tie e selected_features D sorted var_values grid idx
                  lower upper Hrect Hsorted Hvar Hgrid Hidx Hlower Hupper type s Hread)
        as (h' & _ & Hrun).
      rewrite Hrun. cbn [fst]. reflexivity.
    + exists (Raise err). intros s Hread.
      eapply effects_quantile_raise; eassumption.
  - exists (Raise (KeyError selected_features)). intros s Hread.
    eapply effects_unknown_feature_run; eassumption.
Qed.

(** X5. The outcome of [accumulated_local_effects_plots], the table or the
    exception, depends on the state only through the content of the dataset
    of the explainer: two calls in states where the dataset has the same
    content have the same outcome, wherever the objects are in the heap and
    whatever the state of the random generator.  In particular a second call,
    made in the state the first one leaves, has the outcome of the first. *)
Theorem effects_repeatable (s1 s2 : @state RandomState) (D : table) :
  rectangular D ->
  read_frame (heap s1) (data e) = Some D ->
  read_frame (heap s2) (data e) = Some D ->
  let first := accumulated_local_effects_plots predict tie e selected_features type s1 in
  (accumulated_local_effects_plots predict tie e selected_features type s2).1 = first.1 /\
  (accumulated_local_effects_plots predict tie e selected_features type first.2).1 = first.1.
Proof.
  intros Hrect H1 H2 first.
  destruct (effects_outcome D Hrect) as [outcome Hout].
  assert (Hkept : read_frame (heap first.2) (data e) = Some D).
  { eapply read_frame_mono; [|exact H1].
    apply (keeps_accumulated_local_effects_plots (heap s1) predict tie
             e selected_features type s1 (frame_inv_init _)). }
  unfold first in *. rewrite (Hout s1 H1), (Hout s2 H2), (Hout _ Hkept). split; reflexivity.
Qed.

End EffectsContent.

Lemma effects_repeatable_witness :
  let s2 := (partial_dependence_plots Example.individual_conditional_expectation
               Example.explainer0 "x0" 100 50 "survival" Example.s0).2 in
  let first := accumulated_local_effects_plots Example.predict stable Example.explainer0
                 "x0" "survival" Example.s0 in
  (accumulated_local_effects_plots Example.predict stable Example.explainer0
     "x0" "survival" s2).1 = first.1 /\
  (accumulated_local_effects_plots Example.predict stable Example.explainer0
     "x0" "survival" first.2).1 = first.1.
Proof.
  apply (effects_repeatable Example.predict stable Example.explainer0 "x0" "survival"
           Example.s0 _ Example.data_content).
  - exact example_data_rectangular.
  - exact example_data_content.
  - vm_compute. reflexivity.
Defined.

(** ** The random generator *)

Section Generator.

Context {RandomState Model : Type}.

Local Abbreviation M := (@M RandomState) (only parsing).

(** [m] leaves the random generator in the state it finds it in. *)
Definition leaves_generator {A} (m : M A) : Prop :=
  forall s : @state RandomState, rng (m s).2 = rng s.

Lemma leaves_ret {A} (a : A) : leaves_generator (ret a).
Proof. intros s. reflexivity. Qed.

Lemma leaves_raise {A} (err : exn) : leaves_generator (@raise RandomState A err).
Proof. intros s. reflexivity. Qed.

Lemma leaves_bind {A B} (m : M A) (k : A -> M B) :
  leaves_generator m -> (forall a, leaves_generator (k a)) -> leaves_generator (bind m k).
Proof.
  intros Hm Hk s. specialize (Hm s). unfold bind.
  destruct (m s) as [[a|err] s1]; cbn [snd] in *.
  - rewrite Hk. exact Hm.
  - exact Hm.
Qed.

Lemma leaves_lift_result {A} (r : result A) : leaves_generator (lift_result r).
Proof. intros s. destruct r; reflexivity. Qed.

Lemma leaves_lift_option {A} err (o : option A) : leaves_generator (lift_option err o).
Proof. intros s. destruct o; reflexivity. Qed.

Lemma leaves_alloc (o : obj) : leaves_generator (alloc o).
Proof. intros s. reflexivity. Qed.

Lemma leaves_store l (o : obj) : leaves_generator (store l o).
Proof. intros s. reflexivity. Qed.

Lemma leaves_load_array l : leaves_generator (load_array l).
Proof. intros s. unfold load_array. apply leaves_lift_option. Qed.

Lemma leaves_load_columns l : leaves_generator (load_columns l).
Proof. intros s. unfold load_columns. destruct (heap s !! l) as [[a|cols]|]; reflexivity. Qed.

Lemma leaves_df_read l : leaves_generator (df_read l).
Proof. intros s. unfold df_read. apply leaves_lift_option. Qed.

Lemma leaves_copy_columns cols : leaves_generator (copy_columns cols).
Proof.
  induction cols as [|c cs IH]; cbn [copy_columns]; [apply leaves_ret|].
  apply leaves_bind; [apply leaves_load_array|intros a].
  apply leaves_bind; [apply leaves_alloc|intros l].
  apply leaves_bind; [exact IH|intros cs']. apply leaves_ret.
Qed.

Lemma leaves_alloc_columns t : leaves_generator (alloc_columns t).
Proof.
  induction t as [|c cs IH]; cbn [alloc_columns]; [apply leaves_ret|].
  apply leaves_bind; [apply leaves_alloc|intros l].
  apply leaves_bind; [exact IH|intros cs']. apply leaves_ret.
Qed.

Lemma leaves_df_copy_deep df : leaves_generator (df_copy_deep df).
Proof.
  unfold df_copy_deep.
  apply leaves_bind; [apply leaves_load_columns|intros cols].
  apply leaves_bind; [apply leaves_copy_columns|intros cols']. apply leaves_alloc.
Qed.

Lemma leaves_df_sort_values tie df name : leaves_generator (df_sort_values tie df name).
Proof.
  unfold df_sort_values, df_new.
  apply leaves_bind; [apply leaves_df_read|intros t].
  apply leaves_bind; [apply leaves_lift_result|intros sorted].
  apply leaves_bind; [apply leaves_alloc_columns|intros cols]. apply leaves_alloc.
Qed.

Lemma leaves_df_getitem_values df name : leaves_generator (df_getitem_values df name).
Proof.
  unfold df_getitem_values.
  apply leaves_bind; [apply leaves_load_columns|intros cols]. apply leaves_lift_option.
Qed.

Lemma leaves_df_setitem df name vals : leaves_generator (df_setitem df name vals).
Proof.
  unfold df_setitem.
  apply leaves_bind; [apply leaves_load_columns|intros cols].
  apply leaves_bind; [apply leaves_df_read|intros t].
  apply leaves_bind; [apply leaves_lift_result|intros t'].
  apply leaves_bind; [apply leaves_alloc|intros b]. apply leaves_store.
Qed.

Lemma leaves_view_of (e : explainer Model) : leaves_generator (view_of e).
Proof.
  unfold view_of. apply leaves_bind; [apply leaves_df_read|intros d]. apply leaves_ret.
Qed.

Ltac leaves_primitive m :=
  lazymatch m with
  | df_copy_deep _ => apply leaves_df_copy_deep
  | df_getitem_values _ _ => apply leaves_df_getitem_values
  | df_setitem _ _ _ => apply leaves_df_setitem
  | df_sort_values _ _ _ => apply leaves_df_sort_values
  | load_array _ => apply leaves_load_array
  | df_read _ => apply leaves_df_read
  | view_of _ => apply leaves_view_of
  | lift_result _ => apply leaves_lift_result
  | lift_option _ _ => apply leaves_lift_option
  end.

Ltac leaves_next :=
  lazymatch goal with
  | |- leaves_generator (ret _) => apply leaves_ret
  | |- leaves_generator (raise _) => apply leaves_raise
  | |- leaves_generator (bind ?m _) => apply leaves_bind; [leaves_primitive m | intros ?]
  | |- leaves_generator (lift_result _) => apply leaves_lift_result
  | |- leaves_generator (lift_option _ _) => apply leaves_lift_option
  end.

(** X6. Neither [accumulated_local_effects_plots] nor
    [partial_dependence_plots] draws random numbers: whatever the arguments
    and whether the call returns or raises, the random generator is left in
    the state it was in, and a call to [partial_dependence_plots] leaves the
    heap as it was as well. *)
Theorem explanations_leave_generator
  (predict : explainer_view Model -> table -> list float -> string -> table)
  (tie : list float -> nat -> nat -> bool)
  (individual_conditional_expectation :
     explainer_view Model -> string -> Z -> Z -> string -> result table)
  (e : explainer Model) (selected_features type : string)
  (n_sel_samples n_grid_points : Z) (s : @state RandomState) :
  rng (accumulated_local_effects_plots predict tie e selected_features type s).2 = rng s /\
  (partial_dependence_plots individual_conditional_expectation e selected_features
     n_sel_samples n_grid_points type s).2 = s.
Proof.
  split.
  - revert s. change (leaves_generator
                        (accumulated_local_effects_plots predict tie e selected_features type)).
    unfold accumulated_local_effects_plots.
    do 12 leaves_next.
    apply leaves_bind.
    + destruct (String.eqb type "survival"); [repeat leaves_next|].
      destruct (String.eqb type "chf"); repeat leaves_next.
    + intros preds. repeat leaves_next.
  - unfold partial_dependence_plots, view_of, df_read.
    unfold bind at 1. unfold bind at 1.
    destruct (read_frame (heap s) (data e)) as [d|]; cbn [lift_option ret raise];
      [|reflexivity].
    unfold bind at 1.
    destruct (individual_conditional_expectation _ _ _ _ _) as [ICE_df|];
      cbn [lift_result ret raise]; [|reflexivity].
    unfold bind at 1.
    destruct (groupby_mean ICE_df "X" "times") as [grouped|];
      cbn [lift_result ret raise]; [|reflexivity].
    unfold bind at 1.
    destruct (df_select grouped ["X"; "times"; "pred"]) as [PDP_df|];
      cbn [lift_result ret raise]; reflexivity.
Qed.

End Generator.

(** ** Permutation feature importance: options and defaults *)

(** X10. With the Brier score and [eval_times] left to its default, [None],
    [permutation_feature_importance] raises the [TypeError] of [len(None)],
    whatever the other arguments: the baseline loss has been evaluated, and
    no feature has been permuted. *)
Theorem importance_default_times_raise
  {RandomState Model SurvLabels : Type}
  (shuffle : RandomState -> list float -> list float * RandomState)
  (evaluate : explainer_view Model -> table -> SurvLabels ->
              option (list float) -> string -> list float)
  (parse_float : string -> option float)
  (e : explainer Model) (feats : loc) (y : SurvLabels)
  (n_perm : Z) (type : string) (s : @state RandomState) (F D : table) :
  read_frame (heap s) feats = Some F ->
  read_frame (heap s) (data e) = Some D ->
  permutation_feature_importance shuffle evaluate parse_float
    e feats y None n_perm "brier_score" type s
  = (Raise (TypeError "object of type 'NoneType' has no len()"), s).
Proof.
  intros HF HD. unfold permutation_feature_importance.
  cbn [String.eqb Ascii.eqb Bool.eqb].
  unfold view_of. unfold bind at 1. unfold bind at 1. unfold bind at 1. unfold bind at 1.
  unfold df_read at 1. rewrite HD. cbn [lift_option ret].
  unfold bind at 1. unfold df_read at 1. rewrite HF. cbn [lift_option ret].
  reflexivity.
Qed.

Lemma importance_default_times_raise_witness :
  permutation_feature_importance Example.shuffle Example.evaluate Example.parse_float
    Example.explainer0 Example.feats tt None 10 "brier_score" "ratio" Example.s0
  = (Raise (TypeError "object of type 'NoneType' has no len()"), Example.s0).
Proof.
  apply (importance_default_times_raise Example.shuffle Example.evaluate
           Example.parse_float Example.explainer0 Example.feats tt 10 "ratio"
           Example.s0 Example.feats_content Example.data_content).
  - exact example_feats_content.
  - exact example_data_content.
Defined.

Lemma unsupported_loss_raises_witness :
  permutation_feature_importance Example.shuffle Example.evaluate Example.parse_float
    Example.explainer0 Example.feats tt (Some [Example.fz 1; Example.fz 2]) 2
    "log_loss" "ratio" Example.s0
  = (Raise (UnboundLocalError "feat_importance_df"), Example.s0).
Proof.
  apply (unsupported_loss_raises Example.shuffle Example.evaluate Example.parse_float
           Example.explainer0 Example.feats tt (Some [Example.fz 1; Example.fz 2]) 2
           "log_loss" "ratio" Example.s0).
  reflexivity.
Defined.

Lemma unsupported_type_returns_no_row_witness :
  exists h',
    permutation_feature_importance Example.shuffle Example.evaluate Example.parse_float
      Example.explainer0 Example.feats tt (Some [Example.fz 1; Example.fz 2]) 2
      "brier_score" "difference" (State Example.h0 0%nat)
    = (Ok [("feat", []); ("times", []); ("perf", [])], State h' 4%nat) /\
    Example.h0 ⊆ h'.
Proof.
  exact (unsupported_type_returns_no_row Example.shuffle Example.evaluate
           Example.parse_float example_shuffle_permutes example_evaluate_length
           Example.explainer0 Example.feats tt [Example.fz 1; Example.fz 2] 2
           Example.h0 Example.feats_content Example.data_content
           example_feats_content example_data_content example_feats_rectangular
           "difference" 0%nat eq_refl).
Defined.

Lemma importance_generator_use_witness :
  (exists r h',
     permutation_feature_importance Example.shuffle Example.evaluate Example.parse_float
       Example.explainer0 Example.feats tt (Some [Example.fz 1; Example.fz 2]) 2
       "brier_score" "ratio" (State Example.h0 0%nat)
     = (r, State h' 4%nat) /\
     Example.h0 ⊆ h' /\
     (r = Raise (ValueError "Unable to parse string") \/ exists tbl, r = Ok tbl)) /\
  (exists r h',
     permutation_feature_importance Example.shuffle perfect_evaluate Example.parse_float
       Example.explainer0 Example.feats tt (Some [Example.fz 1; Example.fz 2]) 2
       "brier_score" "ratio" (State Example.h0 0%nat)
     = (r, State h' 4%nat) /\
     Example.h0 ⊆ h' /\
     (r = Raise (ValueError "Unable to parse string") \/ exists tbl, r = Ok tbl)).
Proof.
  split.
  - exact (importance_generator_use Example.shuffle Example.evaluate
             Example.parse_float example_shuffle_permutes example_evaluate_length
             Example.explainer0 Example.feats tt [Example.fz 1; Example.fz 2] 2
             Example.h0 Example.feats_content Example.data_content
             example_feats_content example_data_content example_feats_rectangular
             "ratio" 0%nat).
  - exact (importance_generator_use Example.shuffle perfect_evaluate
             Example.parse_float example_shuffle_permutes perfect_evaluate_length
             Example.explainer0 Example.feats tt [Example.fz 1; Example.fz 2] 2
             Example.h0 Example.feats_content Example.data_content
             example_feats_content example_data_content example_feats_rectangular
             "ratio" 0%nat).
Defined.

(** * Rendering

    The three plot functions of the module build a figure through calls to
    matplotlib and seaborn.  A figure is modelled by the calls made, in
    order, with the arguments the function computes for them; what the
    libraries draw for a call, and the errors they may raise on arguments
    they reject, are not modelled. *)

(** The calls.  The [color] of a line is the value given to the colour map
    ['BrBG']; the bounds of a colour bar are those of the norm of its
    mappable. *)
Inductive call (C : Type) : Type :=
  | Subplots (width height : Z)
  | SpinesLinewidth (width : Z)
  | SpinesEdgecolor (color : string)
  | Lineplot (data : frame C) (x y : string) (color : option float) (label : option C)
  | SetYlim (bottom top : Z)
  | Xlabel (text : string)
  | Ylabel (text : string)
  | Title (text : string)
  | Legend (loc : string) (ncol : Z)
  | Colorbar (vmin vmax : float) (orientation : string) (label : option string)
             (pad : option float)
  | Show.

Arguments Subplots {C} width height.
Arguments SpinesLinewidth {C} width.
Arguments SpinesEdgecolor {C} color.
Arguments Lineplot {C} data x y color label.
Arguments SetYlim {C} bottom top.
Arguments Xlabel {C} text.
Arguments Ylabel {C} text.
Arguments Title {C} text.
Arguments Legend {C} loc ncol.
Arguments Colorbar {C} vmin vmax orientation label pad.
Arguments Show {C}.

(** The exceptions of a plot function: those of the engines, and the
    [AttributeError] of [df.name] on a frame without a column [name]. *)
Inductive render_exn : Type :=
  | AttributeError (attr : string)
  | Python (e : exn).

Inductive outcome (A : Type) : Type :=
  | Done (a : A)
  | Failed (e : render_exn).

Arguments Done {A} a.
Arguments Failed {A} e.

Section Figures.

Context {C : Type}.

(** A computation that adds calls to the figure and returns or raises. *)
Definition Fig (A : Type) : Type := list (call C) -> outcome A * list (call C).

Definition fig_ret {A} (a : A) : Fig A := fun calls => (Done a, calls).

Definition fig_fail {A} (e : render_exn) : Fig A := fun calls => (Failed e, calls).

Definition fig_bind {A B} (m : Fig A) (k : A -> Fig B) : Fig B :=
  fun calls =>
    match m calls with
    | (Done a, calls') => k a calls'
    | (Failed e, calls') => (Failed e, calls')
    end.

Definition emit (c : call C) : Fig unit := fun calls => (Done tt, calls ++ [c]).

Definition of_result {A} (r : result A) : Fig A :=
  match r with Ok a => fig_ret a | Raise e => fig_fail (Python e) end.

Fixpoint fig_for {A} (l : list A) (body : A -> Fig unit) : Fig unit :=
  match l with
  | [] => fig_ret tt
  | x :: l' => fig_bind (body x) (fun _ => fig_for l' body)
  end.

(** [df.name]: the column [name]. *)
Definition attr (df : frame C) (name : string) : Fig (list C) :=
  match assoc_get df name with
  | Some c => fig_ret c
  | None => fig_fail (AttributeError name)
  end.

(** [df.loc[mask]]: the rows at which the mask holds. *)
Definition loc_rows (df : frame C) (mask : list bool) : frame C :=
  map (fun c => (fst c, map snd (filter (fun r : bool * C => fst r) (zip mask (snd c))))) df.

End Figures.

Declare Scope fig_scope.
Delimit Scope fig_scope with fig.
Notation "'let!' x ':=' m 'in' k" := (fig_bind m (fun x => k))
  (at level 10, x pattern, m at level 100, k at level 200) : fig_scope.
Notation "'do!' m 'in' k" := (fig_bind m (fun _ => k))
  (at level 10, m at level 100, k at level 200) : fig_scope.

(** The builtins [min] and [max] on the elements of an array, compared with
    [<] and [>] from left to right. *)
Definition py_min (a : list float) : result float :=
  match a with
  | [] => Raise (ValueError "min() arg is an empty sequence")
  | x :: a' => Ok (fold_left (fun best y => if Float.ltb y best then y else best) a' x)
  end.

Definition py_max (a : list float) : result float :=
  match a with
  | [] => Raise (ValueError "max() arg is an empty sequence")
  | x :: a' => Ok (fold_left (fun best y => if Float.ltb best y then y else best) a' x)
  end.

(** The sum pandas computes for a group: missing values are skipped. *)
Definition sum_skipna (l : list float) : float :=
  Float.sum (filter (fun x => negb (Float.is_nan x)) l).

(** [df.groupby([k]).sum().reset_index()]: one row per distinct value of the
    column [k] that is not NaN, in increasing order, the key column first,
    then the sum of every other column. *)
Definition groupby_sum (t : table) (k : string) : result table :=
  match assoc_get t k with
  | None => Raise (KeyError k)
  | Some keys =>
      let groups :=
        dedup_sorted Float.eqb
          (isort Float.ltb (filter (fun x => negb (Float.is_nan x)) keys)) in
      Ok ((k, groups) ::
          map (fun c =>
                 (fst c,
                  map (fun g =>
                         sum_skipna
                           (map snd (filter (fun r : float * float => Float.eqb (fst r) g)
                                            (zip keys (snd c)))))
                      groups))
              (filter (fun c : string * list float => negb (String.eqb (fst c) k)) t))
  end.

(** [(a - min(a)) / (max(a) - min(a))] *)
Definition normalized (a : list float) : result (list float) :=
  rbind (py_min a) (fun lo =>
  rbind (py_max a) (fun hi =>
  rbind (py_min a) (fun lo' =>
  Ok (map (fun x => Float.div (Float.sub x lo) (Float.sub hi lo')) a)))).

Local Open Scope fig_scope.

(** [plot_PDP(res)] *)
Definition plot_PDP (res : table) : Fig (C := float) unit :=
  let! times := attr res "times" in
  let pred_times := np_unique times in
  let n_pred_times := length pred_times in
  do! emit (Subplots 9 5) in
  do! emit (SpinesLinewidth 2) in
  do! emit (SpinesEdgecolor "black") in
  let! times_norm := of_result (normalized pred_times) in
  let! vmax := of_result (py_max pred_times) in
  do! fig_for (seq 0 n_pred_times) (fun i =>
        let! times := attr res "times" in
        let! t := of_result (np_getitem pred_times i) in
        let res_i := loc_rows res (map (fun x => Float.eqb x t) times) in
        let! c := of_result (np_getitem times_norm i) in
        emit (Lineplot res_i "X" "pred" (Some c) None)) in
  do! emit (SetYlim 0 1) in
  do! emit (Xlabel "") in
  do! emit (Ylabel "Survival prediction") in
  do! emit (Title "DPD for feature x0") in
  do! emit (Colorbar Float.zero vmax "horizontal" (Some "Time") None) in
  emit Show.

(** [plot_ALE(res, explained_feature)] *)
Definition plot_ALE (res : table) (explained_feature : option string)
  : Fig (C := float) unit :=
  let! groups_col := attr res "groups" in
  let groups := np_unique groups_col in
  let! group_values_col := attr res "group_values" in
  let group_values := np_unique group_values_col in
  do! emit (Subplots 9 5) in
  do! emit (SpinesLinewidth 2) in
  do! emit (SpinesEdgecolor "black") in
  let! group_values_norm := of_result (normalized group_values) in
  let n_groups := length groups in
  let! vmax := of_result (py_max group_values) in
  do! fig_for (seq 0 n_groups) (fun i =>
        let! group := of_result (np_getitem groups i) in
        let! groups_col := attr res "groups" in
        let selected := loc_rows res (map (fun g => Float.leb g group) groups_col) in
        let! summed := of_result (groupby_sum selected "times") in
        let! res_group := of_result (df_select summed ["groups"; "times"; "pred"]) in
        let! c := of_result (np_getitem group_values_norm i) in
        emit (Lineplot res_group "times" "pred" (Some c) None)) in
  do! emit (Xlabel "Time") in
  do! emit (Ylabel "") in
  do! emit (Colorbar Float.zero vmax "vertical" explained_feature
              (Some (Finite (Q2Qc (1 # 10))))) in
  do! emit (Title "Accumulated local effects") in
  emit Show.

Section FeaturePlot.

(** The text numpy writes for a float64, and [np.unique] on an array of
    objects that are not all strings. *)
Variable float_text : float -> string.
Variable unique_objects : list cell -> outcome (list cell).

Definition cell_text (c : cell) : option string :=
  match c with
  | CStr (Lit s) => Some s
  | CStr (Repr x) => Some (float_text x)
  | CNum _ => None
  end.

(** [a == b] on two cells. *)
Definition cell_eqb (a b : cell) : bool :=
  match a, b with
  | CNum x, CNum y => Float.eqb x y
  | CStr _, CStr _ =>
      match cell_text a, cell_text b with
      | Some s, Some s' => String.eqb s s'
      | _, _ => false
      end
  | _, _ => false
  end.

(** [np.unique] on an array of strings: the distinct strings in increasing
    order. *)
Definition np_unique_str (a : list string) : list string :=
  dedup_sorted String.eqb (isort String.ltb a).

Definition np_unique_cells (a : list cell) : Fig (C := cell) (list cell) :=
  match mapM cell_text a with
  | Some names => fig_ret (map (fun s => CStr (Lit s)) (np_unique_str names))
  | None =>
      match unique_objects a with
      | Done u => fig_ret u
      | Failed e => fig_fail e
      end
  end.

(** [plot_PFI(res)] *)
Definition plot_PFI (res : frame cell) : Fig (C := cell) unit :=
  let! feat := attr res "feat" in
  let! feats_names := np_unique_cells feat in
  do! emit (Subplots 9 5) in
  do! emit (SpinesLinewidth 2) in
  do! emit (SpinesEdgecolor "black") in
  do! fig_for feats_names (fun feat_name =>
        let! feat := attr res "feat" in
        let res_feat := loc_rows res (map (fun c => cell_eqb c feat_name) feat) in
        emit (Lineplot res_feat "times" "perf" None (Some feat_name))) in
  do! emit (Xlabel "Times") in
  do! emit (Ylabel "") in
  do! emit (Legend "lower left" 3) in
  do! emit (Title "Permutation feature importance") in
  emit Show.

End FeaturePlot.

Local Close Scope fig_scope.

(** ** Properties of the rendering *)

Section FigureRuns.

Context {C : Type}.

Lemma fig_bind_done {A B} (m : Fig (C := C) A) (k : A -> Fig B) calls a calls' :
  m calls = (Done a, calls') -> fig_bind m k calls = k a calls'.
Proof. intros H. unfold fig_bind. rewrite H. reflexivity. Qed.

Lemma fig_bind_failed {A B} (m : Fig (C := C) A) (k : A -> Fig B) calls e calls' :
  m calls = (Failed e, calls') -> fig_bind m k calls = (Failed e, calls').
Proof. intros H. unfold fig_bind. rewrite H. reflexivity. Qed.

Lemma fig_bind_emit {B} (c : call C) (k : unit -> Fig B) calls :
  fig_bind (emit c) k calls = k tt (calls ++ [c]).
Proof. reflexivity. Qed.

Lemma fig_bind_attr {B} (df : frame C) name col (k : list C -> Fig B) calls :
  assoc_get df name = Some col -> fig_bind (attr df name) k calls = k col calls.
Proof. intros H. unfold fig_bind, attr. rewrite H. reflexivity. Qed.

Lemma fig_bind_of_result {A B} (r : result A) a (k : A -> Fig (C := C) B) calls :
  r = Ok a -> fig_bind (of_result r) k calls = k a calls.
Proof. intros ->. reflexivity. Qed.

(** A loop whose body adds one call at each turn. *)
Lemma fig_for_lines {A} (l : list A) (body : A -> Fig (C := C) unit) (line : A -> call C) :
  forall calls,
    (forall x calls', In x l -> body x calls' = (Done tt, calls' ++ [line x])) ->
    fig_for l body calls = (Done tt, calls ++ map line l).
Proof.
  induction l as [|x l IH]; intros calls H; cbn [fig_for map].
  - rewrite app_nil_r. reflexivity.
  - rewrite (fig_bind_done _ _ _ _ _ (H x calls (or_introl eq_refl))).
    rewrite IH by (intros y calls' Hy; apply H; right; assumption).
    rewrite <- app_assoc. reflexivity.
Qed.

(** A loop whose body fails at some turn, after turns that add one call
    each. *)
Lemma fig_for_fails {A} (l1 l2 : list A) (x : A) (body : A -> Fig (C := C) unit)
  (line : A -> call C) (e : render_exn) :
  forall calls,
    (forall y calls', In y l1 -> body y calls' = (Done tt, calls' ++ [line y])) ->
    (forall calls', body x calls' = (Failed e, calls')) ->
    fig_for (l1 ++ x :: l2) body calls = (Failed e, calls ++ map line l1).
Proof.
  induction l1 as [|y l1 IH]; intros calls H Hx; cbn [fig_for map app].
  - rewrite (fig_bind_failed _ _ _ _ _ (Hx calls)), app_nil_r. reflexivity.
  - rewrite (fig_bind_done _ _ _ _ _ (H y calls (or_introl eq_refl))).
    rewrite IH; [|intros z calls' Hz; apply H; right; assumption|assumption].
    rewrite <- app_assoc. reflexivity.
Qed.

End FigureRuns.

Lemma map_seq_lookup {A B} (l : list A) (f : nat -> B) (g : A -> B) :
  (forall i x, l !! i = Some x -> f i = g x) ->
  map f (seq 0 (length l)) = map g l.
Proof.
  revert f. induction l as [|x l IH]; intros f H; [reflexivity|].
  cbn [length seq map]. rewrite (H 0%nat x eq_refl). f_equal.
  rewrite <- seq_shift, map_map. apply IH. intros i y Hy. apply (H (S i)). exact Hy.
Qed.

(** [min] and [max] of a list in strictly increasing order. *)
Lemma fold_min_sorted (l : list float) (x : float) :
  Forall (fun y => Float.ltb x y = true) l ->
  fold_left (fun best y => if Float.ltb y best then y else best) l x = x.
Proof.
  induction l as [|y l IH]; intros H; [reflexivity|].
  inversion H as [|? ? Hy Hl]. subst. cbn [fold_left].
  rewrite (float_ltb_asym _ _ Hy). apply IH. assumption.
Qed.

Lemma py_min_sorted (x : float) (l : list float) :
  StronglySorted (fun a b => Float.ltb a b = true) (x :: l) -> py_min (x :: l) = Ok x.
Proof.
  intros H. inversion H as [|? ? _ Hx]. subst. unfold py_min. f_equal.
  apply fold_min_sorted. assumption.
Qed.

Lemma last_default {A} (l : list A) (a d d' : A) :
  List.last (a :: l) d = List.last (a :: l) d'.
Proof.
  revert a. induction l as [|b l IH]; intros a; [reflexivity|].
  change (List.last (b :: l) d = List.last (b :: l) d'). apply IH.
Qed.

Lemma fold_max_sorted (l : list float) : forall x,
  StronglySorted (fun a b => Float.ltb a b = true) (x :: l) ->
  fold_left (fun best y => if Float.ltb best y then y else best) l x = List.last l x.
Proof.
  induction l as [|y l IH]; intros x H; [reflexivity|].
  inversion H as [|? ? Hs Hx]. subst. inversion Hx as [|? ? Hy _]. subst.
  cbn [fold_left]. rewrite Hy. rewrite IH by assumption.
  destruct l as [|z l]; [reflexivity|].
  change (List.last (z :: l) y = List.last (z :: l) x). apply last_default.
Qed.

Lemma py_max_sorted (x : float) (l : list float) :
  StronglySorted (fun a b => Float.ltb a b = true) (x :: l) ->
  py_max (x :: l) = Ok (List.last l x).
Proof. intros H. unfold py_max. f_equal. apply fold_max_sorted. assumption. Qed.

Lemma py_min_ok (a : list float) : a <> [] -> exists lo, py_min a = Ok lo.
Proof. destruct a; [contradiction|]. intros _. eexists. reflexivity. Qed.

Lemma py_max_ok (a : list float) : a <> [] -> exists hi, py_max a = Ok hi.
Proof. destruct a; [contradiction|]. intros _. eexists. reflexivity. Qed.

Lemma np_unique_nonempty (a : list float) : a <> [] -> np_unique a <> [].
Proof.
  destruct a as [|x a]; [contradiction|]. intros _ H.
  assert (Hin : In x (np_unique (x :: a))) by (apply np_unique_elements; left; reflexivity).
  rewrite H in Hin. contradiction.
Qed.

(** The rows that [df.loc] keeps for a column compared with a value. *)
Lemma loc_rows_column {C} (df : frame C) (mask : list bool) name (col : list C) :
  assoc_get df name = Some col ->
  assoc_get (loc_rows df mask) name
  = Some (map snd (filter (fun r : bool * C => fst r) (zip mask col))).
Proof.
  intros H. unfold loc_rows.
  rewrite (assoc_get_map_values
             (fun c => map snd (filter (fun r : bool * C => fst r) (zip mask c)))).
  rewrite H. reflexivity.
Qed.

Lemma selected_times_constant (times : list float) (t : float) :
  map snd (filter (fun r : bool * float => fst r)
                  (zip (map (fun x => Float.eqb x t) times) times))
  = repeat t (length (filter (fun x => Float.eqb x t) times)).
Proof.
  induction times as [|x times IH]; [reflexivity|].
  cbn [map]. change (zip (?a :: ?l) (?b :: ?k)) with ((a, b) :: zip l k).
  rewrite !filter_cons. cbn [fst].
  destruct (Float.eqb x t) eqn:E.
  - rewrite !decide_True by exact I. cbn [map snd length repeat].
    apply float_eqb_eq in E. subst x. f_equal. exact IH.
  - rewrite !decide_False by (intros H; exact H). exact IH.
Qed.

Lemma selected_times_nonempty (times : list float) (t : float) :
  In t times -> not_nan t ->
  (0 < length (filter (fun x => Float.eqb x t) times))%nat.
Proof.
  intros Hin Ht. induction times as [|x times IH]; [contradiction|].
  rewrite filter_cons. destruct Hin as [->|Hin].
  - rewrite (float_eqb_refl t Ht). rewrite decide_True by exact I. simpl. lia.
  - destruct (decide (Float.eqb x t)); [simpl; lia|]. apply IH. assumption.
Qed.

(** *** Partial dependence *)

Local Arguments np_unique : simpl never.

(** The calls of [plot_PDP] on a frame that has rows. *)
Lemma plot_PDP_run (res : table) (times : list float) :
  assoc_get res "times" = Some times -> times <> [] ->
  exists lo hi,
    py_min (np_unique times) = Ok lo /\ py_max (np_unique times) = Ok hi /\
    plot_PDP res []
    = (Done tt,
       [Subplots 9 5; SpinesLinewidth 2; SpinesEdgecolor "black"] ++
       map (fun t =>
              Lineplot (loc_rows res (map (fun x => Float.eqb x t) times)) "X" "pred"
                       (Some (Float.div (Float.sub t lo) (Float.sub hi lo))) None)
           (np_unique times) ++
       [SetYlim 0 1; Xlabel ""; Ylabel "Survival prediction";
        Title "DPD for feature x0";
        Colorbar Float.zero hi "horizontal" (Some "Time") None; Show]).
Proof.
  intros Ht Hne.
  pose proof (np_unique_nonempty times Hne) as Hu.
  destruct (py_min_ok _ Hu) as [lo Hlo]. destruct (py_max_ok _ Hu) as [hi Hhi].
  exists lo, hi. split; [assumption|]. split; [assumption|].
  unfold plot_PDP.
  rewrite (fig_bind_attr _ _ _ _ _ Ht). cbv zeta.
  rewrite !fig_bind_emit.
  assert (Hnorm : normalized (np_unique times)
                  = Ok (map (fun x => Float.div (Float.sub x lo) (Float.sub hi lo))
                            (np_unique times))).
  { unfold normalized. rewrite Hlo, Hhi. reflexivity. }
  rewrite (fig_bind_of_result _ _ _ _ Hnorm).
  rewrite (fig_bind_of_result _ _ _ _ Hhi).
  erewrite fig_bind_done.
  2: { apply (fig_for_lines _ _
                (fun i => match np_unique times !! i with
                          | Some t =>
                              Lineplot (loc_rows res (map (fun x => Float.eqb x t) times))
                                       "X" "pred"
                                       (Some (Float.div (Float.sub t lo) (Float.sub hi lo)))
                                       None
                          | None => Show
                          end)).
       intros i calls' Hi. apply in_seq in Hi.
       destruct (lookup_lt_is_Some_2 (np_unique times) i ltac:(lia)) as [t Hti].
       rewrite (fig_bind_attr _ _ _ _ _ Ht).
       assert (H1 : np_getitem (np_unique times) i = Ok t)
         by (unfold np_getitem; rewrite Hti; reflexivity).
       rewrite (fig_bind_of_result _ _ _ _ H1).
       assert (H2 : np_getitem (map (fun x => Float.div (Float.sub x lo) (Float.sub hi lo))
                                    (np_unique times)) i
                    = Ok (Float.div (Float.sub t lo) (Float.sub hi lo))).
       { unfold np_getitem.
         change (map ?f ?l) with (f <$> l). rewrite list_lookup_fmap, Hti. reflexivity. }
       rewrite (fig_bind_of_result _ _ _ _ H2). rewrite Hti. reflexivity. }
  rewrite !fig_bind_emit. unfold emit.
  rewrite (map_seq_lookup (np_unique times) _
             (fun t => Lineplot (loc_rows res (map (fun x => Float.eqb x t) times)) "X" "pred"
                         (Some (Float.div (Float.sub t lo) (Float.sub hi lo))) None))
    by (intros i x Hx; rewrite Hx; reflexivity).
  cbn [app]. rewrite <- !app_assoc. reflexivity.
Qed.

(** X11. On the table of a partial dependence that has a row,
    [plot_PDP] draws one line per distinct time of the table, in the order
    [np.unique] lists the times (increasing when no time is NaN), between
    the creation of the figure and its decoration.  The line of a time shows
    exactly the rows of the table that have this time: its data are the rows
    kept by the comparison of the column [times] with the time, so that its
    column [times] is that time repeated, at least once. *)
Theorem plot_PDP_lines (res : table) (times : list float) :
  assoc_get res "times" = Some times -> times <> [] ->
  exists lines decoration,
    plot_PDP res []
    = (Done tt,
       [Subplots 9 5; SpinesLinewidth 2; SpinesEdgecolor "black"] ++ lines ++ decoration) /\
    Forall2 (fun t line =>
               exists color,
                 line = Lineplot (loc_rows res (map (fun x => Float.eqb x t) times))
                                 "X" "pred" (Some color) None)
            (np_unique times) lines /\
    Forall (fun c => match c with Lineplot _ _ _ _ _ => False | _ => True end) decoration /\
    (forall t, In t (np_unique times) <-> In t times) /\
    (forall t, In t times -> not_nan t ->
       exists k, (0 < k)%nat /\
         assoc_get (loc_rows res (map (fun x => Float.eqb x t) times)) "times"
         = Some (repeat t k)) /\
    (Forall not_nan times ->
     StronglySorted (fun a b => Float.ltb a b = true) (np_unique times)).
Proof.
  intros Ht Hne.
  destruct (plot_PDP_run res times Ht Hne) as (lo & hi & _ & _ & Hrun).
  eexists _, _. split; [exact Hrun|]. split; [|split; [|split; [|split]]].
  - apply Forall2_fmap_r. apply Forall_Forall2_diag. apply Forall_forall.
    intros t _. eexists. reflexivity.
  - repeat constructor.
  - intros t. apply np_unique_elements.
  - intros t Hin Hnan. exists (length (filter (fun x => Float.eqb x t) times)).
    split; [apply selected_times_nonempty; assumption|].
    rewrite (loc_rows_column res _ "times" times Ht).
    rewrite selected_times_constant. reflexivity.
  - apply np_unique_increasing.
Qed.

(** The normalisation of finite values between two of them. *)
Section Normalisation.

Local Open Scope Qc_scope.

Variables lo hi : Qc.

Definition scaled (t : float) : float :=
  Float.div (Float.sub t (Finite lo)) (Float.sub (Finite hi) (Finite lo)).

Lemma scaled_degenerate (t : float) : hi = lo -> t = Finite lo -> scaled t = NaN.
Proof.
  intros H ->. unfold scaled, Float.sub. cbn [Float.neg Float.add Float.div].
  rewrite H. assert (E : lo + - lo = 0) by ring. rewrite E.
  rewrite (proj2 (Qc_eqb_eq 0 0) eq_refl). cbn [Float.sign].
  rewrite Qc_compare_refl. reflexivity.
Qed.

Hypothesis range : lo < hi.

Lemma range_nonzero : hi + - lo <> 0.
Proof.
  intros H. assert (E : hi = lo).
  { transitivity (hi + - lo + lo); [ring|]. rewrite H. ring. }
  rewrite E in range. exact (Qclt_not_eq _ _ range eq_refl).
Qed.

Lemma scaled_finite (t : Qc) : scaled (Finite t) = Finite ((t + - lo) / (hi + - lo)).
Proof.
  unfold scaled, Float.sub. cbn [Float.neg Float.add Float.div].
  rewrite (proj2 (Qc_eqb_neq _ _) range_nonzero). reflexivity.
Qed.

Lemma scaled_lo : scaled (Finite lo) = Float.zero.
Proof.
  rewrite scaled_finite. unfold Float.zero. f_equal.
  assert (E : lo + - lo = 0) by ring. rewrite E. unfold Qcdiv. ring.
Qed.

Lemma scaled_hi : scaled (Finite hi) = Float.one.
Proof.
  rewrite scaled_finite. unfold Float.one. f_equal.
  unfold Qcdiv. apply Qcmult_inv_r. apply range_nonzero.
Qed.

Lemma scaled_increasing (t t' : Qc) :
  t < t' -> Float.ltb (scaled (Finite t)) (scaled (Finite t')) = true.
Proof.
  intros H. rewrite !scaled_finite. cbn [Float.ltb]. apply Qc_ltb_lt.
  unfold Qcdiv.
  assert (Hd : 0 < / (hi + - lo)).
  { apply Qc_inv_pos. replace 0 with (lo + - lo) by ring.
    apply Qcplus_lt_mono_r. assumption. }
  apply Qcmult_lt_compat_r; [assumption|].
  apply Qcplus_lt_mono_r. assumption.
Qed.

End Normalisation.

Lemma finite_not_nan (x : float) : Float.is_finite x = true -> not_nan x.
Proof. destruct x; try discriminate; reflexivity. Qed.

Lemma lookup_last {A} (l : list A) (x : A) :
  (x :: l) !! length l = Some (List.last l x).
Proof.
  revert x. induction l as [|y l IH]; intros x; [reflexivity|].
  cbn [length lookup list_lookup]. rewrite IH. f_equal.
  destruct l as [|z l]; [reflexivity|].
  change (List.last (z :: l) y = List.last (z :: l) x). apply last_default.
Qed.

Lemma last_in {A} (l : list A) (x y : A) : In (List.last (y :: l) x) (y :: l).
Proof.
  revert y. induction l as [|z l IH]; intros y; [left; reflexivity|].
  right. apply (IH z).
Qed.

(** X12. The colours of the lines of [plot_PDP], for a table with a row
    whose times are finite.  The line of a time [t] gets the colour of
    [(t - first) / (last - first)], where [first] and [last] are the least
    and the greatest time.  With one distinct time this is 0 / 0: the line
    gets the colour of NaN.  With several distinct times the colours go from
    0, for the first line, to 1, for the last one, and increase strictly
    from a line to the next. *)
Theorem plot_PDP_colors (res : table) (times : list float) :
  assoc_get res "times" = Some times -> times <> [] ->
  Forall (fun t => Float.is_finite t = true) times ->
  exists first rest colors decoration,
    np_unique times = first :: rest /\
    plot_PDP res []
    = (Done tt,
       [Subplots 9 5; SpinesLinewidth 2; SpinesEdgecolor "black"] ++
       zip_with (fun t color =>
                   Lineplot (loc_rows res (map (fun x => Float.eqb x t) times))
                            "X" "pred" (Some color) None)
                (first :: rest) colors ++
       decoration) /\
    colors = map (fun t => Float.div (Float.sub t first)
                                     (Float.sub (List.last rest first) first))
                 (first :: rest) /\
    (rest = [] -> colors = [NaN]) /\
    (rest <> [] ->
     colors !! 0%nat = Some Float.zero /\
     colors !! length rest = Some Float.one /\
     StronglySorted (fun a b => Float.ltb a b = true) colors).
Proof.
  intros Ht Hne Hfin.
  destruct (plot_PDP_run res times Ht Hne) as (lo & hi & Hlo & Hhi & Hrun).
  assert (Hnan : Forall not_nan times).
  { eapply Forall_impl; [exact Hfin|]. apply finite_not_nan. }
  pose proof (np_unique_increasing times Hnan) as Hsorted.
  assert (Hufin : Forall (fun t => Float.is_finite t = true) (np_unique times)).
  { apply List.Forall_forall. intros t Hin. apply (proj1 (np_unique_elements _ _)) in Hin.
    rewrite List.Forall_forall in Hfin. apply Hfin. assumption. }
  destruct (np_unique times) as [|first rest] eqn:Eu;
    [exfalso; apply (np_unique_nonempty times Hne); assumption|].
  rewrite (py_min_sorted _ _ Hsorted) in Hlo. inversion Hlo. subst lo. clear Hlo.
  rewrite (py_max_sorted _ _ Hsorted) in Hhi. inversion Hhi. subst hi. clear Hhi.
  set (color := fun t => Float.div (Float.sub t first)
                                   (Float.sub (List.last rest first) first)) in *.
  exists first, rest, (map color (first :: rest)). eexists.
  split; [reflexivity|]. split; [|split; [reflexivity|split]].
  - rewrite Hrun. f_equal. f_equal. f_equal.
    change (map color (first :: rest)) with (color <$> (first :: rest)).
    rewrite zip_with_fmap_r, zip_with_diag. reflexivity.
  - intros ->. cbn [map List.last]. f_equal.
    inversion Hufin as [|? ? Hf _]. subst. destruct first as [a| | |]; try discriminate.
    apply (scaled_degenerate a a); reflexivity.
  - intros Hrest.
    inversion Hufin as [|? ? Hf Hrfin]. subst.
    destruct first as [a| | |]; try discriminate.
    assert (Hlast_in : In (List.last rest (Finite a)) rest).
    { destruct rest as [|y rest']; [contradiction|]. apply last_in. }
    assert (Hlast_fin : Float.is_finite (List.last rest (Finite a)) = true).
    { rewrite List.Forall_forall in Hrfin. apply Hrfin. assumption. }
    destruct (List.last rest (Finite a)) as [b| | |] eqn:El; try discriminate.
    assert (Hab : (a < b)%Qc).
    { inversion Hsorted as [|? ? _ Hall]. subst. rewrite List.Forall_forall in Hall.
      specialize (Hall _ Hlast_in). cbn [Float.ltb] in Hall. apply Qc_ltb_lt. exact Hall. }
    change color with (scaled a b). split; [|split].
    + cbn [map lookup list_lookup]. f_equal. apply scaled_lo. assumption.
    + change (map (scaled a b) (Finite a :: rest))
        with (scaled a b <$> (Finite a :: rest)).
      rewrite list_lookup_fmap, lookup_last, El. cbn [fmap option_fmap option_map].
      f_equal. apply scaled_hi. assumption.
    + apply (map_sorted (fun x y => Float.ltb x y = true)); [|exact Hsorted].
      intros x y Hx Hy Hxy.
      assert (Hxf : Float.is_finite x = true)
        by (apply (proj1 (List.Forall_forall _ _) Hufin); assumption).
      assert (Hyf : Float.is_finite y = true)
        by (apply (proj1 (List.Forall_forall _ _) Hufin); assumption).
      destruct x as [p| | |]; try discriminate. destruct y as [q| | |]; try discriminate.
      apply scaled_increasing; [assumption|]. apply Qc_ltb_lt. exact Hxy.
Qed.

(** A table of partial dependence: two grid values at two times. *)
Definition pdp_example : table :=
  [("X", map Example.fz [0; 0; 5; 5]%Z);
   ("times", map Example.fz [1; 2; 1; 2]%Z);
   ("pred", map Example.fz [6; 4; 5; 4]%Z)].

Lemma plot_PDP_lines_witness :
  let times := map Example.fz [1; 2; 1; 2]%Z in
  exists lines decoration,
    plot_PDP pdp_example []
    = (Done tt,
       [Subplots 9 5; SpinesLinewidth 2; SpinesEdgecolor "black"] ++ lines ++ decoration) /\
    Forall2 (fun t line =>
               exists color,
                 line = Lineplot (loc_rows pdp_example (map (fun x => Float.eqb x t) times))
                                 "X" "pred" (Some color) None)
            (np_unique times) lines /\
    Forall (fun c => match c with Lineplot _ _ _ _ _ => False | _ => True end) decoration /\
    (forall t, In t (np_unique times) <-> In t times) /\
    (forall t, In t times -> not_nan t ->
       exists k, (0 < k)%nat /\
         assoc_get (loc_rows pdp_example (map (fun x => Float.eqb x t) times)) "times"
         = Some (repeat t k)) /\
    (Forall not_nan times ->
     StronglySorted (fun a b => Float.ltb a b = true) (np_unique times)).
Proof.
  apply (plot_PDP_lines pdp_example (map Example.fz [1; 2; 1; 2]%Z)).
  - reflexivity.
  - discriminate.
Defined.

Lemma plot_PDP_colors_witness :
  let times := map Example.fz [1; 2; 1; 2]%Z in
  exists first rest colors decoration,
    np_unique times = first :: rest /\
    plot_PDP pdp_example []
    = (Done tt,
       [Subplots 9 5; SpinesLinewidth 2; SpinesEdgecolor "black"] ++
       zip_with (fun t color =>
                   Lineplot (loc_rows pdp_example (map (fun x => Float.eqb x t) times))
                            "X" "pred" (Some color) None)
                (first :: rest) colors ++
       decoration) /\
    colors = map (fun t => Float.div (Float.sub t first)
                                     (Float.sub (List.last rest first) first))
                 (first :: rest) /\
    (rest = [] -> colors = [NaN]) /\
    (rest <> [] ->
     colors !! 0%nat = Some Float.zero /\
     colors !! length rest = Some Float.one /\
     StronglySorted (fun a b => Float.ltb a b = true) colors).
Proof.
  apply (plot_PDP_colors pdp_example (map Example.fz [1; 2; 1; 2]%Z)).
  - reflexivity.
  - discriminate.
  - repeat constructor.
Defined.

(** *** Accumulated local effects *)

(** Lists in strictly increasing order with the same elements. *)
Lemma sorted_same_elements {A} (R : A -> A -> Prop) (l1 l2 : list A) :
  (forall a, ~ R a a) ->
  (forall a b, R a b -> R b a -> False) ->
  StronglySorted R l1 -> StronglySorted R l2 ->
  (forall x, In x l1 <-> In x l2) -> l1 = l2.
Proof.
  intros Hirr Hasym H1 H2 Hsame.
  assert (Hnd : forall l, StronglySorted R l -> List.NoDup l).
  { intros l Hl. induction Hl as [|a l Hl IH Ha]; constructor; [|assumption].
    intros Hin. rewrite List.Forall_forall in Ha. apply (Hirr a). apply Ha. assumption. }
  apply (sorted_incl_same_length R); try assumption.
  - intros a b _ _. apply Hasym.
  - intros x. apply Hsame.
  - apply Nat.le_antisymm; apply NoDup_incl_length; try (apply Hnd; assumption);
      intros x; apply Hsame.
Qed.

Lemma float_ltb_strict (a b : float) :
  Float.ltb a b = true -> Float.ltb b a = true -> False.
Proof. intros H1 H2. apply float_ltb_asym in H1. congruence. Qed.

Lemma float_ltb_irreflexive (a : float) : ~ (Float.ltb a a = true).
Proof. rewrite float_ltb_irrefl. discriminate. Qed.

Lemma sorted_not_nan_tail (x : float) (l : list float) :
  StronglySorted (fun a b => Float.ltb a b = true) (x :: l) -> Forall not_nan l.
Proof.
  intros H. inversion H as [|? ? _ Hx]. subst.
  eapply Forall_impl; [exact Hx|]. intros y Hy. destruct x, y; try discriminate; reflexivity.
Qed.

(** The keys of the groups of [groupby([k]).sum()]. *)
Definition sum_keys (keys : list float) : list float :=
  dedup_sorted Float.eqb (isort Float.ltb (filter (fun x => negb (Float.is_nan x)) keys)).

Lemma filter_not_nan (keys : list float) :
  Forall not_nan (filter (fun x => negb (Float.is_nan x)) keys).
Proof.
  apply List.Forall_forall. intros x Hx. apply list_elem_of_In, list_elem_of_filter in Hx.
  destruct Hx as [Hx _]. apply Is_true_true, negb_true_iff in Hx. exact Hx.
Qed.

Lemma sum_keys_sorted (keys : list float) :
  StronglySorted (fun a b => Float.ltb a b = true) (sum_keys keys).
Proof.
  unfold sum_keys. pose proof (filter_not_nan keys) as Hv.
  apply (dedup_sorted_strict Float.ltb Float.eqb not_nan).
  - intros a b c Ha Hb Hc. apply float_ltb_leb_trans; assumption.
  - intros a b Ha Hb. apply float_eqb_total; assumption.
  - eapply Permutation_Forall; [symmetry; apply isort_perm|]. exact Hv.
  - apply (isort_sorted Float.ltb not_nan); [| |exact Hv].
    + intros a b _ _. apply float_ltb_asym.
    + intros a b c Ha Hb Hc. apply float_leb_trans; assumption.
Qed.

Lemma sum_keys_elements (keys : list float) (x : float) :
  In x (sum_keys keys) <-> In x keys /\ not_nan x.
Proof.
  unfold sum_keys. split.
  - intros H. apply dedup_sorted_incl in H.
    apply (Permutation_in _ (isort_perm Float.ltb _)) in H.
    apply list_elem_of_In, list_elem_of_filter in H. destruct H as [Hx Hin].
    split; [apply list_elem_of_In; assumption|].
    apply Is_true_true, negb_true_iff in Hx. exact Hx.
  - intros [Hin Hx]. apply dedup_sorted_complete; [apply float_eqb_eq|].
    apply (Permutation_in _ (Permutation_sym (isort_perm Float.ltb _))).
    apply list_elem_of_In, list_elem_of_filter. split.
    + apply Is_true_true, negb_true_iff. exact Hx.
    + apply list_elem_of_In. assumption.
Qed.

Lemma sum_keys_of_sorted (keys et : list float) :
  StronglySorted (fun a b => Float.ltb a b = true) et ->
  Forall not_nan et ->
  (forall x, In x keys <-> In x et) ->
  sum_keys keys = et.
Proof.
  intros Hs Hn Hsame.
  apply (sorted_same_elements (fun a b => Float.ltb a b = true)).
  - apply float_ltb_irreflexive.
  - apply float_ltb_strict.
  - apply sum_keys_sorted.
  - assumption.
  - intros x. rewrite sum_keys_elements, Hsame. split; [tauto|].
    intros H. split; [assumption|]. rewrite List.Forall_forall in Hn. apply Hn. assumption.
Qed.

(** Lists made of blocks of [n] elements. *)
Lemma flat_map_length_uniform {A B} (f : A -> list B) (l : list A) (n : nat) :
  (forall x, In x l -> length (f x) = n) -> length (flat_map f l) = (length l * n)%nat.
Proof.
  induction l as [|x l IH]; intros H; [reflexivity|].
  cbn [flat_map length]. rewrite length_app, (H x (or_introl eq_refl)), IH; [lia|].
  intros y Hy. apply H. right. assumption.
Qed.

Lemma blocks_eq {A} (l : list A) (blocks : nat -> list A) (m n : nat) :
  length l = (m * n)%nat ->
  (forall b, (b < m)%nat -> length (blocks b) = n) ->
  (forall b k, (b < m)%nat -> (k < n)%nat -> l !! (b * n + k)%nat = blocks b !! k) ->
  l = flat_map blocks (seq 0 m).
Proof.
  intros Hlen Hb H. apply list_eq. intros j.
  assert (Hflat : length (flat_map blocks (seq 0 m)) = (m * n)%nat).
  { rewrite (flat_map_length_uniform blocks (seq 0 m) n), length_seq; [reflexivity|].
    intros b Hin. apply in_seq in Hin. apply Hb. lia. }
  destruct (Nat.lt_ge_cases j (m * n)) as [Hj|Hj].
  - assert (Hn : (0 < n)%nat) by (destruct n; lia).
    assert (Hq : (j / n < m)%nat) by (apply Nat.Div0.div_lt_upper_bound; lia).
    assert (Hr : (j mod n < n)%nat) by (apply Nat.mod_upper_bound; lia).
    assert (Ej : j = (j / n * n + j mod n)%nat) by (pose proof (Nat.div_mod_eq j n); lia).
    rewrite Ej at 1 2.
    rewrite (H _ _ Hq Hr).
    rewrite (lookup_flat_map_uniform blocks (seq 0 m) n (j / n) (j mod n) (j / n)).
    + reflexivity.
    + intros y Hy. apply in_seq in Hy. apply Hb. lia.
    + apply lookup_seq. lia.
    + assumption.
  - rewrite !lookup_ge_None_2 by lia. reflexivity.
Qed.

Lemma map_const_repeat {A B} (x : B) (l : list A) :
  map (fun _ => x) l = repeat x (length l).
Proof. induction l as [|a l IH]; [reflexivity|]. simpl. f_equal. exact IH. Qed.

Lemma map_lookup_seq {A} (l : list A) (d : A) :
  map (fun k => default d (l !! k)) (seq 0 (length l)) = l.
Proof.
  rewrite (map_seq_lookup l _ (fun x => x)); [apply map_id|].
  intros i x Hx. rewrite Hx. reflexivity.
Qed.

(** The rows a mask keeps. *)
Definition masked {A} (mask : list bool) (col : list A) : list A :=
  map snd (filter (fun r : bool * A => fst r) (zip mask col)).

Lemma masked_all {A} (col : list A) : masked (repeat true (length col)) col = col.
Proof.
  unfold masked. induction col as [|x col IH]; [reflexivity|].
  cbn [length repeat]. change (zip (?a :: ?l) (?b :: ?k)) with ((a, b) :: zip l k).
  rewrite filter_cons. cbn [fst]. rewrite decide_True by exact I.
  cbn [map snd]. f_equal. exact IH.
Qed.

Lemma masked_none {A} (a : nat) (col : list A) : masked (repeat false a) col = [].
Proof.
  unfold masked. revert col. induction a as [|a IH]; intros col; [reflexivity|].
  destruct col as [|x col]; [reflexivity|].
  cbn [repeat]. change (zip (?a :: ?l) (?b :: ?k)) with ((a, b) :: zip l k).
  rewrite filter_cons. cbn [fst]. rewrite decide_False by (intros H; exact H). apply IH.
Qed.

Lemma masked_app {A} (m1 m2 : list bool) (c1 c2 : list A) :
  length m1 = length c1 ->
  masked (m1 ++ m2) (c1 ++ c2) = masked m1 c1 ++ masked m2 c2.
Proof.
  intros H. unfold masked. rewrite (zip_with_app pair m1 m2 c1 c2 H).
  rewrite filter_app, map_app. reflexivity.
Qed.

Lemma masked_prefix {A} (a b : nat) (col : list A) :
  (a <= length col)%nat ->
  masked (repeat true a ++ repeat false b) col = take a col.
Proof.
  intros Ha. rewrite <- (take_drop a col) at 1.
  rewrite masked_app by (rewrite repeat_length, length_take; lia).
  rewrite masked_none, app_nil_r.
  replace a with (length (take a col)) at 1 by (rewrite length_take; lia).
  apply masked_all.
Qed.

Lemma of_nat_leb (b i : nat) :
  Float.leb (Float.of_nat b) (Float.of_nat i) = (b <=? i)%nat.
Proof.
  unfold Float.leb. destruct (Nat.leb_spec b i) as [H|H].
  - destruct (Nat.eq_dec b i) as [->|Hne].
    + rewrite (float_eqb_refl _ (of_nat_not_nan i)). apply orb_true_r.
    + rewrite of_nat_increasing by lia. reflexivity.
  - rewrite (float_ltb_asym _ _ (of_nat_increasing i b H)). cbn [orb].
    destruct (Float.eqb (Float.of_nat b) (Float.of_nat i)) eqn:E; [|reflexivity].
    apply float_eqb_eq, of_nat_injective in E. lia.
Qed.

Lemma mask_blocks (n i : nat) (l : list nat) (c : bool) :
  (forall b, In b l -> (b <=? i)%nat = c) ->
  map (fun g => Float.leb g (Float.of_nat i))
      (flat_map (fun b => repeat (Float.of_nat b) n) l)
  = repeat c (length l * n).
Proof.
  induction l as [|b l IH]; intros H; [reflexivity|].
  cbn [flat_map length]. rewrite map_app, IH by (intros y Hy; apply H; right; assumption).
  replace ((S (length l)) * n)%nat with (n + length l * n)%nat by lia.
  rewrite repeat_app. f_equal.
  rewrite List.map_repeat. f_equal. rewrite of_nat_leb. apply H. left. reflexivity.
Qed.

(** The rows of the bins up to [i] are the first rows of the table. *)
Lemma masked_bins {A} (n m i : nat) (col : list A) :
  (i < m)%nat -> length col = (m * n)%nat ->
  masked (map (fun g => Float.leb g (Float.of_nat i))
              (flat_map (fun b => repeat (Float.of_nat b) n) (seq 0 m)))
         col
  = take (S i * n) col.
Proof.
  intros Hi Hlen.
  replace m with (S i + (m - S i))%nat at 1 by lia.
  rewrite seq_app, flat_map_app, map_app.
  rewrite (mask_blocks n i (seq 0 (S i)) true).
  - rewrite (mask_blocks n i (seq (0 + S i) (m - S i)) false).
    + rewrite !length_seq. apply masked_prefix. rewrite Hlen. nia.
    + intros b Hb. apply in_seq in Hb. apply Nat.leb_gt. lia.
  - intros b Hb. apply in_seq in Hb. apply Nat.leb_le. lia.
Qed.

(** The values of the rows whose key is [t]. *)
Definition picked (keys col : list float) (t : float) : list float :=
  map snd (filter (fun r : float * float => Float.eqb (fst r) t) (zip keys col)).

Lemma picked_none (keys col : list float) (t : float) :
  Forall (fun x => Float.eqb x t = false) keys -> picked keys col t = [].
Proof.
  unfold picked. intros H. revert col. induction H as [|x keys Hx H IH]; intros col;
    [reflexivity|].
  destruct col as [|y col]; [reflexivity|].
  change (zip (?a :: ?l) (?b :: ?k)) with ((a, b) :: zip l k).
  rewrite filter_cons. cbn [fst]. rewrite Hx.
  rewrite decide_False by (intros F; exact F). apply IH.
Qed.

Lemma picked_app (k1 k2 c1 c2 : list float) (t : float) :
  length k1 = length c1 ->
  picked (k1 ++ k2) (c1 ++ c2) t = picked k1 c1 t ++ picked k2 c2 t.
Proof.
  intros H. unfold picked. rewrite (zip_with_app pair k1 k2 c1 c2 H).
  rewrite filter_app, map_app. reflexivity.
Qed.

Lemma ltb_not_eqb (a b : float) : Float.ltb a b = true -> Float.eqb a b = false.
Proof.
  intros H. destruct (Float.eqb a b) eqn:E; [|reflexivity].
  apply float_eqb_eq in E. subst. rewrite float_ltb_irrefl in H. discriminate.
Qed.

Lemma ltb_not_eqb_sym (a b : float) : Float.ltb a b = true -> Float.eqb b a = false.
Proof.
  intros H. destruct (Float.eqb b a) eqn:E; [|reflexivity].
  apply float_eqb_eq in E. subst. rewrite float_ltb_irrefl in H. discriminate.
Qed.

(** In a block whose keys increase strictly, one row has the key. *)
Lemma picked_block (et : list float) : forall (c : list float) (k : nat) (t v : float),
  StronglySorted (fun a b => Float.ltb a b = true) et ->
  Forall not_nan et ->
  et !! k = Some t -> c !! k = Some v ->
  picked et c t = [v].
Proof.
  induction et as [|x et IH]; intros c k t v Hs Hn Ht Hv; [discriminate|].
  destruct c as [|y c]; [discriminate|].
  inversion Hs as [|? ? Hs' Hx]. subst. inversion Hn as [|? ? Hnx Hn']. subst.
  unfold picked. change (zip (?a :: ?l) (?b :: ?k)) with ((a, b) :: zip l k).
  rewrite filter_cons. cbn [fst]. destruct k as [|k].
  - inversion Ht. inversion Hv. subst.
    rewrite (float_eqb_refl t Hnx). rewrite decide_True by exact I.
    cbn [map snd]. f_equal. apply picked_none.
    eapply Forall_impl; [exact Hx|]. intros z Hz. apply ltb_not_eqb_sym. exact Hz.
  - cbn [lookup list_lookup] in Ht, Hv.
    assert (Hxt : Float.eqb x t = false).
    { apply ltb_not_eqb. rewrite List.Forall_forall in Hx. apply Hx.
      apply list_elem_of_In. eapply list_elem_of_lookup_2. exact Ht. }
    rewrite Hxt. rewrite decide_False by (intros F; exact F).
    apply (IH c k t v); assumption.
Qed.

Lemma omap_seq_shift {A} (f : nat -> option A) (m : nat) :
  omap f (seq 1 m) = omap (fun b => f (S b)) (seq 0 m).
Proof.
  rewrite <- seq_shift. induction (seq 0 m) as [|b l IH]; [reflexivity|].
  cbn [map omap list_omap]. destruct (f (S b)); [f_equal|]; exact IH.
Qed.

(** In [m] such blocks one after the other, one row per block has the
    key. *)
Lemma picked_blocks (et : list float) (k : nat) (t : float) :
  StronglySorted (fun a b => Float.ltb a b = true) et ->
  Forall not_nan et ->
  et !! k = Some t ->
  forall (m s : nat) (col : list float),
    length col = (m * length et)%nat ->
    picked (flat_map (fun _ => et) (seq s m)) col t
    = omap (fun b => col !! (b * length et + k)%nat) (seq 0 m).
Proof.
  intros Hs Hn Ht. induction m as [|m IH]; intros s col Hlen; [reflexivity|].
  assert (Hk : (k < length et)%nat) by (eapply lookup_lt_Some; exact Ht).
  cbn [seq flat_map].
  rewrite <- (take_drop (length et) col) at 1.
  rewrite picked_app by (rewrite length_take; lia).
  destruct (lookup_lt_is_Some_2 col k ltac:(lia)) as [v Hv].
  rewrite (picked_block et (take (length et) col) k t v Hs Hn Ht)
    by (rewrite lookup_take_lt by lia; exact Hv).
  rewrite IH by (rewrite length_drop; lia).
  cbn [omap list_omap]. cbn [Nat.mul Nat.add]. rewrite Hv.
  cbn [app]. f_equal. rewrite omap_seq_shift.
  apply list_omap_ext. apply Forall_Forall2_diag. apply Forall_forall.
  intros b _. rewrite lookup_drop. f_equal. lia.
Qed.

Lemma take_blocks {A} (f : nat -> list A) (n a r : nat) :
  (forall b, length (f b) = n) ->
  take (a * n) (flat_map f (seq 0 (a + r))) = flat_map f (seq 0 a).
Proof.
  intros H. rewrite seq_app, flat_map_app.
  assert (Hlen : length (flat_map f (seq 0 a)) = (a * n)%nat).
  { rewrite (flat_map_length_uniform f _ n), length_seq; [reflexivity|]. intros; apply H. }
  rewrite <- Hlen. apply take_app_length.
Qed.

(** [groupby(['times']).sum()] and the selection of three columns, on a
    frame with the four columns of the table of local effects. *)
Lemma summed_columns (a b c d : list float) :
  rbind (groupby_sum [("groups", a); ("times", b); ("pred", c); ("group_values", d)] "times")
        (fun summed => df_select summed ["groups"; "times"; "pred"])
  = Ok [("groups", map (fun g => sum_skipna (picked b a g)) (sum_keys b));
        ("times", sum_keys b);
        ("pred", map (fun g => sum_skipna (picked b c g)) (sum_keys b))].
Proof. reflexivity. Qed.

Section AccumulatedCurves.

(** A table of local effects of the shape [accumulated_local_effects_plots]
    returns: ten bins at the evaluation times [eval_times], bin by bin. *)
Variables (eval_times groups times pred group_values : list float).

Let n_times := length eval_times.

Definition effects_table : table :=
  [("groups", groups); ("times", times); ("pred", pred); ("group_values", group_values)].

Hypothesis times_increasing :
  StronglySorted (fun a b => Float.ltb a b = true) eval_times.
Hypothesis times_not_nan : Forall not_nan eval_times.
Hypothesis times_nonempty : eval_times <> [].
Hypothesis groups_length : length groups = (10 * n_times)%nat.
Hypothesis times_length : length times = (10 * n_times)%nat.
Hypothesis pred_length : length pred = (10 * n_times)%nat.
Hypothesis group_values_length : length group_values = (10 * n_times)%nat.
Hypothesis rows : forall b k, (b < 10)%nat -> (k < n_times)%nat ->
  groups !! (b * n_times + k)%nat = Some (Float.of_nat b) /\
  times !! (b * n_times + k)%nat = eval_times !! k.
Hypothesis breakpoints_distinct : (10 <= length (np_unique group_values))%nat.

Lemma n_times_positive : (0 < n_times)%nat.
Proof. unfold n_times. destruct eval_times; [contradiction|simpl; lia]. Qed.

Lemma groups_blocks :
  groups = flat_map (fun b => repeat (Float.of_nat b) n_times) (seq 0 10).
Proof.
  apply (blocks_eq groups _ 10 n_times groups_length).
  - intros b _. apply repeat_length.
  - intros b k Hb Hk. rewrite (proj1 (rows b k Hb Hk)). symmetry.
    apply lookup_repeat. assumption.
Qed.

Lemma times_blocks : times = flat_map (fun _ => eval_times) (seq 0 10).
Proof.
  apply (blocks_eq times _ 10 n_times times_length).
  - intros b _. reflexivity.
  - intros b k Hb Hk. apply (proj2 (rows b k Hb Hk)).
Qed.

Lemma groups_unique : np_unique groups = map Float.of_nat (seq 0 10).
Proof.
  pose proof n_times_positive as Hn.
  assert (Hin : forall x, In x groups <-> In x (map Float.of_nat (seq 0 10))).
  { intros x. rewrite groups_blocks at 1. rewrite in_flat_map, in_map_iff. split.
    - intros (b & Hb & Hx). apply repeat_spec in Hx. exists b. auto.
    - intros (b & Hx & Hb). exists b. split; [assumption|]. subst x.
      destruct n_times; [lia|]. left. reflexivity. }
  apply (sorted_same_elements (fun a b => Float.ltb a b = true)).
  - apply float_ltb_irreflexive.
  - apply float_ltb_strict.
  - apply np_unique_increasing. apply List.Forall_forall. intros x Hx.
    apply Hin, in_map_iff in Hx. destruct Hx as (b & <- & _). apply of_nat_not_nan.
  - apply (map_sorted lt); [|apply seq_increasing].
    intros a b _ _. apply of_nat_increasing.
  - intros x. rewrite np_unique_elements. apply Hin.
Qed.

(** The sums over the bins up to [i], time by time. *)
Definition accumulated (col : list float) (i : nat) : list float :=
  map (fun k => sum_skipna (omap (fun b => col !! (b * n_times + k)%nat) (seq 0 (S i))))
      (seq 0 n_times).

Lemma first_times (i : nat) :
  (i < 10)%nat ->
  take (S i * n_times) times = flat_map (fun _ => eval_times) (seq 0 (S i)).
Proof.
  intros Hi. rewrite times_blocks.
  replace 10%nat with (S i + (10 - S i))%nat at 1 by lia.
  apply take_blocks. reflexivity.
Qed.

Lemma first_times_keys (i : nat) :
  (i < 10)%nat -> sum_keys (take (S i * n_times) times) = eval_times.
Proof.
  intros Hi. rewrite (first_times i Hi).
  apply sum_keys_of_sorted; try assumption.
  intros x. rewrite in_flat_map. split.
  - intros (b & _ & Hx). exact Hx.
  - intros Hx. exists 0%nat. split; [left; reflexivity|assumption].
Qed.

Lemma accumulated_column (col : list float) (i : nat) :
  (i < 10)%nat -> length col = (10 * n_times)%nat ->
  map (fun g => sum_skipna (picked (take (S i * n_times) times)
                                   (take (S i * n_times) col) g))
      eval_times
  = accumulated col i.
Proof.
  intros Hi Hlen. unfold accumulated.
  rewrite <- (map_seq_lookup eval_times
                (fun k => sum_skipna
                            (omap (fun b => col !! (b * n_times + k)%nat) (seq 0 (S i))))
                (fun g => sum_skipna (picked (take (S i * n_times) times)
                                             (take (S i * n_times) col) g))).
  - reflexivity.
  - intros k t Hk. f_equal.
    assert (Hkn : (k < n_times)%nat) by (eapply lookup_lt_Some; exact Hk).
    rewrite (first_times i Hi).
    rewrite (picked_blocks eval_times k t times_increasing times_not_nan Hk)
      by (rewrite length_take; fold n_times; nia).
    fold n_times. symmetry.
    apply list_omap_ext. apply Forall_Forall2_diag. apply Forall_forall.
    intros b Hb. apply list_elem_of_In, in_seq in Hb.
    rewrite lookup_take_lt by nia. reflexivity.
Qed.

(** The line of the bin [i]. *)
Definition curve (i : nat) (color : float) : call float :=
  Lineplot [("groups", accumulated groups i); ("times", eval_times);
            ("pred", accumulated pred i)]
           "times" "pred" (Some color) None.

Lemma selected_rows (i : nat) :
  (i < 10)%nat ->
  loc_rows effects_table (map (fun g => Float.leb g (Float.of_nat i)) groups)
  = [("groups", take (S i * n_times) groups); ("times", take (S i * n_times) times);
     ("pred", take (S i * n_times) pred);
     ("group_values", take (S i * n_times) group_values)].
Proof.
  intros Hi.
  assert (Hm : forall col : list float,
             length col = (10 * n_times)%nat ->
             masked (map (fun g => Float.leb g (Float.of_nat i)) groups) col
             = take (S i * n_times) col).
  { intros col Hcol. rewrite groups_blocks. apply masked_bins; assumption. }
  unfold loc_rows, effects_table. cbn [map fst snd].
  fold (masked (map (fun g => Float.leb g (Float.of_nat i)) groups) groups).
  fold (masked (map (fun g => Float.leb g (Float.of_nat i)) groups) times).
  fold (masked (map (fun g => Float.leb g (Float.of_nat i)) groups) pred).
  fold (masked (map (fun g => Float.leb g (Float.of_nat i)) groups) group_values).
  rewrite !Hm by assumption. reflexivity.
Qed.

Lemma fig_bind_rbind {A B D} (r : result A) (f : A -> result B)
  (k : B -> Fig (C := float) D) calls :
  fig_bind (of_result r) (fun a => fig_bind (of_result (f a)) k) calls
  = fig_bind (of_result (rbind r f)) k calls.
Proof. destruct r; reflexivity. Qed.

Lemma accumulated_length (col : list float) (i : nat) :
  length (accumulated col i) = n_times.
Proof. unfold accumulated. rewrite length_map, length_seq. reflexivity. Qed.

Lemma accumulated_lookup (col : list float) (i k : nat) :
  (k < n_times)%nat ->
  accumulated col i !! k
  = Some (sum_skipna (omap (fun b => col !! (b * n_times + k)%nat) (seq 0 (S i)))).
Proof.
  intros Hk. unfold accumulated.
  change (map ?f ?l) with (f <$> l).
  rewrite list_lookup_fmap, (proj2 (lookup_seq 0 n_times k k) (conj eq_refl Hk)).
  reflexivity.
Qed.

(** X13. On a table of local effects of the shape
    [accumulated_local_effects_plots] returns (ten bins at the evaluation
    times, bin by bin) whose ten bins have distinct lower edges, [plot_ALE]
    draws ten lines, one per bin in increasing order, over the evaluation
    times.  The line of the bin [i] is the accumulated effect: at each
    evaluation time its [pred] value is the sum (NaN left out) of the local
    effects of the bins 0 to [i] at that time.  Its column [groups] is
    summed in the same way: it holds 0 + 1 + ... + [i], not [i]. *)
Theorem plot_ALE_accumulates (explained_feature : option string) :
  exists lines vmax,
    plot_ALE effects_table explained_feature []
    = (Done tt,
       [Subplots 9 5; SpinesLinewidth 2; SpinesEdgecolor "black"] ++ lines ++
       [Xlabel "Time"; Ylabel "";
        Colorbar Float.zero vmax "vertical" explained_feature
                 (Some (Finite (Q2Qc (1 # 10))));
        Title "Accumulated local effects"; Show]) /\
    length lines = 10%nat /\
    forall i, (i < 10)%nat ->
      exists color G P,
        lines !! i
        = Some (Lineplot [("groups", G); ("times", eval_times); ("pred", P)]
                         "times" "pred" (Some color) None) /\
        length P = n_times /\
        forall k, (k < n_times)%nat ->
          P !! k
          = Some (sum_skipna (omap (fun b => pred !! (b * n_times + k)%nat)
                                   (seq 0 (S i)))) /\
          G !! k = Some (sum_skipna (map Float.of_nat (seq 0 (S i)))).
Proof.
  assert (Hu : np_unique group_values <> []).
  { intros H. rewrite H in breakpoints_distinct. simpl in breakpoints_distinct. lia. }
  destruct (py_min_ok _ Hu) as [lo Hlo]. destruct (py_max_ok _ Hu) as [hi Hhi].
  set (norm := map (fun x => Float.div (Float.sub x lo) (Float.sub hi lo))
                   (np_unique group_values)).
  assert (Hnorm : normalized (np_unique group_values) = Ok norm).
  { unfold normalized. rewrite Hlo, Hhi. reflexivity. }
  assert (Hnlen : (10 <= length norm)%nat).
  { unfold norm. rewrite length_map. assumption. }
  set (line := fun i => curve i (default NaN (norm !! i))).
  exists (map line (seq 0 10)), hi. split; [|split].
  - unfold plot_ALE.
    rewrite (fig_bind_attr effects_table "groups" groups) by reflexivity.
    rewrite (fig_bind_attr effects_table "group_values" group_values) by reflexivity.
    cbv zeta. rewrite !fig_bind_emit.
    rewrite (fig_bind_of_result _ _ _ _ Hnorm).
    rewrite (fig_bind_of_result _ _ _ _ Hhi).
    rewrite groups_unique. rewrite length_map, length_seq.
    erewrite fig_bind_done.
    2: { apply (fig_for_lines _ _ line).
         intros i calls' Hi. apply in_seq in Hi.
         assert (H1 : np_getitem (map Float.of_nat (seq 0 10)) i = Ok (Float.of_nat i)).
         { unfold np_getitem. change (map ?f ?l) with (f <$> l).
           rewrite list_lookup_fmap, (proj2 (lookup_seq 0 10 i i)) by (split; lia).
           reflexivity. }
         rewrite (fig_bind_of_result _ _ _ _ H1).
         rewrite (fig_bind_attr effects_table "groups" groups) by reflexivity.
         cbv zeta. rewrite (selected_rows i) by lia.
         rewrite fig_bind_rbind, summed_columns.
         rewrite (first_times_keys i) by lia.
         rewrite (accumulated_column groups i) by (lia || assumption).
         rewrite (accumulated_column pred i) by (lia || assumption).
         destruct (lookup_lt_is_Some_2 norm i ltac:(lia)) as [c Hc].
         assert (H2 : np_getitem norm i = Ok c)
           by (unfold np_getitem; rewrite Hc; reflexivity).
         cbn [of_result]. unfold fig_bind at 1. cbn [fig_ret].
         rewrite (fig_bind_of_result _ _ _ _ H2).
         unfold line, curve. rewrite Hc. reflexivity. }
    rewrite !fig_bind_emit. unfold emit. cbn [app]. rewrite <- !app_assoc. reflexivity.
  - rewrite length_map, length_seq. reflexivity.
  - intros i Hi. exists (default NaN (norm !! i)), (accumulated groups i), (accumulated pred i).
    split; [|split].
    + change (map line (seq 0 10)) with (line <$> seq 0 10).
      rewrite list_lookup_fmap, (proj2 (lookup_seq 0 10 i i)) by (split; lia).
      reflexivity.
    + apply accumulated_length.
    + intros k Hk. split; [apply accumulated_lookup; assumption|].
      rewrite accumulated_lookup by assumption. f_equal. f_equal.
      transitivity (omap (fun b => Some (Float.of_nat b)) (seq 0 (S i))).
      * apply list_omap_ext. apply Forall_Forall2_diag. apply Forall_forall. intros b Hb.
        apply list_elem_of_In, in_seq in Hb.
        apply (proj1 (rows b k ltac:(lia) Hk)).
      * induction (seq 0 (S i)) as [|b l IH]; [reflexivity|].
        cbn [omap list_omap map]. rewrite IH. reflexivity.
Qed.

End AccumulatedCurves.

(** The table of local effects of the feature [x0] in the concrete
    setting. *)
Definition ale_example : table :=
  match (accumulated_local_effects_plots Example.predict stable Example.explainer0
           "x0" "survival" Example.s0).1 with
  | Ok tbl => tbl
  | Raise _ => []
  end.

Definition ale_column (name : string) : list float :=
  default [] (assoc_get ale_example name).

Lemma ale_example_columns :
  ale_example
  = effects_table (ale_column "groups") (ale_column "times") (ale_column "pred")
                  (ale_column "group_values").
Proof. vm_compute. reflexivity. Qed.

Lemma plot_ALE_accumulates_witness :
  let eval_times := ale_eval_times Example.explainer0 in
  let n_times := length eval_times in
  exists lines vmax,
    plot_ALE (effects_table (ale_column "groups") (ale_column "times")
                            (ale_column "pred") (ale_column "group_values"))
             (Some "x0") []
    = (Done tt,
       [Subplots 9 5; SpinesLinewidth 2; SpinesEdgecolor "black"] ++ lines ++
       [Xlabel "Time"; Ylabel "";
        Colorbar Float.zero vmax "vertical" (Some "x0")
                 (Some (Finite (Q2Qc (1 # 10))));
        Title "Accumulated local effects"; Show]) /\
    length lines = 10%nat /\
    forall i, (i < 10)%nat ->
      exists color G P,
        lines !! i
        = Some (Lineplot [("groups", G); ("times", eval_times); ("pred", P)]
                         "times" "pred" (Some color) None) /\
        length P = n_times /\
        forall k, (k < n_times)%nat ->
          P !! k
          = Some (sum_skipna (omap (fun b => ale_column "pred" !! (b * n_times + k)%nat)
                                   (seq 0 (S i)))) /\
          G !! k = Some (sum_skipna (map Float.of_nat (seq 0 (S i)))).
Proof.
  apply (plot_ALE_accumulates (ale_eval_times Example.explainer0)
           (ale_column "groups") (ale_column "times") (ale_column "pred")
           (ale_column "group_values")).
  - apply eval_times_increasing. exact example_labels_not_nan.
  - apply List.Forall_forall. intros t Ht.
    apply (eval_times_not_nan Example.explainer0 t example_labels_not_nan Ht).
  - vm_compute. discriminate.
  - vm_compute. reflexivity.
  - vm_compute. reflexivity.
  - vm_compute. reflexivity.
  - vm_compute. reflexivity.
  - intros b k Hb Hk.
    assert (Hk2 : (k < 2)%nat) by exact Hk.
    do 10 (destruct b as [|b];
           [do 2 (destruct k as [|k]; [split; vm_compute; reflexivity|]); lia|]).
    lia.
  - vm_compute. lia.
Defined.

(** *** Bins that share a lower edge *)

Lemma assoc_get_filter_key {V} (t : list (string * V)) (k name : string) :
  String.eqb name k = false ->
  assoc_get (filter (fun c : string * V => negb (String.eqb (fst c) k)) t) name
  = assoc_get t name.
Proof.
  intros Hne. unfold assoc_get. induction t as [|c t IH]; [reflexivity|].
  rewrite filter_cons. destruct (String.eqb (fst c) k) eqn:E; cbn [negb].
  - rewrite decide_False by (intros F; exact F).
    cbn [List.find]. apply String.eqb_eq in E.
    assert (Hc : String.eqb (fst c) name = false).
    { rewrite E. rewrite String.eqb_sym. exact Hne. }
    rewrite Hc. exact IH.
  - rewrite decide_True by exact I. cbn [List.find].
    destruct (String.eqb (fst c) name); [reflexivity|exact IH].
Qed.

Lemma assoc_get_cons_same {V} (t : list (string * V)) (k : string) (v : V) :
  assoc_get ((k, v) :: t) k = Some v.
Proof. unfold assoc_get. cbn [List.find fst]. rewrite String.eqb_refl. reflexivity. Qed.

Lemma assoc_get_cons_other {V} (t : list (string * V)) (k name : string) (v : V) :
  String.eqb name k = false -> assoc_get ((k, v) :: t) name = assoc_get t name.
Proof.
  intros H. unfold assoc_get. cbn [List.find fst].
  rewrite String.eqb_sym in H. rewrite H. reflexivity.
Qed.

Lemma groupby_sum_columns (t : table) (k : string) (keys : list float) :
  assoc_get t k = Some keys ->
  exists summed,
    groupby_sum t k = Ok summed /\
    (exists c, assoc_get summed k = Some c) /\
    forall name c, String.eqb name k = false -> assoc_get t name = Some c ->
                   exists c', assoc_get summed name = Some c'.
Proof.
  intros Hk. unfold groupby_sum. rewrite Hk. cbv zeta.
  set (groups := dedup_sorted Float.eqb
                   (isort Float.ltb (filter (fun x => negb (Float.is_nan x)) keys))).
  set (sums := fun c : list float =>
                 map (fun g => sum_skipna
                                 (map snd (filter (fun r : float * float =>
                                                     Float.eqb (fst r) g) (zip keys c))))
                     groups).
  exists ((k, groups) ::
          map (fun c => (fst c, sums (snd c)))
              (filter (fun c : string * list float => negb (String.eqb (fst c) k))
                      (t : list (string * list float)))).
  split; [reflexivity|]. split.
  - exists groups. apply assoc_get_cons_same.
  - intros name c Hne Hc. rewrite assoc_get_cons_other by assumption.
    rewrite (assoc_get_map_values sums).
    rewrite (assoc_get_filter_key _ k name Hne).
    unfold table, frame in Hc. rewrite Hc. eexists. reflexivity.
Qed.

(** The frame of a curve can be made as soon as the table has the columns
    [groups], [times] and [pred]. *)
Lemma curve_frame_ok (res : table) (mask : list bool) (gcol tcol pcol : list float) :
  assoc_get res "groups" = Some gcol ->
  assoc_get res "times" = Some tcol ->
  assoc_get res "pred" = Some pcol ->
  exists frame_of_curve,
    rbind (groupby_sum (loc_rows res mask) "times")
          (fun summed => df_select summed ["groups"; "times"; "pred"])
    = Ok frame_of_curve.
Proof.
  intros Hg Ht Hp.
  destruct (groupby_sum_columns (loc_rows res mask) "times" _
              (loc_rows_column res mask "times" tcol Ht))
    as (summed & Hsum & [t' Ht'] & Hcol).
  destruct (Hcol "groups" _ eq_refl (loc_rows_column res mask "groups" gcol Hg))
    as [g' Hg'].
  destruct (Hcol "pred" _ eq_refl (loc_rows_column res mask "pred" pcol Hp))
    as [p' Hp'].
  rewrite Hsum. cbn [rbind df_select]. rewrite Hg', Ht', Hp'. eexists. reflexivity.
Qed.

(** X14. [plot_ALE] takes the colour of the line of the i-th bin from the
    i-th distinct value of the column [group_values].  On a table with the
    columns [groups], [times], [pred] and [group_values] in which the column
    [group_values] has fewer distinct values than the column [groups] (two
    bins share a lower edge), it draws one line per distinct value of
    [group_values] and then raises [IndexError]: the figure is left
    unfinished. *)
Theorem plot_ALE_fewer_edges (res : table) (gcol vcol tcol pcol : list float)
  (explained_feature : option string) :
  assoc_get res "groups" = Some gcol ->
  assoc_get res "group_values" = Some vcol ->
  assoc_get res "times" = Some tcol ->
  assoc_get res "pred" = Some pcol ->
  vcol <> [] ->
  (length (np_unique vcol) < length (np_unique gcol))%nat ->
  exists msg lines,
    plot_ALE res explained_feature []
    = (Failed (Python (IndexError msg)),
       [Subplots 9 5; SpinesLinewidth 2; SpinesEdgecolor "black"] ++ lines) /\
    length lines = length (np_unique vcol) /\
    Forall (fun c => match c with Lineplot _ _ _ _ _ => True | _ => False end) lines.
Proof.
  intros Hg Hv Ht Hp Hne Hlt.
  pose proof (np_unique_nonempty vcol Hne) as Hu.
  destruct (py_min_ok _ Hu) as [lo Hlo]. destruct (py_max_ok _ Hu) as [hi Hhi].
  set (norm := map (fun x => Float.div (Float.sub x lo) (Float.sub hi lo)) (np_unique vcol)).
  assert (Hnorm : normalized (np_unique vcol) = Ok norm).
  { unfold normalized. rewrite Hlo, Hhi. reflexivity. }
  assert (Hnlen : length norm = length (np_unique vcol)) by apply length_map.
  set (m := length (np_unique vcol)) in *.
  set (frame_of := fun i =>
         match rbind (groupby_sum
                        (loc_rows res
                           (map (fun g => Float.leb g (default NaN (np_unique gcol !! i)))
                                gcol)) "times")
                     (fun summed => df_select summed ["groups"; "times"; "pred"]) with
         | Ok t => t
         | Raise _ => []
         end).
  set (line := fun i => Lineplot (frame_of i) "times" "pred"
                          (Some (default NaN (norm !! i))) (@None float)).
  exists "index out of bounds", (map line (seq 0 m)). split; [|split].
  - unfold plot_ALE.
    rewrite (fig_bind_attr res "groups" gcol) by assumption.
    rewrite (fig_bind_attr res "group_values" vcol) by assumption.
    cbv zeta. rewrite !fig_bind_emit.
    rewrite (fig_bind_of_result _ _ _ _ Hnorm).
    rewrite (fig_bind_of_result _ _ _ _ Hhi).
    replace (length (np_unique gcol))
      with (m + S (length (np_unique gcol) - S m))%nat by lia.
    rewrite seq_app. cbn [seq Nat.add].
    apply fig_bind_failed.
    apply (fig_for_fails _ _ _ _ line).
    + intros i calls' Hi. apply in_seq in Hi.
      destruct (lookup_lt_is_Some_2 (np_unique gcol) i ltac:(lia)) as [g Hgi].
      assert (H1 : np_getitem (np_unique gcol) i = Ok g)
        by (unfold np_getitem; rewrite Hgi; reflexivity).
      rewrite (fig_bind_of_result _ _ _ _ H1).
      rewrite (fig_bind_attr res "groups" gcol) by assumption.
      cbv zeta. rewrite fig_bind_rbind.
      destruct (curve_frame_ok res (map (fun x => Float.leb x g) gcol) gcol tcol pcol
                  Hg Ht Hp) as [t Hframe].
      rewrite Hframe.
      destruct (lookup_lt_is_Some_2 norm i ltac:(lia)) as [c Hc].
      assert (H2 : np_getitem norm i = Ok c)
        by (unfold np_getitem; rewrite Hc; reflexivity).
      cbn [of_result]. unfold fig_bind at 1. cbn [fig_ret].
      rewrite (fig_bind_of_result _ _ _ _ H2).
      unfold line, frame_of. rewrite Hgi, Hc. cbn [from_option id].
      rewrite Hframe. reflexivity.
    + intros calls'.
      destruct (lookup_lt_is_Some_2 (np_unique gcol) m ltac:(lia)) as [g Hgm].
      assert (H1 : np_getitem (np_unique gcol) m = Ok g)
        by (unfold np_getitem; rewrite Hgm; reflexivity).
      rewrite (fig_bind_of_result _ _ _ _ H1).
      rewrite (fig_bind_attr res "groups" gcol) by assumption.
      cbv zeta. rewrite fig_bind_rbind.
      destruct (curve_frame_ok res (map (fun x => Float.leb x g) gcol) gcol tcol pcol
                  Hg Ht Hp) as [t Hframe].
      rewrite Hframe. cbn [of_result]. unfold fig_bind at 1. cbn [fig_ret].
      apply fig_bind_failed.
      unfold np_getitem. rewrite (lookup_ge_None_2 norm m) by lia. reflexivity.
  - rewrite length_map, length_seq. reflexivity.
  - apply List.Forall_forall. intros c Hc. apply in_map_iff in Hc.
    destruct Hc as (i & <- & _). exact I.
Qed.

(** A dataset whose 80% and 90% quantiles coincide: the table of local
    effects is returned, and the last two bins have the same lower edge. *)
Module Tied.

Definition h0 : gmap loc obj :=
  list_to_map
    [(1%positive, Ndarray (map Example.fz [0; 1; 2; 3; 4; 5; 6; 7; 8; 8; 100]%Z));
     (2%positive, DataFrame [("x0", 1%positive)])].

Definition explainer0 : explainer unit :=
  Explainer tt 2%positive (map (fun i => (Float.of_nat i, Float.one)) (seq 0 111)).

Definition s0 : @state nat := State h0 0.

Definition effects : table :=
  match (accumulated_local_effects_plots Example.predict stable explainer0
           "x0" "survival" s0).1 with
  | Ok tbl => tbl
  | Raise _ => []
  end.

Definition column (name : string) : list float :=
  default [] (assoc_get effects name).

End Tied.

Lemma tied_effects_returned :
  (accumulated_local_effects_plots Example.predict stable Tied.explainer0
     "x0" "survival" Tied.s0).1 = Ok Tied.effects.
Proof. vm_compute. reflexivity. Qed.

Lemma plot_ALE_fewer_edges_witness :
  exists msg lines,
    plot_ALE Tied.effects (Some "x0") []
    = (Failed (Python (IndexError msg)),
       [Subplots 9 5; SpinesLinewidth 2; SpinesEdgecolor "black"] ++ lines) /\
    length lines = length (np_unique (Tied.column "group_values")) /\
    Forall (fun c => match c with Lineplot _ _ _ _ _ => True | _ => False end) lines.
Proof.
  apply (plot_ALE_fewer_edges Tied.effects (Tied.column "groups")
           (Tied.column "group_values") (Tied.column "times") (Tied.column "pred")).
  - vm_compute. reflexivity.
  - vm_compute. reflexivity.
  - vm_compute. reflexivity.
  - vm_compute. reflexivity.
  - vm_compute. discriminate.
  - vm_compute. lia.
Defined.

(** *** Feature importance *)

(** The order of strings. *)
Lemma ascii_compare_trans (a b c : Ascii.ascii) :
  Ascii.compare a b = Lt -> Ascii.compare b c = Lt -> Ascii.compare a c = Lt.
Proof.
  unfold Ascii.compare. rewrite !N.compare_lt_iff. apply N.lt_trans.
Qed.

Lemma string_compare_trans (a : string) : forall b c,
  String.compare a b = Lt -> String.compare b c = Lt -> String.compare a c = Lt.
Proof.
  induction a as [|x a IH]; intros [|y b] [|z c]; cbn [String.compare];
    try discriminate; try reflexivity.
  destruct (Ascii.compare x y) eqn:Exy; try discriminate;
    destruct (Ascii.compare y z) eqn:Eyz; try discriminate; intros H1 H2.
  - apply Ascii.compare_eq_iff in Exy, Eyz. subst.
    assert (E : Ascii.compare z z = Eq) by (unfold Ascii.compare; apply N.compare_refl).
    rewrite E. eapply IH; eassumption.
  - apply Ascii.compare_eq_iff in Exy. subst. rewrite Eyz. reflexivity.
  - apply Ascii.compare_eq_iff in Eyz. subst. rewrite Exy. reflexivity.
  - rewrite (ascii_compare_trans _ _ _ Exy Eyz). reflexivity.
Qed.

Lemma string_compare_refl (a : string) : String.compare a a = Eq.
Proof.
  induction a as [|x a IH]; [reflexivity|]. cbn [String.compare].
  assert (E : Ascii.compare x x = Eq) by (unfold Ascii.compare; apply N.compare_refl).
  rewrite E. exact IH.
Qed.

Lemma string_ltb_lt (a b : string) : String.ltb a b = true <-> String.compare a b = Lt.
Proof. unfold String.ltb. destruct (String.compare a b); split; congruence. Qed.

Lemma string_ltb_ge (a b : string) :
  String.ltb a b = false <-> String.compare b a <> Gt.
Proof.
  unfold String.ltb. rewrite (String.compare_antisym b a).
  destruct (String.compare a b); cbn [CompOpp]; split; congruence.
Qed.

Lemma string_ltb_asym (a b : string) : String.ltb a b = true -> String.ltb b a = false.
Proof.
  rewrite string_ltb_lt, string_ltb_ge. intros H. rewrite H. discriminate.
Qed.

Lemma string_ltb_trans (a b c : string) :
  String.ltb a b = true -> String.ltb b c = true -> String.ltb a c = true.
Proof. rewrite !string_ltb_lt. apply string_compare_trans. Qed.

Lemma string_ltb_irrefl (a : string) : String.ltb a a = false.
Proof. unfold String.ltb. rewrite string_compare_refl. reflexivity. Qed.

Lemma string_total (a b : string) :
  String.ltb a b = false -> String.ltb b a = false -> a = b.
Proof.
  unfold String.ltb. rewrite (String.compare_antisym b a).
  destruct (String.compare a b) eqn:E; cbn [CompOpp]; try discriminate.
  intros _ _. apply String.compare_eq_iff. exact E.
Qed.

Lemma string_ltb_leb_trans (a b c : string) :
  String.ltb a b = true -> String.ltb c b = false -> String.ltb a c = true.
Proof.
  intros H1 H2. destruct (String.ltb a c) eqn:E; [reflexivity|].
  destruct (String.ltb c a) eqn:E'.
  - rewrite (string_ltb_trans c a b E' H1) in H2. discriminate.
  - rewrite (string_total a c E E') in H1. congruence.
Qed.

Lemma string_leb_trans (a b c : string) :
  String.ltb b a = false -> String.ltb c b = false -> String.ltb c a = false.
Proof.
  intros H1 H2. destruct (String.ltb c a) eqn:E; [|reflexivity].
  rewrite (string_ltb_leb_trans c a b E H1) in H2. discriminate.
Qed.

Lemma np_unique_str_sorted (a : list string) :
  StronglySorted (fun x y => String.ltb x y = true) (np_unique_str a).
Proof.
  unfold np_unique_str.
  apply (dedup_sorted_strict String.ltb String.eqb (fun _ => True)).
  - intros x y z _ _ _. apply string_ltb_leb_trans.
  - intros x y _ _ H1 H2. apply String.eqb_eq. apply string_total; assumption.
  - apply List.Forall_forall. intros; exact I.
  - apply (isort_sorted String.ltb (fun _ => True)).
    + intros x y _ _. apply string_ltb_asym.
    + intros x y z _ _ _. apply string_leb_trans.
    + apply List.Forall_forall. intros; exact I.
Qed.

Lemma np_unique_str_elements (a : list string) (x : string) :
  In x (np_unique_str a) <-> In x a.
Proof.
  unfold np_unique_str. split; intros H.
  - apply dedup_sorted_incl in H.
    apply (Permutation_in _ (isort_perm String.ltb a)). assumption.
  - apply dedup_sorted_complete; [intros s s'; apply String.eqb_eq|].
    apply (Permutation_in _ (Permutation_sym (isort_perm String.ltb a))). assumption.
Qed.

Section FeatureLines.

Variable float_text : float -> string.
Variable unique_objects : list cell -> outcome (list cell).

Definition name_cell (s : string) : cell := CStr (Lit s).

Lemma names_texts (names : list string) :
  mapM (cell_text float_text) (map name_cell names) = Some names.
Proof.
  induction names as [|s names IH]; [reflexivity|].
  cbn [map]. change (mapM (cell_text float_text) (name_cell s :: map name_cell names))
    with (x' ← cell_text float_text (name_cell s);
          l' ← mapM (cell_text float_text) (map name_cell names); mret (x' :: l')).
  rewrite IH. reflexivity.
Qed.

Lemma name_mask (names : list string) (f : string) :
  map (fun c => cell_eqb float_text c (name_cell f)) (map name_cell names)
  = map (fun s => String.eqb s f) names.
Proof. rewrite map_map. reflexivity. Qed.

Lemma selected_names_constant (names : list string) (f : string) :
  map snd (filter (fun r : bool * cell => fst r)
                  (zip (map (fun s => String.eqb s f) names) (map name_cell names)))
  = repeat (name_cell f) (length (filter (fun s => String.eqb s f) names)).
Proof.
  induction names as [|s names IH]; [reflexivity|].
  cbn [map]. change (zip (?a :: ?l) (?b :: ?k)) with ((a, b) :: zip l k).
  rewrite !filter_cons. cbn [fst].
  destruct (String.eqb s f) eqn:E.
  - rewrite !decide_True by exact I. cbn [map snd length repeat].
    apply String.eqb_eq in E. subst s. f_equal. exact IH.
  - rewrite !decide_False by (intros H; exact H). exact IH.
Qed.

Lemma selected_names_nonempty (names : list string) (f : string) :
  In f names -> (0 < length (filter (fun s => String.eqb s f) names))%nat.
Proof.
  intros Hin. induction names as [|s names IH]; [contradiction|].
  rewrite filter_cons. destruct Hin as [->|Hin].
  - rewrite String.eqb_refl. rewrite decide_True by exact I. simpl. lia.
  - destruct (decide (String.eqb s f)); [simpl; lia|]. apply IH. assumption.
Qed.

(** X15. On a table of importances whose column [feat] holds feature
    names, [plot_PFI] draws one line per distinct name, in the alphabetical
    order of the names (which need not be the order of the features in the
    table), labelled with the name.  The line of a feature shows exactly the
    rows of the table that carry its name: at least one row, and its column
    [feat] is the name repeated. *)
Theorem plot_PFI_lines (res : frame cell) (names : list string) :
  assoc_get res "feat" = Some (map name_cell names) ->
  let line (f : string) :=
    Lineplot (loc_rows res (map (fun s => String.eqb s f) names))
             "times" "perf" None (Some (name_cell f)) in
  plot_PFI float_text unique_objects res []
  = (Done tt,
     [Subplots 9 5; SpinesLinewidth 2; SpinesEdgecolor "black"] ++
     map line (np_unique_str names) ++
     [Xlabel "Times"; Ylabel ""; Legend "lower left" 3;
      Title "Permutation feature importance"; Show]) /\
  StronglySorted (fun x y => String.ltb x y = true) (np_unique_str names) /\
  (forall f, In f (np_unique_str names) <-> In f names) /\
  (forall f, In f names ->
     exists k, (0 < k)%nat /\
       assoc_get (loc_rows res (map (fun s => String.eqb s f) names)) "feat"
       = Some (repeat (name_cell f) k)).
Proof.
  intros Hfeat line. split; [|split; [|split]].
  - unfold plot_PFI.
    rewrite (fig_bind_attr res "feat" _ _ _ Hfeat).
    unfold np_unique_cells. rewrite names_texts.
    unfold fig_bind at 1. cbn [fig_ret].
    rewrite !fig_bind_emit.
    erewrite fig_bind_done.
    2: { apply (fig_for_lines _ _
                  (fun c => match c with
                            | CStr (Lit f) => line f
                            | _ => Show
                            end)).
         intros c calls' Hc. apply in_map_iff in Hc. destruct Hc as (f & <- & _).
         rewrite (fig_bind_attr res "feat" _ _ _ Hfeat).
         fold (name_cell f). rewrite name_mask. reflexivity. }
    rewrite !fig_bind_emit. unfold emit. rewrite map_map.
    cbn [app]. rewrite <- !app_assoc. reflexivity.
  - apply np_unique_str_sorted.
  - intros f. apply np_unique_str_elements.
  - intros f Hin. exists (length (filter (fun s => String.eqb s f) names)).
    split; [apply selected_names_nonempty; assumption|].
    rewrite (loc_rows_column res _ "feat" _ Hfeat).
    rewrite selected_names_constant. reflexivity.
Qed.

End FeatureLines.

Lemma plot_PFI_lines_witness :
  let res : frame cell :=
    [("feat", map name_cell ["x1"; "x1"; "x0"; "x0"]);
     ("times", map CNum [Example.fz 1; Example.fz 2; Example.fz 1; Example.fz 2]);
     ("perf", map CNum [Example.fz 1; Example.fz 1; Example.fz 1; Example.fz 1])] in
  let names := ["x1"; "x1"; "x0"; "x0"] in
  let line (f : string) :=
    Lineplot (loc_rows res (map (fun s => String.eqb s f) names))
             "times" "perf" None (Some (name_cell f)) in
  np_unique_str names = ["x0"; "x1"] /\
  plot_PFI (fun _ => "nan") Done res []
  = (Done tt,
     [Subplots 9 5; SpinesLinewidth 2; SpinesEdgecolor "black"] ++
     map line (np_unique_str names) ++
     [Xlabel "Times"; Ylabel ""; Legend "lower left" 3;
      Title "Permutation feature importance"; Show]) /\
  StronglySorted (fun x y => String.ltb x y = true) (np_unique_str names) /\
  (forall f, In f (np_unique_str names) <-> In f names) /\
  (forall f, In f names ->
     exists k, (0 < k)%nat /\
       assoc_get (loc_rows res (map (fun s => String.eqb s f) names)) "feat"
       = Some (repeat (name_cell f) k)).
Proof.
  intros res names line. split; [reflexivity|].
  exact (plot_PFI_lines (fun _ => "nan") Done res names eq_refl).
Defined.

(** *** Tables without rows, tables without the expected columns *)

(** X16. On a table whose columns are empty, [plot_PDP] and [plot_ALE]
    create the figure and then raise [ValueError], from [min] on an empty
    array: no line is drawn and nothing is shown.  [plot_PFI] raises nothing
    on such a table: it draws no line and shows a figure that has only its
    labels, legend and title.  On a table that lacks the column a function
    reads first, the function raises [AttributeError] before it creates the
    figure. *)
Theorem plots_without_rows
  (float_text : float -> string) (unique_objects : list cell -> outcome (list cell)) :
  (forall res : table,
     assoc_get res "times" = Some [] ->
     exists msg,
       plot_PDP res []
       = (Failed (Python (ValueError msg)),
          [Subplots 9 5; SpinesLinewidth 2; SpinesEdgecolor "black"])) /\
  (forall (res : table) (explained_feature : option string),
     assoc_get res "groups" = Some [] -> assoc_get res "group_values" = Some [] ->
     exists msg,
       plot_ALE res explained_feature []
       = (Failed (Python (ValueError msg)),
          [Subplots 9 5; SpinesLinewidth 2; SpinesEdgecolor "black"])) /\
  (forall res : frame cell,
     assoc_get res "feat" = Some [] ->
     plot_PFI float_text unique_objects res []
     = (Done tt,
        [Subplots 9 5; SpinesLinewidth 2; SpinesEdgecolor "black";
         Xlabel "Times"; Ylabel ""; Legend "lower left" 3;
         Title "Permutation feature importance"; Show])) /\
  (forall res : table,
     assoc_get res "times" = None ->
     plot_PDP res [] = (Failed (AttributeError "times"), [])) /\
  (forall (res : table) (explained_feature : option string),
     assoc_get res "groups" = None ->
     plot_ALE res explained_feature [] = (Failed (AttributeError "groups"), [])) /\
  (forall res : frame cell,
     assoc_get res "feat" = None ->
     plot_PFI float_text unique_objects res [] = (Failed (AttributeError "feat"), [])).
Proof.
  split; [|split; [|split; [|split; [|split]]]].
  - intros res H. eexists. unfold plot_PDP.
    rewrite (fig_bind_attr res "times" _ _ _ H). reflexivity.
  - intros res ef Hg Hv. eexists. unfold plot_ALE.
    rewrite (fig_bind_attr res "groups" _ _ _ Hg).
    rewrite (fig_bind_attr res "group_values" _ _ _ Hv). reflexivity.
  - intros res H. unfold plot_PFI.
    rewrite (fig_bind_attr res "feat" _ _ _ H). reflexivity.
  - intros res H. unfold plot_PDP, fig_bind, attr. rewrite H. reflexivity.
  - intros res ef H. unfold plot_ALE, fig_bind, attr. rewrite H. reflexivity.
  - intros res H. unfold plot_PFI, fig_bind, attr. rewrite H. reflexivity.
Qed.

Lemma plots_without_rows_witness :
  (exists msg,
     plot_PDP [("X", []); ("times", []); ("pred", [])] []
     = (Failed (Python (ValueError msg)),
        [Subplots 9 5; SpinesLinewidth 2; SpinesEdgecolor "black"])) /\
  (exists msg,
     plot_ALE [("groups", []); ("times", []); ("pred", []); ("group_values", [])] None []
     = (Failed (Python (ValueError msg)),
        [Subplots 9 5; SpinesLinewidth 2; SpinesEdgecolor "black"])) /\
  plot_PFI (fun _ => "nan") Done [("feat", []); ("times", []); ("perf", [])] []
  = (Done tt,
     [Subplots 9 5; SpinesLinewidth 2; SpinesEdgecolor "black";
      Xlabel "Times"; Ylabel ""; Legend "lower left" 3;
      Title "Permutation feature importance"; Show]) /\
  plot_PDP [("groups", []); ("pred", [])] [] = (Failed (AttributeError "times"), []) /\
  plot_ALE [("times", []); ("pred", [])] None [] = (Failed (AttributeError "groups"), []) /\
  plot_PFI (fun _ => "nan") Done [("times", []); ("perf", [])] []
  = (Failed (AttributeError "feat"), []).
Proof.
  destruct (plots_without_rows (fun _ => "nan") Done)
    as (Hpdp & Hale & Hpfi & Hpdp' & Hale' & Hpfi').
  split; [apply Hpdp; reflexivity|].
  split; [apply Hale; reflexivity|].
  split; [apply Hpfi; reflexivity|].
  split; [apply Hpdp'; reflexivity|].
  split; [apply Hale'; reflexivity|].
  apply Hpfi'; reflexivity.
Defined.

(** *** The curves of a partial dependence *)

(** The rows of a sorted list of keys that have a given second component:
    their first components are strictly increasing. *)
Lemma keys_at_time_sorted (groups : list (float * float)) (t : float) :
  StronglySorted (fun a b => key_ltb a b = true) groups ->
  StronglySorted (fun a b => Float.ltb a b = true)
    (map fst (filter (fun k : float * float => Float.eqb (snd k) t) groups)).
Proof.
  induction 1 as [|k groups Hs IH Hk]; [constructor|].
  rewrite filter_cons. destruct (decide (Float.eqb (snd k) t)) as [Ek|Ek]; [|exact IH].
  cbn [map]. constructor; [exact IH|].
  apply List.Forall_forall. intros x Hx. apply in_map_iff in Hx.
  destruct Hx as (k' & <- & Hk'). apply list_elem_of_In, list_elem_of_filter in Hk'.
  destruct Hk' as [Ek' Hin]. apply list_elem_of_In in Hin.
  rewrite List.Forall_forall in Hk. specialize (Hk k' Hin).
  apply key_ltb_true in Hk. destruct Hk as [Hk|[_ Hk]]; [exact Hk|].
  apply Is_true_true in Ek, Ek'. apply float_eqb_eq in Ek, Ek'.
  rewrite Ek, Ek', float_ltb_irrefl in Hk. discriminate.
Qed.

Lemma keys_at_time_rows (groups : list (float * float)) (t : float) :
  map snd (filter (fun r : bool * float => fst r)
                  (zip (map (fun x => Float.eqb x t) (map snd groups)) (map fst groups)))
  = map fst (filter (fun k : float * float => Float.eqb (snd k) t) groups).
Proof.
  induction groups as [|k groups IH]; [reflexivity|].
  cbn [map]. change (zip (?a :: ?l) (?b :: ?k)) with ((a, b) :: zip l k).
  rewrite !filter_cons. cbn [fst].
  destruct (Float.eqb (snd k) t).
  - rewrite !decide_True by exact I. cbn [map snd]. f_equal. exact IH.
  - rewrite !decide_False by (intros H; exact H). exact IH.
Qed.

Lemma keys_at_time_nonempty (groups : list (float * float)) (t : float) :
  Forall key_valid groups -> In t (map snd groups) ->
  map fst (filter (fun k : float * float => Float.eqb (snd k) t) groups) <> [].
Proof.
  intros Hv Hin. apply in_map_iff in Hin. destruct Hin as (k & <- & Hin).
  rewrite List.Forall_forall in Hv. specialize (Hv k Hin).
  apply key_valid_not_nan in Hv. destruct Hv as [_ Hv].
  assert (Hk : In k (filter (fun k' : float * float => Float.eqb (snd k') (snd k)) groups)).
  { apply list_elem_of_In, list_elem_of_filter. split.
    - apply Is_true_true. apply float_eqb_refl. exact Hv.
    - apply list_elem_of_In. exact Hin. }
  intros E. destruct (filter _ groups); [contradiction|discriminate].
Qed.

(** The calls that draw a curve. *)
Definition is_lineplot {C} (c : call C) : bool :=
  match c with
  | Lineplot _ _ _ _ _ => true
  | _ => false
  end.

Lemma filter_lineplots_map {A C} (f : A -> call C) (l : list A) :
  (forall x, is_lineplot (f x) = true) ->
  filter (fun c : call C => is_lineplot c) (map f l) = map f l.
Proof.
  intros Hf. induction l as [|x l IH]; [reflexivity|].
  cbn [map]. rewrite filter_cons, Hf, decide_True by exact I. f_equal. exact IH.
Qed.

(** What a call of [partial_dependence_plots] that returns has returned. *)
Lemma partial_dependence_returned
  {RandomState Model : Type}
  (individual_conditional_expectation :
     explainer_view Model -> string -> Z -> Z -> string -> result table)
  (e : explainer Model) (selected_features : string)
  (n_sel_samples n_grid_points : Z) (type : string)
  (s s' : @state RandomState) (tbl : table) :
  partial_dependence_plots individual_conditional_expectation
    e selected_features n_sel_samples n_grid_points type s = (Ok tbl, s') ->
  exists (xs ts pred : list float),
    tbl = [("X", map fst (group_keys (zip xs ts)));
           ("times", map snd (group_keys (zip xs ts)));
           ("pred", pred)].
Proof.
  unfold partial_dependence_plots. intros H.
  apply run_bind_inv in H. destruct H as (ev & s1 & _ & H).
  apply run_bind_inv in H. destruct H as (ICE_df & s2 & _ & H).
  apply run_bind_inv in H. destruct H as (grouped & s3 & Hg & H).
  apply run_bind_inv in H. destruct H as (PDP_df & s4 & Hsel & H).
  apply run_ret_inv in H. destruct H as [<- _].
  apply run_lift_result_inv in Hg. destruct Hg as [Hg _].
  apply run_lift_result_inv in Hsel. destruct Hsel as [Hsel _].
  unfold groupby_mean in Hg.
  destruct (assoc_get ICE_df "X") as [xs|]; [|discriminate].
  destruct (assoc_get ICE_df "times") as [ts|]; [|discriminate].
  inversion Hg as [Hgrouped]. clear Hg. subst grouped.
  exists xs, ts.
  cbn [df_select assoc_get List.find fst snd String.eqb Ascii.eqb Bool.eqb
       fmap option_fmap option_map] in Hsel.
  match type of Hsel with
  | context [List.find ?f ?l] => destruct (List.find f l) as [c|]
  end; cbn [fmap option_fmap option_map rbind] in Hsel; [|discriminate].
  exists (snd c). inversion Hsel. reflexivity.
Qed.

(** X17. Every curve that [plot_PDP] draws from a table returned by
    [partial_dependence_plots] has at least one point and strictly increasing
    abscissae: for a given time the table holds one row per grid value, so a
    curve never has two points at the same grid value.  A returned table
    that has rows is drawn to the end; one without rows makes [plot_PDP]
    raise [ValueError]. *)
Theorem partial_dependence_curves
  {RandomState Model : Type}
  (individual_conditional_expectation :
     explainer_view Model -> string -> Z -> Z -> string -> result table)
  (e : explainer Model) (selected_features : string)
  (n_sel_samples n_grid_points : Z) (type : string)
  (s s' : @state RandomState) (tbl : table) :
  partial_dependence_plots individual_conditional_expectation
    e selected_features n_sel_samples n_grid_points type s = (Ok tbl, s') ->
  exists (times : list float) (o : outcome unit) (calls : list (call float)),
    assoc_get tbl "times" = Some times /\
    plot_PDP tbl [] = (o, calls) /\
    (times <> [] -> o = Done tt /\
       length (filter (fun c : call float => is_lineplot c) calls)
       = length (np_unique times)) /\
    (times = [] -> exists msg, o = Failed (Python (ValueError msg))) /\
    forall data x y color label,
      In (Lineplot data x y color label) calls ->
      x = "X" /\
      exists xs,
        assoc_get data "X" = Some xs /\ xs <> [] /\
        StronglySorted (fun a b => Float.ltb a b = true) xs.
Proof.
  intros H. apply partial_dependence_returned in H. destruct H as (xs & ts & pred & ->).
  set (groups := group_keys (zip xs ts)).
  set (tbl := [("X", map fst groups); ("times", map snd groups); ("pred", pred)]).
  assert (Ht : assoc_get tbl "times" = Some (map snd groups)) by reflexivity.
  assert (HX : assoc_get tbl "X" = Some (map fst groups)) by reflexivity.
  assert (Hv : Forall key_valid groups).
  { apply List.Forall_forall. intros k Hk. apply group_keys_elements in Hk. apply Hk. }
  assert (Hline : forall t, In t (map snd groups) ->
            exists col,
              assoc_get (loc_rows tbl (map (fun x => Float.eqb x t) (map snd groups))) "X"
              = Some col /\ col <> [] /\
              StronglySorted (fun a b => Float.ltb a b = true) col).
  { intros t Hin. eexists. split; [apply (loc_rows_column tbl _ "X" _ HX)|].
    rewrite keys_at_time_rows. split.
    - apply keys_at_time_nonempty; assumption.
    - apply keys_at_time_sorted, group_keys_sorted. }
  exists (map snd groups).
  destruct (map snd groups) as [|t0 times] eqn:Etimes.
  - eexists _, _. split; [exact Ht|].
    split; [unfold plot_PDP; rewrite (fig_bind_attr tbl "times" _ _ _ Ht); reflexivity|].
    split; [intros Hne; contradiction|].
    split; [intros _; eexists; reflexivity|].
    intros data x y color label Hin. cbn [app In] in Hin.
    destruct Hin as [Hin|[Hin|[Hin|Hin]]]; try discriminate; contradiction.
  - destruct (plot_PDP_run tbl (t0 :: times) Ht ltac:(discriminate))
      as (lo & hi & _ & _ & Hrun).
    eexists _, _. split; [exact Ht|]. split; [exact Hrun|].
    split; [|split; [intros; discriminate|]].
    + intros _. split; [reflexivity|].
      rewrite !filter_app, !length_app.
      rewrite filter_lineplots_map by (intros; reflexivity).
      rewrite length_map. generalize (length (np_unique (t0 :: times))). intros n.
      rewrite !filter_cons. cbn [is_lineplot].
      rewrite !decide_False by (intros Hf; exact Hf).
      rewrite !filter_nil. cbn [length]. lia.
    + intros data x y color label Hin.
      apply in_app_or in Hin. destruct Hin as [Hin|Hin].
      { cbn [In] in Hin. destruct Hin as [Hin|[Hin|[Hin|Hin]]];
          try discriminate; contradiction. }
      apply in_app_or in Hin. destruct Hin as [Hin|Hin].
      2: { cbn [In] in Hin.
           repeat (destruct Hin as [Hin|Hin]; [discriminate|]). contradiction. }
      apply in_map_iff in Hin. destruct Hin as (t & Hl & Hin).
      inversion Hl. subst. split; [reflexivity|].
      apply Hline. apply (proj1 (np_unique_elements _ _)) in Hin. exact Hin.
Qed.

Lemma partial_dependence_curves_witness :
  exists tbl s',
    partial_dependence_plots Example.individual_conditional_expectation
      Example.explainer0 "x0" 100 50 "survival" Example.s0 = (Ok tbl, s') /\
    exists (times : list float) (o : outcome unit) (calls : list (call float)),
      assoc_get tbl "times" = Some times /\
      plot_PDP tbl [] = (o, calls) /\
      (times <> [] -> o = Done tt /\
         length (filter (fun c : call float => is_lineplot c) calls)
         = length (np_unique times)) /\
      (times = [] -> exists msg, o = Failed (Python (ValueError msg))) /\
      forall data x y color label,
        In (Lineplot data x y color label) calls ->
        x = "X" /\
        exists xs,
          assoc_get data "X" = Some xs /\ xs <> [] /\
          StronglySorted (fun a b => Float.ltb a b = true) xs.
Proof.
  eexists _, _. split; [vm_compute; reflexivity|].
  eapply (partial_dependence_curves Example.individual_conditional_expectation
            Example.explainer0 "x0" 100 50 "survival" Example.s0).
  vm_compute. reflexivity.
Defined.

(** X18. [partial_dependence_plots] checks nothing itself.  An exception of
    the generator of individual conditional expectations (an unknown feature,
    an unsupported type) is raised as it is; a generated frame that lacks
    the column [X], [times] or [pred] makes the call raise [KeyError] for the
    first of them that is missing.  In every case the state is left as it
    was. *)
Theorem partial_dependence_failures
  {RandomState Model : Type}
  (individual_conditional_expectation :
     explainer_view Model -> string -> Z -> Z -> string -> result table)
  (e : explainer Model) (selected_features : string)
  (n_sel_samples n_grid_points : Z) (type : string)
  (s : @state RandomState) (D : table) :
  read_frame (heap s) (data e) = Some D ->
  let curves :=
    individual_conditional_expectation
      (ExplainerView (model e) D (label e)) selected_features
      n_sel_samples n_grid_points type in
  let out :=
    partial_dependence_plots individual_conditional_expectation
      e selected_features n_sel_samples n_grid_points type s in
  (forall ex, curves = Raise ex -> out = (Raise ex, s)) /\
  (forall ICE_df, curves = Ok ICE_df ->
     (assoc_get ICE_df "X" = None -> out = (Raise (KeyError "X"), s)) /\
     (assoc_get ICE_df "X" <> None -> assoc_get ICE_df "times" = None ->
      out = (Raise (KeyError "times"), s)) /\
     (assoc_get ICE_df "X" <> None -> assoc_get ICE_df "times" <> None ->
      assoc_get ICE_df "pred" = None -> out = (Raise (KeyError "pred"), s))).
Proof.
  intros HD curves out.
  assert (Hout : out = match curves with
                       | Raise ex => (Raise ex, s)
                       | Ok ICE_df =>
                           match groupby_mean ICE_df "X" "times" with
                           | Raise ex => (Raise ex, s)
                           | Ok grouped =>
                               match df_select grouped ["X"; "times"; "pred"] with
                               | Raise ex => (Raise ex, s)
                               | Ok PDP_df => (Ok PDP_df, s)
                               end
                           end
                       end).
  { unfold out, partial_dependence_plots, view_of.
    unfold bind at 1. unfold bind at 1. unfold df_read. rewrite HD. cbn [lift_option ret].
    unfold bind at 1. fold curves. destruct curves as [ICE_df|ex]; [|reflexivity].
    cbn [lift_result ret]. unfold bind at 1.
    destruct (groupby_mean ICE_df "X" "times") as [grouped|ex]; [|reflexivity].
    cbn [lift_result ret]. unfold bind at 1.
    destruct (df_select grouped ["X"; "times"; "pred"]); reflexivity. }
  split.
  - intros ex Hc. rewrite Hout, Hc. reflexivity.
  - intros ICE_df Hc. rewrite Hout, Hc. unfold groupby_mean. split; [|split].
    + intros ->. reflexivity.
    + intros HX ->. destruct (assoc_get ICE_df "X"); [reflexivity|contradiction].
    + intros HX Ht Hp.
      destruct (assoc_get ICE_df "X") as [xs|]; [|contradiction].
      destruct (assoc_get ICE_df "times") as [ts|]; [|contradiction].
      cbn [df_select assoc_get List.find fst snd String.eqb Ascii.eqb Bool.eqb
           fmap option_fmap option_map].
      change (snd <$> List.find (fun c : string * list float => String.eqb (fst c) "pred") ?l)
        with (assoc_get l "pred").
      rewrite (assoc_get_map_values
                 (fun col => map (fun k => mean_skipna (group_values_of (zip xs ts) col k))
                                 (group_keys (zip xs ts)))).
      unfold table, frame in *.
      rewrite (assoc_get_filter_other ICE_df "X" "times" "pred") by reflexivity.
      rewrite Hp. reflexivity.
Qed.

Lemma partial_dependence_failures_witness :
  partial_dependence_plots Example.individual_conditional_expectation
    Example.explainer0 "age" 100 50 "survival" Example.s0
  = (Raise (KeyError "age"), Example.s0) /\
  partial_dependence_plots
    (fun _ _ _ _ _ => Ok [("X", [Example.fz 1]); ("times", [Example.fz 1])])
    Example.explainer0 "x0" 100 50 "survival" Example.s0
  = (Raise (KeyError "pred"), Example.s0).
Proof.
  split.
  - apply (proj1 (partial_dependence_failures Example.individual_conditional_expectation
                    Example.explainer0 "age" 100 50 "survival" Example.s0
                    Example.data_content example_data_content)).
    reflexivity.
  - apply (proj2 (partial_dependence_failures
                    (fun _ _ _ _ _ => Ok [("X", [Example.fz 1]); ("times", [Example.fz 1])])
                    Example.explainer0 "x0" 100 50 "survival" Example.s0
                    Example.data_content example_data_content)
                 [("X", [Example.fz 1]); ("times", [Example.fz 1])] eq_refl).
    + discriminate.
    + discriminate.
    + reflexivity.
Defined.
